(** * Molecular graphs for a message-passing network: featurizers, graph
      construction, batch merging and neighbourhood aggregation

    A shallow embedding of [examples/graph/ipynb/mpnn-molecular-graphs.ipynb]:
    [Featurizer], [AtomFeaturizer], [BondFeaturizer], [graph_from_molecule],
    [prepare_batch], [EdgeNetwork.call] and [MessagePassing.call], then
    [graphs_from_smiles], the three sets of the data, [MPNNDataset],
    [PartitionPadding.call] and the first two layers of [MPNNModel].

    Conventions.
    - Python values that occur as feature values are strings, integers and
      booleans; [bool] is a subclass of [int] in Python ([True == 1] and
      [hash(True) == hash(1)]), so a boolean is the integer 0 or 1.
    - A feature vector is a list of rationals; only [0.0] and [1.0] are ever
      stored in it.
    - An index tensor ([int64]) is a list of integers or of pairs of integers.
      A count is a number of rows of a tensor and is below [2^63]; the sums
      of indices are written in [Z], and they are the sums the code computes
      as long as the index pairs of a graph refer to its own nodes: a sum is
      then below the number of rows of the merged tensor.  The theorems that
      state the value of a merged index assume so.
    - An operation of the tensor library that raises (an index out of range,
      shapes that do not broadcast, segment ids that are not sorted) returns
      [None]. *)

From Stdlib Require Import QArith Ascii String.
From stdpp Require Import base option numbers list strings sorting gmap.

Open Scope Z_scope.

(** ** Feature values *)

Inductive value : Type :=
  | VStr (s : string)
  | VInt (z : Z).

Global Instance value_eq_dec : EqDecision value.
Proof. solve_decision. Defined.

Definition value_to_sum (v : value) : string + Z :=
  match v with VStr s => inl s | VInt z => inr z end.

Definition value_of_sum (x : string + Z) : value :=
  match x with inl s => VStr s | inr z => VInt z end.

Global Instance value_countable : Countable value.
Proof.
  apply (inj_countable' value_to_sum value_of_sum).
  intros []; reflexivity.
Defined.

Definition py_bool (b : bool) : value := VInt (if b then 1 else 0).

(** The order [sorted] uses: integers by value, strings by code point.
    Python refuses to compare a string with an integer; every allowable set
    of the notebook holds values of one kind, and here an integer comes
    before a string. *)
Definition value_leb (a b : value) : bool :=
  match a, b with
  | VInt x, VInt y => bool_decide (x ≤ y)
  | VInt _, VStr _ => true
  | VStr _, VInt _ => false
  | VStr s, VStr t => String.leb s t
  end.

Definition value_le (a b : value) : Prop := value_leb a b = true.

Global Instance value_le_dec : RelDecision value_le.
Proof. intros a b. unfold value_le. apply _. Defined.

(** [sorted(list(s))] for a Python set [s]. *)
Definition sorted (s : gset value) : list value :=
  merge_sort value_le (elements s).

(** ** Featurizer *)

(** [dict(zip(keys, values))]: a later pair overrides an earlier one. *)
Definition dict_zip (keys : list value) (vals : list nat) : gmap value nat :=
  foldl (λ m kv, <[kv.1 := kv.2]> m) ∅ (zip keys vals).

(** [range(a, b)] *)
Definition range (a b : nat) : list nat := seq a (b - a).

(** An instance of [Featurizer] (or of a subclass): [self.dim] and
    [self.features_mapping].  The mapping is a Python dict from category
    name to a dict from value to slot; its entries are kept in insertion
    order, which is the order [encode] visits them in. *)
Record Featurizer : Type := {
  dim : nat;
  features_mapping : list (string * gmap value nat)
}.

(** [Featurizer.__init__].  [allowable_sets] is a dict, given by its items in
    insertion order (the names are pairwise distinct). *)
Definition Featurizer_init_step (self : Featurizer) (ks : string * gset value)
    : Featurizer :=
  let s := sorted ks.2 in
  {| features_mapping :=
       features_mapping self
         ++ [(ks.1, dict_zip s (range (dim self) (length s + dim self)))];
     dim := (dim self + length s)%nat |}.

Definition Featurizer_init (allowable_sets : list (string * gset value))
    : Featurizer :=
  foldl Featurizer_init_step {| dim := 0; features_mapping := [] |}
        allowable_sets.

(** [np.zeros((n,))] *)
Definition np_zeros (n : nat) : list Q := replicate n 0%Q.

(** A [for] loop whose body may raise: the state is threaded through the
    iterations and the first error ends the loop. *)
Fixpoint for_each {S A : Type} (body : S → A → option S) (s : S) (l : list A)
    : option S :=
  match l with
  | [] => Some s
  | x :: l' => s' ← body s x; for_each body s' l'
  end.

(** [output[i] = x] on an array: an index past the end raises [IndexError]. *)
Definition setitem (output : list Q) (i : nat) (x : Q) : option (list Q) :=
  if decide (i < length output)%nat then Some (<[i := x]> output) else None.

Section encode.
(** The class of the featurizer object: [getattr name] is the method
    [name] of the class, [None] when the class has no such attribute
    ([AttributeError]). *)
Context {Item : Type} (getattr : string → option (Item → value)).

(** The body of the loop of [Featurizer.encode]. *)
Definition encode_step (inputs : Item) (output : list Q)
    (entry : string * gmap value nat) : option (list Q) :=
  let '(name_feature, feature_mapping) := entry in
  extractor ← getattr name_feature;
  let feature := extractor inputs in
  match feature_mapping !! feature with
  | None => Some output                                     (* continue *)
  | Some slot => setitem output slot 1%Q
  end.

(** [Featurizer.encode] *)
Definition encode (self : Featurizer) (inputs : Item) : option (list Q) :=
  for_each (encode_step inputs) (np_zeros (dim self)) (features_mapping self).
End encode.

(** ** The chemistry toolkit

    What the notebook reads from a molecule: its atoms in index order
    ([GetIdx] is the position), its bonds, and the accessors of both.  The
    toolkit keeps every bond between two different atoms of the molecule. *)

Record Atom : Type := {
  GetSymbol : string;
  GetTotalValence : Z;
  GetTotalNumHs : Z;
  GetHybridization_name : string          (* [GetHybridization().name] *)
}.

Record Bond : Type := {
  GetBeginAtomIdx : nat;
  GetEndAtomIdx : nat;
  GetBondType_name : string;              (* [GetBondType().name] *)
  GetIsConjugated : bool
}.

Record Mol : Type := {
  mol_atoms : list Atom;
  mol_bonds : list Bond
}.

Definition GetNumAtoms (molecule : Mol) : nat := length (mol_atoms molecule).

(** [molecule.GetAtoms()], each atom with its [GetIdx()]. *)
Definition GetAtoms (molecule : Mol) : list (nat * Atom) :=
  zip (seq 0 (GetNumAtoms molecule)) (mol_atoms molecule).

Definition other_end (idx : nat) (b : Bond) : option nat :=
  if decide (GetBeginAtomIdx b = idx) then Some (GetEndAtomIdx b)
  else if decide (GetEndAtomIdx b = idx) then Some (GetBeginAtomIdx b)
  else None.

(** [atom.GetNeighbors()] for the atom [idx]: the far ends of its bonds. *)
Definition GetNeighbors (molecule : Mol) (idx : nat) : list nat :=
  omap (other_end idx) (mol_bonds molecule).

Definition connects (i j : nat) (b : Bond) : Prop :=
  (GetBeginAtomIdx b = i ∧ GetEndAtomIdx b = j)
  ∨ (GetBeginAtomIdx b = j ∧ GetEndAtomIdx b = i).

Global Instance connects_dec i j b : Decision (connects i j b).
Proof. unfold connects. apply _. Defined.

(** [molecule.GetBondBetweenAtoms(i, j)]: the bond or [None]. *)
Definition GetBondBetweenAtoms (molecule : Mol) (i j : nat) : option Bond :=
  head (filter (connects i j) (mol_bonds molecule)).

(** The toolkit's invariant on bonds. *)
Definition bond_ok (n : nat) (b : Bond) : Prop :=
  (GetBeginAtomIdx b < n)%nat ∧ (GetEndAtomIdx b < n)%nat
  ∧ GetBeginAtomIdx b ≠ GetEndAtomIdx b.

Definition molecule_ok (molecule : Mol) : Prop :=
  Forall (bond_ok (GetNumAtoms molecule)) (mol_bonds molecule).

Global Instance molecule_ok_dec molecule : Decision (molecule_ok molecule).
Proof. unfold molecule_ok, bond_ok. apply _. Defined.

(** [str.lower()] on ASCII letters. *)
Definition lower_ascii (c : ascii) : ascii :=
  let n := nat_of_ascii c in
  if decide (65 ≤ n ≤ 90)%nat then ascii_of_nat (n + 32) else c.

Fixpoint lower (s : string) : string :=
  match s with
  | EmptyString => EmptyString
  | String c s' => String (lower_ascii c) (lower s')
  end.

(** ** AtomFeaturizer and BondFeaturizer *)

(** The methods of [AtomFeaturizer]. *)
Definition AtomFeaturizer_getattr (name : string) : option (Atom → value) :=
  if decide (name = "symbol") then Some (λ atom, VStr (GetSymbol atom))
  else if decide (name = "n_valence")
       then Some (λ atom, VInt (GetTotalValence atom))
  else if decide (name = "n_hydrogens")
       then Some (λ atom, VInt (GetTotalNumHs atom))
  else if decide (name = "hybridization")
       then Some (λ atom, VStr (lower (GetHybridization_name atom)))
  else None.

Definition AtomFeaturizer_init (allowable_sets : list (string * gset value))
    : Featurizer :=
  Featurizer_init allowable_sets.

Definition AtomFeaturizer_encode (self : Featurizer) (atom : Atom)
    : option (list Q) :=
  encode AtomFeaturizer_getattr self atom.

(** The methods of [BondFeaturizer]. *)
Definition BondFeaturizer_getattr (name : string) : option (Bond → value) :=
  if decide (name = "bond_type")
  then Some (λ bond, VStr (lower (GetBondType_name bond)))
  else if decide (name = "conjugated")
       then Some (λ bond, py_bool (GetIsConjugated bond))
  else None.

Definition BondFeaturizer_init (allowable_sets : list (string * gset value))
    : Featurizer :=
  let self := Featurizer_init allowable_sets in
  {| dim := dim self + 1; features_mapping := features_mapping self |}.

(** [BondFeaturizer.encode]; [output[-1]] is the last slot. *)
Definition BondFeaturizer_encode (self : Featurizer) (bond : option Bond)
    : option (list Q) :=
  let output := np_zeros (dim self) in
  match bond with
  | None =>
      if decide (dim self = 0)%nat then None
      else setitem output (dim self - 1) 1%Q
  | Some bond => encode BondFeaturizer_getattr self bond
  end.

Definition strs (l : list string) : gset value := list_to_set (VStr <$> l).
Definition ints (l : list Z) : gset value := list_to_set (VInt <$> l).

(** The [allowable_sets] the notebook passes to the two featurizers. *)
Definition atom_allowable_sets : list (string * gset value) :=
  [("symbol"%string,
    strs ["B"; "Br"; "C"; "Ca"; "Cl"; "F"; "H"; "I"; "N"; "Na"; "O"; "P"; "S"]
    %string);
   ("n_valence"%string, ints [0; 1; 2; 3; 4; 5; 6]);
   ("n_hydrogens"%string, ints [0; 1; 2; 3; 4]);
   ("hybridization"%string, strs ["s"; "sp"; "sp2"; "sp3"]%string)].

Definition bond_allowable_sets : list (string * gset value) :=
  [("bond_type"%string, strs ["single"; "double"; "triple"; "aromatic"]%string);
   ("conjugated"%string,
    list_to_set [py_bool true; py_bool false] : gset value)].

Definition atom_featurizer : Featurizer :=
  AtomFeaturizer_init atom_allowable_sets.

Definition bond_featurizer : Featurizer :=
  BondFeaturizer_init bond_allowable_sets.

(** ** Graphs *)

(** [(atom_features, bond_features, pair_indices)] *)
Record Graph : Type := {
  atom_features : list (list Q);
  bond_features : list (list Q);
  pair_indices : list (Z * Z)
}.

Definition empty_graph : Graph :=
  {| atom_features := []; bond_features := []; pair_indices := [] |}.

Section graph_from_molecule.
Context (molecule : Mol).

(** The body of the loop over the neighbours of the atom [idx]. *)
Definition neighbor_step (idx : nat) (g : Graph) (neighbor : nat)
    : option Graph :=
  let bond := GetBondBetweenAtoms molecule idx neighbor in
  f ← BondFeaturizer_encode bond_featurizer bond;
  Some {| atom_features := atom_features g;
          pair_indices := pair_indices g ++ [(Z.of_nat idx, Z.of_nat neighbor)];
          bond_features := bond_features g ++ [f] |}.

(** The body of the loop over the atoms. *)
Definition atom_step (g : Graph) (ia : nat * Atom) : option Graph :=
  let '(idx, atom) := ia in
  fa ← AtomFeaturizer_encode atom_featurizer atom;
  fb ← BondFeaturizer_encode bond_featurizer None;
  let g1 := {| atom_features := atom_features g ++ [fa];
               pair_indices := pair_indices g ++ [(Z.of_nat idx, Z.of_nat idx)];
               bond_features := bond_features g ++ [fb] |} in
  let atom_neighbors := GetNeighbors molecule idx in
  for_each (neighbor_step idx) g1 atom_neighbors.

Definition graph_from_molecule : option Graph :=
  for_each atom_step empty_graph (GetAtoms molecule).
End graph_from_molecule.

(** ** Batch merging *)

(** The merged (global) graph [prepare_batch] returns:
    [(atom_features, bond_features, pair_indices, atom_partition_indices)]. *)
Record GlobalGraph : Type := {
  g_atom_features : list (list Q);
  g_bond_features : list (list Q);
  g_pair_indices : list (Z * Z);
  g_atom_partition_indices : list nat
}.

(** [tf.repeat(input, repeats)] for two vectors of the same length. *)
Definition tf_repeat {A : Type} (input : list A) (repeats : list nat) : list A :=
  concat (zip_with (λ x r, replicate r x) input repeats).

(** [tf.cumsum] *)
Fixpoint cumsum_from (acc : Z) (l : list Z) : list Z :=
  match l with
  | [] => []
  | x :: l' => (acc + x) :: cumsum_from (acc + x) l'
  end.

Definition tf_cumsum (l : list Z) : list Z := cumsum_from 0 l.

(** [tf.gather(params, indices)]: an index out of range raises. *)
Definition tf_gather {A : Type} (params : list A) (indices : list nat)
    : option (list A) :=
  mapM (λ i, params !! i) indices.

(** [ragged.merge_dims(outer_axis=0, inner_axis=1).to_tensor()] on a batch of
    matrices: the rows of all matrices one after the other, each padded with
    zeros up to the width of the widest row. *)
Definition to_tensor (rows : list (list Q)) : list (list Q) :=
  let width := max_list (length <$> rows) in
  (λ row, row ++ replicate (width - length row) 0%Q) <$> rows.

Definition merge_dims {A : Type} (batch : list (list A)) : list A := concat batch.

(** [pair_indices + increment[:, tf.newaxis]]: shapes [(p, 2)] and [(e, 1)]
    broadcast when [p = e] or when one of them is 1.  The sum of two [int64]
    is written in [Z]: it is the code's sum when it is below [2^63], as it
    is for an index of a node of a graph and the number of nodes merged
    before that graph ([graph_indices_ok] below); a greater sum wraps in
    the code. *)
Definition add_pair (p : Z * Z) (d : Z) : Z * Z := (p.1 + d, p.2 + d).

Definition add_newaxis (pairs : list (Z * Z)) (increment : list Z)
    : option (list (Z * Z)) :=
  if decide (length pairs = length increment)
  then Some (zip_with add_pair pairs increment)
  else match increment, pairs with
       | [d], _ => Some ((λ p, add_pair p d) <$> pairs)
       | _, [p] => Some (add_pair p <$> increment)
       | _, _ => None
       end.

(** [prepare_batch]; [x_batch] is the batch of graphs the dataset hands
    over, [y_batch] their labels. *)
Definition prepare_batch {Y : Type} (x_batch : list Graph) (y_batch : Y)
    : option (GlobalGraph * Y) :=
  let atom_features_b := atom_features <$> x_batch in
  let bond_features_b := bond_features <$> x_batch in
  let pair_indices_b := pair_indices <$> x_batch in
  let num_atoms := length <$> atom_features_b in
  let num_bonds := length <$> bond_features_b in
  let molecule_indices := seq 0 (length num_atoms) in
  let atom_partition_indices := tf_repeat molecule_indices num_atoms in
  let bond_partition_indices :=
    tf_repeat (removelast molecule_indices) (tail num_bonds) in
  let increment := tf_cumsum (Z.of_nat <$> removelast num_atoms) in
  num_bonds_0 ← head num_bonds;
  gathered ← tf_gather increment bond_partition_indices;
  let increment := replicate num_bonds_0 0 ++ gathered in
  let pair_indices := merge_dims pair_indices_b in
  pair_indices ← add_newaxis pair_indices increment;
  let atom_features := to_tensor (merge_dims atom_features_b) in
  let bond_features := to_tensor (merge_dims bond_features_b) in
  Some ({| g_atom_features := atom_features;
           g_bond_features := bond_features;
           g_pair_indices := pair_indices;
           g_atom_partition_indices := atom_partition_indices |}, y_batch).

(** [offset_i]: the number of nodes of the graphs before the [i]-th. *)
Definition node_offset (x_batch : list Graph) (i : nat) : Z :=
  Z.of_nat (sum_list (length ∘ atom_features <$> take i x_batch)).

(** The shape of a graph: one row of bond features per index pair. *)
Definition graph_shape_ok (g : Graph) : Prop :=
  length (bond_features g) = length (pair_indices g).

(** The index pairs of a graph refer to its own nodes. *)
Definition pair_in_range (lo hi : Z) (p : Z * Z) : Prop :=
  lo ≤ p.1 < hi ∧ lo ≤ p.2 < hi.

Definition graph_indices_ok (g : Graph) : Prop :=
  Forall (pair_in_range 0 (Z.of_nat (length (atom_features g))))
         (pair_indices g).

Global Instance graph_shape_ok_dec g : Decision (graph_shape_ok g).
Proof. unfold graph_shape_ok. apply _. Defined.

Global Instance pair_in_range_dec lo hi p : Decision (pair_in_range lo hi p).
Proof. unfold pair_in_range. apply _. Defined.

Global Instance graph_indices_ok_dec g : Decision (graph_indices_ok g).
Proof. unfold graph_indices_ok. apply _. Defined.

(** A vector of integers is non-decreasing. *)
Definition non_decreasing (l : list Z) : Prop := Sorted Z.le l.

(** ** Message passing

    The scalars of the network are kept abstract: a type with a zero, an
    addition and a multiplication, of which no law is assumed.  What is
    proved below therefore holds for [float32] as it does for the reals, as
    long as a sum is taken in the order of its terms. *)

Section message_passing.
Context {R : Type} (Rzero : R) (Radd Rmul : R → R → R).

(** Sums and products of vectors.  Wherever a layer is used on features of
    the widths it is built for ([EdgeNetwork_built], [MessagePassing_built]
    and [rows_of_width] below) the two vectors have the same length.  On
    other widths [tf.matmul] and the sums raise, which is not written here:
    [zip_with] stops at the shorter vector.  The theorems that state that a
    layer succeeds assume the widths. *)
Definition zeros (d : nat) : list R := replicate d Rzero.
Definition vadd (u v : list R) : list R := zip_with Radd u v.
Definition dot (u v : list R) : R := foldl Radd Rzero (zip_with Rmul u v).

(** The sum of the rows [rows], each of width [d]. *)
Definition vsum (d : nat) (rows : list (list R)) : list R :=
  foldl vadd (zeros d) rows.

(** [tf.gather(params, indices)] with [int64] indices. *)
Definition gather_rows (params : list (list R)) (indices : list Z)
    : option (list (list R)) :=
  mapM (λ i, if decide (0 ≤ i) then params !! Z.to_nat i else None) indices.

(** [tf.math.segment_sum(data, segment_ids)], [data] with rows of width [d].
    The ids must be sorted and non-negative, one per row; the result has
    one row per id up to the last, the greatest, and row [i] is the sum of
    the rows of [data] whose id is [i], zero when there is none. *)
Definition num_segments (segment_ids : list Z) : nat :=
  match last segment_ids with
  | None => 0
  | Some i => Z.to_nat (i + 1)
  end.

Definition segment_rows (data : list (list R)) (segment_ids : list Z) (i : Z)
    : list (list R) :=
  (filter (λ x, x.2 = i) (zip data segment_ids)).*1.

Definition segment_sum (d : nat) (data : list (list R)) (segment_ids : list Z)
    : option (list (list R)) :=
  if decide (length data = length segment_ids
             ∧ Sorted Z.le segment_ids ∧ Forall (Z.le 0) segment_ids)
  then Some ((λ i, vsum d (segment_rows data segment_ids (Z.of_nat i)))
               <$> seq 0 (num_segments segment_ids))
  else None.

(** The weights of an [EdgeNetwork] layer, as [build] creates them:
    [kernel] has [bond_dim] rows of [atom_dim * atom_dim] entries. *)
Record EdgeNetwork : Type := {
  atom_dim : nat;
  bond_dim : nat;
  kernel : list (list R);
  bias : list R
}.

(** Row [row] times the matrix [m] of [cols] columns. *)
Definition vecmat (cols : nat) (row : list R) (m : list (list R)) : list R :=
  (λ j, dot row ((λ r, default Rzero (r !! j)) <$> m)) <$> seq 0 cols.

(** [tf.reshape(v, (d, d))] of a row of [d * d] entries. *)
Definition reshape (d : nat) (v : list R) : list (list R) :=
  (λ i, take d (drop (i * d) v)) <$> seq 0 d.

Definition matvec (m : list (list R)) (v : list R) : list R :=
  (λ r, dot r v) <$> m.

(** The matrix of an edge: its bond features through the dense layer. *)
Definition edge_matrix (self : EdgeNetwork) (bond : list R) : list (list R) :=
  let d := atom_dim self in
  reshape d (vadd (vecmat (d * d) bond (kernel self)) (bias self)).

(** [tf.matmul] of a batch of matrices with a batch of column vectors; the
    batch sizes are equal, or one of them is 1 and is repeated. *)
Definition batch_matvec (ms : list (list (list R))) (vs : list (list R))
    : option (list (list R)) :=
  if decide (length ms = length vs) then Some (zip_with matvec ms vs)
  else match ms, vs with
       | [m], _ => Some (matvec m <$> vs)
       | _, [v] => Some ((λ m, matvec m v) <$> ms)
       | _, _ => None
       end.

(** [EdgeNetwork.call] *)
Definition EdgeNetwork_call (self : EdgeNetwork)
    (atom_features : list (list R)) (bond_features : list (list R))
    (pair_indices : list (Z * Z)) : option (list (list R)) :=
  let bond_features := edge_matrix self <$> bond_features in
  atom_features_neighbors ← gather_rows atom_features (pair_indices.*2);
  transformed_features ← batch_matvec bond_features atom_features_neighbors;
  segment_sum (atom_dim self) transformed_features (pair_indices.*1).

(** A [MessagePassing] layer after [build]: [update_step] is the gated
    recurrent cell, a function of one row of input and one row of state,
    applied to a batch row by row. *)
Record MessagePassing : Type := {
  units : nat;
  steps : nat;
  mp_atom_dim : nat;
  message_step : EdgeNetwork;
  update_step : list R → list R → list R
}.

Definition pad_length (self : MessagePassing) : nat :=
  (units self - mp_atom_dim self)%nat.          (* max(0, units - atom_dim) *)

(** The cell on a batch.  Its gates add a product of the inputs to a
    product of the states, and the sums broadcast: there are as many rows of
    input as of state, or one of the two has a single row, which is used
    with every row of the other. *)
Definition GRUCell_call (cell : list R → list R → list R)
    (inputs states : list (list R)) : option (list (list R)) :=
  if decide (length inputs = length states)
  then Some (zip_with cell inputs states)
  else match inputs, states with
       | [input], _ => Some (cell input <$> states)
       | _, [state] => Some ((λ input, cell input state) <$> inputs)
       | _, _ => None
       end.

(** [tf.pad(x, [(0, 0), (0, n)])] *)
Definition pad_columns (n : nat) (x : list (list R)) : list (list R) :=
  (λ row, row ++ zeros n) <$> x.

(** The body of the loop of [MessagePassing.call]. *)
Definition message_passing_step (self : MessagePassing)
    (bond_features : list (list R)) (pair_indices : list (Z * Z))
    (atom_features_updated : list (list R)) : option (list (list R)) :=
  atom_features_aggregated ←
    EdgeNetwork_call (message_step self) atom_features_updated
                     bond_features pair_indices;
  GRUCell_call (update_step self) atom_features_aggregated
               atom_features_updated.

Fixpoint iterate (n : nat) (f : list (list R) → option (list (list R)))
    (x : list (list R)) : option (list (list R)) :=
  match n with
  | O => Some x
  | S n' => x' ← f x; iterate n' f x'
  end.

(** [MessagePassing.call] *)
Definition MessagePassing_call (self : MessagePassing)
    (atom_features : list (list R)) (bond_features : list (list R))
    (pair_indices : list (Z * Z)) : option (list (list R)) :=
  let atom_features_updated := pad_columns (pad_length self) atom_features in
  iterate (steps self)
          (message_passing_step self bond_features pair_indices)
          atom_features_updated.
End message_passing.

(** ** Sample data *)

Definition carbon_sp3 (hydrogens : Z) : Atom :=
  {| GetSymbol := "C"; GetTotalValence := 4; GetTotalNumHs := hydrogens;
     GetHybridization_name := "SP3" |}.

Definition oxygen_sp3 : Atom :=
  {| GetSymbol := "O"; GetTotalValence := 2; GetTotalNumHs := 1;
     GetHybridization_name := "SP3" |}.

(** An atom the vocabulary does not know: selenium with an [SP3D] shell. *)
Definition selenium : Atom :=
  {| GetSymbol := "Se"; GetTotalValence := 2; GetTotalNumHs := 0;
     GetHybridization_name := "SP3D" |}.

Definition single_bond (a b : nat) : Bond :=
  {| GetBeginAtomIdx := a; GetEndAtomIdx := b; GetBondType_name := "SINGLE";
     GetIsConjugated := false |}.

(** Ethanol, [CCO]. *)
Definition ethanol : Mol :=
  {| mol_atoms := [carbon_sp3 3; carbon_sp3 2; oxygen_sp3];
     mol_bonds := [single_bond 0 1; single_bond 1 2] |}.

(** Methane, [C]. *)
Definition methane : Mol :=
  {| mol_atoms := [carbon_sp3 4]; mol_bonds := [] |}.

(** A small vocabulary. *)
Definition small_allowable_sets : list (string * gset value) :=
  [("symbol"%string, strs ["C"; "N"; "O"]%string);
   ("n_valence"%string, ints [0; 1; 2; 3; 4]);
   ("hybridization"%string, strs ["sp2"; "sp3"]%string)].

(** * Notions of the statements and proofs *)

(** ** The constructor of a featurizer *)

(** The entries the constructor builds, the first slot being [off]. *)
Fixpoint mk_mapping (off : nat) (sets : list (string * gset value))
    : list (string * gmap value nat) :=
  match sets with
  | [] => []
  | ks :: rest =>
      (ks.1, dict_zip (sorted ks.2) (seq off (size ks.2)))
        :: mk_mapping (off + size ks.2) rest
  end.

Definition total_dim (sets : list (string * gset value)) : nat :=
  sum_list (size ∘ snd <$> sets).

Definition one_hot (l : list value) (v : value) : list Q :=
  (λ u, if decide (u = v) then 1%Q else 0%Q) <$> l.

(** ** The slots of a category *)

(** The first slot of the category at position [c]. *)
Definition slot_start (sets : list (string * gset value)) (c : nat) : nat :=
  total_dim (take c sets).

Section featurizer_class.
Context {Item : Type} (getattr : string → option (Item → value)).

(** The class defines a method for every category. *)
Definition class_ok (sets : list (string * gset value)) : Prop :=
  Forall (λ ks, is_Some (getattr ks.1)) sets.

(** The slots of one category in the encoding of [x]. *)
Definition block (x : Item) (ks : string * gset value) : list Q :=
  match getattr ks.1 with
  | Some extractor => one_hot (sorted ks.2) (extractor x)
  | None => []
  end.
End featurizer_class.

(** ** The two featurizers of the notebook never raise *)

(** The row [atom_featurizer] encodes an atom to. *)
Definition atom_row (atom : Atom) : list Q :=
  concat (block AtomFeaturizer_getattr atom <$> atom_allowable_sets).

(** The row [bond_featurizer] encodes a bond, or no bond, to. *)
Definition bond_row (bond : option Bond) : list Q :=
  match bond with
  | None => np_zeros (total_dim bond_allowable_sets) ++ [1%Q]
  | Some b => concat (block BondFeaturizer_getattr b <$> bond_allowable_sets)
                ++ [0%Q]
  end.

(** ** The graph of a molecule *)

Definition atom_pairs (molecule : Mol) (idx : nat) : list (Z * Z) :=
  (Z.of_nat idx, Z.of_nat idx)
    :: ((λ neighbor, (Z.of_nat idx, Z.of_nat neighbor))
          <$> GetNeighbors molecule idx).

Definition atom_bond_rows (molecule : Mol) (idx : nat) : list (list Q) :=
  bond_row None
    :: ((λ neighbor, bond_row (GetBondBetweenAtoms molecule idx neighbor))
          <$> GetNeighbors molecule idx).

(** The graph [graph_from_molecule] builds. *)
Definition molecule_graph (molecule : Mol) : Graph :=
  {| atom_features := atom_row <$> mol_atoms molecule;
     bond_features :=
       concat (atom_bond_rows molecule <$> seq 0 (GetNumAtoms molecule));
     pair_indices :=
       concat (atom_pairs molecule <$> seq 0 (GetNumAtoms molecule)) |}.

(** ** Counting the edges *)

(** The directed edges out of [idx] to the atoms [neighbors]. *)
Definition directed (idx : nat) (neighbors : list nat) : list (Z * Z) :=
  (λ neighbor, (Z.of_nat idx, Z.of_nat neighbor)) <$> neighbors.

(** The edge a bond contributes at the atom [idx]. *)
Definition bond_edge_at (b : Bond) (idx : nat) : list (Z * Z) :=
  directed idx (option_list (other_end idx b)).

Definition forward (b : Bond) : Z * Z :=
  (Z.of_nat (GetBeginAtomIdx b), Z.of_nat (GetEndAtomIdx b)).

Definition backward (b : Bond) : Z * Z :=
  (Z.of_nat (GetEndAtomIdx b), Z.of_nat (GetBeginAtomIdx b)).

(** ** What [prepare_batch] returns *)

(** The merged graph of a batch. *)
Definition merged_pairs (gs : list Graph) : list (Z * Z) :=
  concat (imap (λ i g, (λ p, add_pair p (node_offset gs i)) <$> pair_indices g)
               gs).

Definition merged_membership (gs : list Graph) : list nat :=
  concat (imap (λ i g, replicate (length (atom_features g)) i) gs).

Definition merged (gs : list Graph) : GlobalGraph :=
  {| g_atom_features := to_tensor (concat (atom_features <$> gs));
     g_bond_features := to_tensor (concat (bond_features <$> gs));
     g_pair_indices := merged_pairs gs;
     g_atom_partition_indices := merged_membership gs |}.

(** ** Offsets *)

Definition node_count (gs : list Graph) : nat :=
  sum_list (length ∘ atom_features <$> gs).

(** ** Edge indices of the merged graph *)

(** The number of edges of the graphs before the [i]-th. *)
Definition edge_offset (gs : list Graph) (i : nat) : nat :=
  sum_list (length ∘ pair_indices <$> take i gs).

(** ** Merging a merged batch again *)

(** A merged graph taken as one graph of a new batch. *)
Definition as_graph (m : GlobalGraph) : Graph :=
  {| atom_features := g_atom_features m;
     bond_features := g_bond_features m;
     pair_indices := g_pair_indices m |}.

(** The claim on merging in two rounds as it is worded, the second round
    being the one merge the code has: merging [A; B], then the result with
    [C], gives the edge indices and the membership array of merging
    [A; B; C] at once. *)
Definition append_claim {Y : Type} (A B C : Graph) (y_batch : Y) : Prop :=
  ∃ merged_ab again direct,
    prepare_batch [A; B] y_batch = Some (merged_ab, y_batch)
    ∧ prepare_batch [as_graph merged_ab; C] y_batch = Some (again, y_batch)
    ∧ prepare_batch [A; B; C] y_batch = Some (direct, y_batch)
    ∧ g_pair_indices again = g_pair_indices direct
    ∧ g_atom_partition_indices again = g_atom_partition_indices direct.

(** ** The order of the sources after the merge *)

(** The edges of the graphs [gs] that come after the graphs [pre]. *)
Definition merged_from (pre gs : list Graph) : list (Z * Z) :=
  concat (imap (λ i g, (λ p, add_pair p
                               (node_offset (pre ++ gs) (length pre + i)))
                         <$> pair_indices g) gs).

Section messages.
Context {R : Type} (Rzero : R) (Radd Rmul : R → R → R).

(** The message an edge carries: its matrix times the state of its
    target. *)
Definition message (self : EdgeNetwork) (x : list (list R))
    (e : (Z * Z) * list R) : list R :=
  matvec Rzero Radd Rmul (edge_matrix Rzero Radd Rmul self e.2)
         (x !!! Z.to_nat e.1.2).
End messages.

(** ** Relabelling the nodes of a graph *)

(** [p] is a permutation of the node indices [0 .. n - 1]. *)
Definition permutation_of (n : Z) (p : Z → Z) : Prop :=
  (∀ i, 0 ≤ i < n → 0 ≤ p i < n)
  ∧ (∀ i j, 0 ≤ i < n → 0 ≤ j < n → p i = p j → i = j)
  ∧ (∀ j, 0 ≤ j < n → ∃ i, 0 ≤ i < n ∧ p i = j).

(** The edge [(src, dst)] rewritten to [(p src, p dst)]. *)
Definition relabel (p : Z → Z) (e : Z * Z) : Z * Z := (p e.1, p e.2).

(** The rows of [x] reordered by [p]: row [i] of [x] is row [p i] of [x']. *)
Definition rows_permuted {A : Type} (p : Z → Z) (x x' : list A) : Prop :=
  length x' = length x
  ∧ ∀ i, 0 ≤ i < Z.of_nat (length x) →
         x' !! Z.to_nat (p i) = x !! Z.to_nat i.

(** The edges of a graph with their features, in the order of the edge
    list, and those of them that leave the node [t]. *)
Definition edges_of {A : Type} (pair_indices : list (Z * Z))
    (bond_features : list A) : list ((Z * Z) * A) :=
  zip pair_indices bond_features.

Definition edges_from {A : Type} (t : Z) (es : list ((Z * Z) * A))
    : list ((Z * Z) * A) :=
  filter (λ e, e.1.1 = t) es.

(** A graph of [n] nodes the network accepts: a row of features per edge,
    both ends of every edge among the nodes, the sources in non-decreasing
    order, and every node the source of an edge (its self-loop). *)
Definition graph_accepted {A : Type} (n : nat) (pair_indices : list (Z * Z))
    (bond_features : list A) : Prop :=
  length bond_features = length pair_indices
  ∧ Forall (pair_in_range 0 (Z.of_nat n)) pair_indices
  ∧ non_decreasing pair_indices.*1
  ∧ ∀ i, 0 ≤ i < Z.of_nat n → i ∈ pair_indices.*1.

(** ** Relabelled graphs *)

(** An edge with its features, its two ends rewritten by [p]. *)
Definition relabel_edge {A : Type} (p : Z → Z) (e : (Z * Z) * A) : (Z * Z) * A :=
  (relabel p e.1, e.2).

(** [(pair_indices', bond_features')] holds the edges of
    [(pair_indices, bond_features)] rewritten by [p], put in an order in
    which the sources do not decrease and the edges with the same source
    keep their order. *)
Definition relabelled_graph {A : Type} (p : Z → Z)
    (pair_indices : list (Z * Z)) (bond_features : list A)
    (pair_indices' : list (Z * Z)) (bond_features' : list A) : Prop :=
  length bond_features' = length pair_indices'
  ∧ non_decreasing pair_indices'.*1
  ∧ ∀ t, edges_from t (edges_of pair_indices' bond_features')
         = edges_from t (edges_of (relabel p <$> pair_indices) bond_features).

(** ** Layers after [build] *)

Definition rows_of_width {A : Type} (w : nat) (rows : list (list A)) : Prop :=
  Forall (λ row, length row = w) rows.

(** [EdgeNetwork.build]: a kernel of shape [(bond_dim, atom_dim * atom_dim)]
    and a bias of [atom_dim * atom_dim] entries. *)
Definition EdgeNetwork_built {R : Type} (self : EdgeNetwork (R := R)) : Prop :=
  length (kernel self) = bond_dim self
  ∧ rows_of_width (atom_dim self * atom_dim self) (kernel self)
  ∧ length (bias self) = (atom_dim self * atom_dim self)%nat.

(** [MessagePassing.build] on atom features of [mp_atom_dim] entries: the
    message step is built for the padded atom features, of
    [atom_dim + pad_length] entries, and the cell has as many units, so
    that it returns states of that width. *)
Definition MessagePassing_built {R : Type} (self : MessagePassing (R := R))
    : Prop :=
  let d := (mp_atom_dim self + pad_length self)%nat in
  atom_dim (message_step self) = d
  ∧ EdgeNetwork_built (message_step self)
  ∧ ∀ input state, length input = d → length state = d →
                   length (update_step self input state) = d.

(** The layer is built for the widths of the features of the graph. *)
Definition widths_fit {R : Type} (self : MessagePassing (R := R))
    (atom_features bond_features : list (list R)) : Prop :=
  MessagePassing_built self
  ∧ rows_of_width (mp_atom_dim self) atom_features
  ∧ rows_of_width (bond_dim (message_step self)) bond_features.

(** ** The claims on message passing as they are worded *)


(** Message passing on the graph with the rows of the node features
    reordered by [p] and every edge rewritten by [p], the edge list left in
    its order, returns the node states of the original run reordered by
    [p]. *)
Definition equivariance_claim {R : Type} (Rzero : R) (Radd Rmul : R → R → R)
    (self : MessagePassing) (p : Z → Z)
    (atom_features atom_features' bond_features : list (list R))
    (pair_indices : list (Z * Z)) : Prop :=
  ∃ states states',
    MessagePassing_call Rzero Radd Rmul self atom_features bond_features
                        pair_indices = Some states
    ∧ MessagePassing_call Rzero Radd Rmul self atom_features' bond_features
                          (relabel p <$> pair_indices) = Some states'
    ∧ rows_permuted p states states'.

(** ** Sample networks and graphs *)

Definition sample_network : EdgeNetwork :=
  {| atom_dim := 1; bond_dim := 1; kernel := [[1%Q]]; bias := [0%Q] |}.

Definition sample_layer : MessagePassing :=
  {| units := 1; steps := 2; mp_atom_dim := 1;
     message_step := sample_network;
     update_step := λ input state, zip_with Qplus input state |}.

(** Exchanging the two nodes of a graph of two nodes. *)
Definition swap (i : Z) : Z := 1 - i.

(** Two nodes joined by a bond, with their self-loops. *)
Definition pair_graph : Graph :=
  {| atom_features := [[1%Q; 0%Q]; [0%Q; 1%Q]];
     bond_features := [[0%Q; 1%Q]; [1%Q; 0%Q]; [0%Q; 1%Q]; [1%Q; 0%Q]];
     pair_indices := [(0, 0); (0, 1); (1, 1); (1, 0)] |}.

(** A single node with its self-loop. *)
Definition single_graph : Graph :=
  {| atom_features := [[1%Q; 1%Q]];
     bond_features := [[0%Q; 1%Q]];
     pair_indices := [(0, 0)] |}.

(** * The rest of the notebook *)

(** ** Graphs of a list of SMILES *)

(** The ragged tensors [graphs_from_smiles] returns: for every molecule its
    atom features, its bond features and its index pairs. *)
Record RaggedGraphs : Type := {
  rg_atom_features : list (list (list Q));
  rg_bond_features : list (list (list Q));
  rg_pair_indices : list (list (Z * Z))
}.

(** [tf.ragged.constant(pylist)] on a list of matrices keeps the rows.  The
    tensor it returns has two ragged dimensions when the lists are nested
    three deep, that is when some matrix has a row ([ragged_rank2]); for an
    empty list it is a dense tensor, and for a list of matrices without
    rows a ragged tensor with one ragged dimension only. *)
Definition tf_ragged_constant {A : Type} (pylist : list (list A))
    : list (list A) := pylist.

Definition ragged_rank2 {A : Type} (t : list (list A)) : Prop :=
  Exists (λ rows, length rows ≠ 0%nat) t.

Global Instance ragged_rank2_dec {A : Type} (t : list (list A)) :
  Decision (ragged_rank2 t).
Proof. unfold ragged_rank2. apply _. Defined.

Section graphs_from_smiles.
(** [molecule_from_smiles]: the toolkit parses and sanitizes the SMILES;
    [None] when it has no molecule for the string and the call raises. *)
Context (molecule_from_smiles : string → option Mol).

(** The body of the loop of [graphs_from_smiles]. *)
Definition smiles_step (lists : RaggedGraphs) (smiles : string)
    : option RaggedGraphs :=
  molecule ← molecule_from_smiles smiles;
  g ← graph_from_molecule molecule;
  Some {| rg_atom_features := rg_atom_features lists ++ [atom_features g];
          rg_bond_features := rg_bond_features lists ++ [bond_features g];
          rg_pair_indices := rg_pair_indices lists ++ [pair_indices g] |}.

Definition graphs_from_smiles (smiles_list : list string)
    : option RaggedGraphs :=
  lists ← for_each smiles_step
                   {| rg_atom_features := []; rg_bond_features := [];
                      rg_pair_indices := [] |}
                   smiles_list;
  Some {| rg_atom_features := tf_ragged_constant (rg_atom_features lists);
          rg_bond_features := tf_ragged_constant (rg_bond_features lists);
          rg_pair_indices := tf_ragged_constant (rg_pair_indices lists) |}.
End graphs_from_smiles.

(** ** The three sets of the data *)

(** [l[a:b]] for indices that are not negative. *)
Definition py_slice {A : Type} (a b : nat) (l : list A) : list A :=
  take (b - a) (drop a l).

(** The train, validation and test indices cut out of [permuted_indices]:
    [[: cut1]], [[cut1 : cut2]] and [[cut2 :]].  The notebook's cuts are
    [int(n * 0.8)] and [int(n * 0.99)]. *)
Definition split_indices {A : Type} (cut1 cut2 : nat) (permuted_indices : list A)
    : list A * list A * list A :=
  (take cut1 permuted_indices,
   py_slice cut1 cut2 permuted_indices,
   drop cut2 permuted_indices).

(** ** The dataset of merged batches *)

(** The elements of the ragged tensors along their first axis. *)
Definition ragged_rows (X : RaggedGraphs) : list Graph :=
  zip_with (λ ab p, {| atom_features := ab.1; bond_features := ab.2;
                       pair_indices := p |})
           (zip (rg_atom_features X) (rg_bond_features X))
           (rg_pair_indices X).

(** [tf.data.Dataset.from_tensor_slices((X, y))]: the components are cut
    along their first axis, which must have one size. *)
Definition from_tensor_slices {Y : Type} (X : RaggedGraphs) (y : list Y)
    : option (list (Graph * Y)) :=
  if decide (length (rg_atom_features X) = length y
             ∧ length (rg_bond_features X) = length y
             ∧ length (rg_pair_indices X) = length y)
  then Some (zip (ragged_rows X) y)
  else None.

(** [dataset.batch(batch_size)]: runs of [batch_size] elements, the last
    run with what is left. *)
Fixpoint batch_fuel {A : Type} (fuel batch_size : nat) (l : list A)
    : list (list A) :=
  match fuel, l with
  | S fuel', _ :: _ =>
      take batch_size l :: batch_fuel fuel' batch_size (drop batch_size l)
  | _, _ => []
  end.

Definition dataset_batch {A : Type} (batch_size : nat) (l : list A)
    : option (list (list A)) :=
  if decide (batch_size = 0)%nat then None
  else Some (batch_fuel (length l) batch_size l).

Section MPNNDataset.
Context {Y : Type}.
(** [dataset.shuffle(1024)]: some reordering of the elements. *)
Context (dataset_shuffle : list (Graph * Y) → list (Graph * Y)).

(** [MPNNDataset].  [dataset.map(prepare_batch, -1)] traces [prepare_batch]
    on the elements of the dataset: when one of the three tensors has not
    two ragged dimensions, [row_lengths] or [to_tensor] is missing and the
    call raises. *)
Definition MPNNDataset (X : RaggedGraphs) (y : list Y) (batch_size : nat)
    (shuffle : bool) : option (list (GlobalGraph * list Y)) :=
  dataset ← from_tensor_slices X y;
  let dataset := if shuffle then dataset_shuffle dataset else dataset in
  batches ← dataset_batch batch_size dataset;
  if decide (ragged_rank2 (rg_atom_features X)
             ∧ ragged_rank2 (rg_bond_features X)
             ∧ ragged_rank2 (rg_pair_indices X))
  then mapM (λ b, prepare_batch b.*1 b.*2) batches
  else None.
End MPNNDataset.

(** ** Readout: partition and pad *)

Section partition_padding.
(** The scalars of the node states, with the test [x != 0]. *)
Context {R : Type} (Rzero : R) (Radd : R → R → R) (Rnonzero : R → bool).

(** [tf.dynamic_partition(data, partitions, num_partitions)]: the rows of
    [data] with partition index [i], in their order, for every [i] below
    [num_partitions]; an index that is not below it raises. *)
Definition dynamic_partition (data : list (list R)) (partitions : list nat)
    (num_partitions : nat) : option (list (list (list R))) :=
  if decide (length data = length partitions
             ∧ Forall (λ i, i < num_partitions)%nat partitions
             ∧ num_partitions ≠ 0%nat)
  then Some ((λ i, (filter (λ x, x.2 = i) (zip data partitions)).*1)
               <$> seq 0 num_partitions)
  else None.

(** [tf.pad(f, [(0, k), (0, 0)])] for rows of width [d]. *)
Definition pad_rows (d k : nat) (f : list (list R)) : list (list R) :=
  f ++ replicate k (replicate d Rzero).

(** [tf.reduce_sum(x, (1, 2))] for one element of the batch. *)
Definition reduce_sum (m : list (list R)) : R :=
  foldl Radd Rzero (concat m).

(** [PartitionPadding.call] on node states of width [d]. *)
Definition PartitionPadding_call (batch_size d : nat)
    (atom_features : list (list R)) (atom_partition_indices : list nat)
    : option (list (list (list R))) :=
  atom_features ←
    dynamic_partition atom_features atom_partition_indices batch_size;
  let num_atoms := length <$> atom_features in
  let max_num_atoms := max_list num_atoms in
  let atom_features_padded :=
    zip_with (λ f n, pad_rows d (max_num_atoms - n) f)
             atom_features num_atoms in
  let nonempty_examples :=
    filter (λ i, Rnonzero (reduce_sum (atom_features_padded !!! i)) = true)
           (seq 0 (length atom_features_padded)) in
  mapM (λ i, atom_features_padded !! i) nonempty_examples.
End partition_padding.

(** ** The model up to the readout *)

Section MPNNModel.
Context (Rzero : Q) (Radd Rmul : Q → Q → Q) (Rnonzero : Q → bool).

(** The first two layers of [MPNNModel]: message passing, then partition
    and padding.  The node states have the width of the cell,
    [atom_dim + pad_length]. *)
Definition MPNNModel_readout (self : MessagePassing (R := Q))
    (batch_size : nat) (inputs : GlobalGraph)
    : option (list (list (list Q))) :=
  x ← MessagePassing_call Rzero Radd Rmul self (g_atom_features inputs)
         (g_bond_features inputs) (g_pair_indices inputs);
  PartitionPadding_call Rzero Radd Rnonzero batch_size
    (mp_atom_dim self + pad_length self) x
    (g_atom_partition_indices inputs).
End MPNNModel.

(** * Further notions of the statements and proofs *)

(** ** The slots that are set *)

(** The number of entries of a vector that are 1. *)
Definition count_ones (output : list Q) : nat :=
  length (filter (λ q, Qeq_bool q 1 = true) output).

Section in_vocabulary.
Context {Item : Type} (getattr : string → option (Item → value)).

(** The value of [x] in the category is one of the allowed values. *)
Definition in_vocabulary (x : Item) (ks : string * gset value) : Prop :=
  match getattr ks.1 with
  | Some extractor => extractor x ∈ ks.2
  | None => False
  end.

Global Instance in_vocabulary_dec x ks : Decision (in_vocabulary x ks).
Proof. unfold in_vocabulary. destruct (getattr ks.1); apply _. Defined.
End in_vocabulary.

(** ** Edges with their features *)

(** The edges [graph_from_molecule] emits at the atom [idx], each with its
    features. *)
Definition atom_edges (molecule : Mol) (idx : nat) : list ((Z * Z) * list Q) :=
  ((Z.of_nat idx, Z.of_nat idx), bond_row None)
    :: ((λ neighbor,
           ((Z.of_nat idx, Z.of_nat neighbor),
            bond_row (GetBondBetweenAtoms molecule idx neighbor)))
          <$> GetNeighbors molecule idx).

(** ** Message passing on a graph the network accepts *)

(** An edge with its features, both ends moved by [n]. *)
Definition shift_edge {A : Type} (n : Z) (e : (Z * Z) * A) : (Z * Z) * A :=
  (add_pair e.1 n, e.2).

Section message_passing_functions.
Context {R : Type} (Rzero : R) (Radd Rmul : R → R → R).

(** The rows of the aggregation for the nodes below [n]. *)
Definition aggregated_rows (net : EdgeNetwork) (x bf : list (list R))
    (pairs : list (Z * Z)) (n : nat) : list (list R) :=
  (λ i, vsum Rzero Radd (atom_dim net)
          (message Rzero Radd Rmul net x
             <$> edges_from (Z.of_nat i) (edges_of pairs bf)))
    <$> seq 0 n.

(** One round of message passing on a graph the network accepts. *)
Definition mp_round (self : MessagePassing) (bf : list (list R))
    (pairs : list (Z * Z)) (x : list (list R)) : list (list R) :=
  zip_with (update_step self)
           (aggregated_rows (message_step self) x bf pairs (length x)) x.

(** The node states after all the rounds. *)
Definition final_states (self : MessagePassing) (x bf : list (list R))
    (pairs : list (Z * Z)) : list (list R) :=
  Nat.iter (steps self) (mp_round self bf pairs)
           (pad_columns Rzero (pad_length self) x).
End message_passing_functions.

(** The network accepts the graph. *)
Definition graph_ok (g : Graph) : Prop :=
  graph_accepted (length (atom_features g)) (pair_indices g) (bond_features g).

(** The rows of the graphs of the batch have one width. *)
Definition uniform_widths (gs : list Graph) : Prop :=
  (∃ w, Forall (λ g, Forall (λ row, length row = w) (atom_features g)) gs)
  ∧ (∃ w, Forall (λ g, Forall (λ row, length row = w) (bond_features g)) gs).

(** ** Partitions and batches *)

(** The partition indices of blocks of [lens] rows, the first block being
    the [k]-th. *)
Definition membership_from (k : nat) (lens : list nat) : list nat :=
  concat (imap (λ i n, replicate n (k + i)%nat) lens).

(** The ragged tensors of a list of graphs. *)
Definition ragged (gs : list Graph) : RaggedGraphs :=
  {| rg_atom_features := atom_features <$> gs;
     rg_bond_features := bond_features <$> gs;
     rg_pair_indices := pair_indices <$> gs |}.

(** The number of batches: [n / batch_size], rounded up. *)
Definition batch_count (n batch_size : nat) : nat :=
  ((n + batch_size - 1) / batch_size)%nat.

(** ** More sample data *)

(** A toolkit that knows two SMILES. *)
Definition sample_molecule_from_smiles (smiles : string) : option Mol :=
  if decide (smiles = "CCO"%string) then Some ethanol
  else if decide (smiles = "C"%string) then Some methane
  else None.

(** [x != 0] on rationals. *)
Definition Qnonzero (q : Q) : bool := negb (Qeq_bool q 0).

(** Graphs with one feature per atom and per bond. *)
Definition unit_pair_graph : Graph :=
  {| atom_features := [[1%Q]; [2%Q]];
     bond_features := [[1%Q]; [2%Q]; [1%Q]; [2%Q]];
     pair_indices := [(0, 0); (0, 1); (1, 1); (1, 0)] |}.

Definition unit_single_graph : Graph :=
  {| atom_features := [[3%Q]];
     bond_features := [[1%Q]];
     pair_indices := [(0, 0)] |}.

(** A layer for the graphs of molecules: 29 atom features padded to 64
    units, 7 bond features, 4 steps. *)
Definition molecule_layer : MessagePassing :=
  {| units := 64; steps := 4; mp_atom_dim := 29;
     message_step :=
       {| atom_dim := 64; bond_dim := 7;
          kernel := replicate 7 (replicate (64 * 64) 1%Q);
          bias := replicate (64 * 64) 0%Q |};
     update_step := λ input state, zip_with Qplus input state |}.

(** * Properties *)

(** ** Loops *)

Lemma for_each_app {S A : Type} (body : S → A → option S) s l1 l2 :
  for_each body s (l1 ++ l2) = s' ← for_each body s l1; for_each body s' l2.
Proof.
  revert s. induction l1 as [|x l1 IH]; intros s; simpl; [done|].
  destruct (body s x) as [s'|]; simpl; [apply IH | done].
Qed.

Lemma for_each_skip {S A : Type} (body : S → A → option S) s l1 x l2 :
  (∀ s', body s' x = Some s') →
  for_each body s (l1 ++ x :: l2) = for_each body s (l1 ++ l2).
Proof.
  intros Hx. rewrite !for_each_app.
  destruct (for_each body s l1) as [s'|]; simpl; [|done].
  by rewrite Hx.
Qed.

Lemma for_each_cons {S A : Type} (body : S → A → option S) s x l :
  for_each body s (x :: l) = s' ← body s x; for_each body s' l.
Proof. done. Qed.

(** ** The constructor of a featurizer *)

Lemma sorted_perm (s : gset value) : sorted s ≡ₚ elements s.
Proof. apply merge_sort_Permutation. Qed.

Lemma sorted_length (s : gset value) : length (sorted s) = size s.
Proof. by rewrite sorted_perm. Qed.

Lemma sorted_NoDup (s : gset value) : NoDup (sorted s).
Proof. rewrite sorted_perm. apply NoDup_elements. Qed.

Lemma elem_of_sorted (s : gset value) v : v ∈ sorted s ↔ v ∈ s.
Proof. rewrite sorted_perm. apply elem_of_elements. Qed.

Lemma range_seq a n : range a (n + a) = seq a n.
Proof. unfold range. f_equal. lia. Qed.

Lemma dict_zip_list_to_map keys vals :
  dict_zip keys vals = list_to_map (reverse (zip keys vals)).
Proof.
  unfold dict_zip. generalize (zip keys vals) as l. intros l.
  induction l as [|kv l IH] using rev_ind; [done|].
  rewrite foldl_app, reverse_app. simpl. by rewrite IH.
Qed.

Lemma dict_zip_lookup keys off v j :
  NoDup keys →
  dict_zip keys (seq off (length keys)) !! v = Some j
  ↔ ∃ i, keys !! i = Some v ∧ j = (off + i)%nat.
Proof.
  intros Hnd. rewrite dict_zip_list_to_map.
  rewrite <-elem_of_list_to_map.
  2:{ rewrite fmap_reverse, fst_zip by (rewrite length_seq; lia).
      by rewrite reverse_Permutation. }
  rewrite elem_of_reverse, list_elem_of_lookup. split.
  - intros (i & Hi). apply lookup_zip_with_Some in Hi as (a & b & Heq & Ha & Hb).
    injection Heq as -> ->. apply lookup_seq in Hb as [-> _]. eauto.
  - intros (i & Hi & ->). exists i. apply lookup_zip_with_Some.
    exists v, (off + i)%nat. split; [done|]. split; [done|].
    apply lookup_seq. split; [done|]. by eapply lookup_lt_Some.
Qed.

Lemma dict_zip_lookup_None keys off v :
  NoDup keys → v ∉ keys → dict_zip keys (seq off (length keys)) !! v = None.
Proof.
  intros Hnd Hv. apply eq_None_not_Some. intros [j Hj].
  apply dict_zip_lookup in Hj as (i & Hi & _); [|done].
  apply Hv. by eapply list_elem_of_lookup_2.
Qed.

Lemma mk_mapping_cons off ks rest :
  mk_mapping off (ks :: rest)
  = (ks.1, dict_zip (sorted ks.2) (seq off (size ks.2)))
      :: mk_mapping (off + size ks.2) rest.
Proof. done. Qed.

Lemma total_dim_cons ks rest :
  total_dim (ks :: rest) = (size ks.2 + total_dim rest)%nat.
Proof. done. Qed.

Lemma np_zeros_add a b : np_zeros (a + b) = np_zeros a ++ np_zeros b.
Proof. apply replicate_add. Qed.

Lemma Featurizer_init_fold self sets :
  foldl Featurizer_init_step self sets
  = {| dim := dim self + total_dim sets;
       features_mapping := features_mapping self ++ mk_mapping (dim self) sets |}.
Proof.
  revert self. induction sets as [|ks rest IH]; intros self; simpl.
  - destruct self; simpl. unfold total_dim; simpl.
    by rewrite Nat.add_0_r, app_nil_r.
  - rewrite IH. simpl. unfold total_dim; simpl.
    rewrite range_seq, sorted_length, <-app_assoc, Nat.add_assoc. done.
Qed.

Lemma Featurizer_init_spec sets :
  Featurizer_init sets
  = {| dim := total_dim sets; features_mapping := mk_mapping 0 sets |}.
Proof. unfold Featurizer_init. by rewrite Featurizer_init_fold. Qed.

Lemma one_hot_length l v : length (one_hot l v) = length l.
Proof. unfold one_hot. by rewrite length_fmap. Qed.

Lemma one_hot_cons u l v :
  one_hot (u :: l) v = (if decide (u = v) then 1%Q else 0%Q) :: one_hot l v.
Proof. done. Qed.

Lemma one_hot_absent l v : v ∉ l → one_hot l v = np_zeros (length l).
Proof.
  induction l as [|u l IH]; intros Hv; [done|].
  apply not_elem_of_cons in Hv as [Hne Hv].
  rewrite one_hot_cons, decide_False, IH by done. done.
Qed.

Lemma one_hot_present l i v :
  NoDup l → l !! i = Some v → one_hot l v = <[i := 1%Q]> (np_zeros (length l)).
Proof.
  intros Hnd. revert i.
  induction Hnd as [|u l Hu Hnd IH]; intros i Hi; [done|].
  rewrite one_hot_cons. destruct i as [|i]; simpl in Hi.
  - injection Hi as ->. rewrite decide_True, one_hot_absent by done. done.
  - rewrite decide_False, (IH i) by (done || intros ->; apply Hu;
      by eapply list_elem_of_lookup_2). done.
Qed.

Lemma one_hot_lookup l v i u :
  l !! i = Some u → one_hot l v !! i = Some (if decide (u = v) then 1%Q else 0%Q).
Proof. intros Hi. unfold one_hot. by rewrite list_lookup_fmap, Hi. Qed.

Section encode_facts.
Context {Item : Type} (getattr : string → option (Item → value)).

Lemma block_length x ks : is_Some (getattr ks.1) → length (block getattr x ks) = size ks.2.
Proof.
  intros [ext Hext]. unfold block. rewrite Hext.
  by rewrite one_hot_length, sorted_length.
Qed.

Lemma blocks_length x sets :
  class_ok getattr sets → length (concat (block getattr x <$> sets)) = total_dim sets.
Proof.
  unfold total_dim. induction 1 as [|ks rest Hks _ IH]; csimpl; [done|].
  by rewrite length_app, block_length, IH.
Qed.

Lemma encode_step_block x ks pre rest_out :
  is_Some (getattr ks.1) →
  encode_step getattr x (pre ++ np_zeros (size ks.2) ++ rest_out)
    (ks.1, dict_zip (sorted ks.2) (seq (length pre) (size ks.2)))
  = Some (pre ++ block getattr x ks ++ rest_out).
Proof.
  intros [ext Hext]. unfold encode_step, block. rewrite Hext. simpl.
  rewrite <-(sorted_length ks.2).
  destruct (decide (ext x ∈ sorted ks.2)) as [Hin|Hnin].
  - apply list_elem_of_lookup_1 in Hin as [i Hi].
    assert (Hlt : (i < length (sorted ks.2))%nat) by by eapply lookup_lt_Some.
    assert (Hl : dict_zip (sorted ks.2) (seq (length pre) (length (sorted ks.2)))
                   !! ext x = Some (length pre + i)%nat).
    { apply dict_zip_lookup; [apply sorted_NoDup|]. eauto. }
    rewrite Hl. unfold setitem. rewrite decide_True.
    2:{ rewrite !length_app. unfold np_zeros. rewrite length_replicate. lia. }
    rewrite insert_app_r, insert_app_l
      by (unfold np_zeros; rewrite length_replicate; lia).
    by rewrite <-(one_hot_present _ _ _ (sorted_NoDup _) Hi).
  - rewrite dict_zip_lookup_None by (done || apply sorted_NoDup).
    by rewrite one_hot_absent.
Qed.

Lemma encode_loop_blocks x sets pre post :
  class_ok getattr sets →
  for_each (encode_step getattr x) (pre ++ np_zeros (total_dim sets) ++ post)
           (mk_mapping (length pre) sets)
  = Some (pre ++ concat (block getattr x <$> sets) ++ post).
Proof.
  intros Hok. revert pre. induction Hok as [|ks rest Hks _ IH]; intros pre.
  - done.
  - rewrite mk_mapping_cons, for_each_cons, total_dim_cons, np_zeros_add.
    rewrite <-(app_assoc (np_zeros _)).
    rewrite (encode_step_block x ks pre _ Hks). csimpl.
    rewrite (app_assoc pre (block getattr x ks)).
    specialize (IH (pre ++ block getattr x ks)).
    rewrite length_app, block_length in IH by done.
    rewrite IH. by rewrite <-!app_assoc.
Qed.

Lemma encode_init sets x :
  class_ok getattr sets →
  encode getattr (Featurizer_init sets) x = Some (concat (block getattr x <$> sets)).
Proof.
  intros Hok. unfold encode. rewrite Featurizer_init_spec. simpl.
  pose proof (encode_loop_blocks x sets [] [] Hok) as H. simpl in H.
  by rewrite !app_nil_r in H.
Qed.
End encode_facts.

(** ** The slots of a category *)

Lemma slot_start_0 sets : slot_start sets 0 = 0%nat.
Proof. unfold slot_start. by rewrite take_0. Qed.

Lemma slot_start_S ks rest c :
  slot_start (ks :: rest) (S c) = (size ks.2 + slot_start rest c)%nat.
Proof. done. Qed.

Lemma mk_mapping_lookup sets : ∀ off c name m,
  mk_mapping off sets !! c = Some (name, m)
  ↔ ∃ s, sets !! c = Some (name, s)
         ∧ m = dict_zip (sorted s) (seq (off + slot_start sets c) (size s)).
Proof.
  induction sets as [|[k s0] rest IH]; intros off c name m.
  - simpl. split; [done|]. by intros (s & ? & _).
  - rewrite mk_mapping_cons. destruct c as [|c]; simpl.
    + rewrite slot_start_0, Nat.add_0_r. split.
      * intros [= <- <-]. eauto.
      * by intros (s & [= <- <-] & ->).
    + rewrite IH. rewrite slot_start_S. simpl.
      by setoid_rewrite Nat.add_assoc.
Qed.

Lemma features_mapping_lookup sets c name m :
  features_mapping (Featurizer_init sets) !! c = Some (name, m)
  ↔ ∃ s, sets !! c = Some (name, s)
         ∧ m = dict_zip (sorted s) (seq (slot_start sets c) (size s)).
Proof. rewrite Featurizer_init_spec. simpl. by rewrite mk_mapping_lookup. Qed.

(** The slots of a category are those from its first slot on, one per
    allowed value, in sorted order. *)
Lemma category_slot sets c (s : gset value) v j :
  dict_zip (sorted s) (seq (slot_start sets c) (size s)) !! v = Some j
  ↔ ∃ i, sorted s !! i = Some v ∧ j = (slot_start sets c + i)%nat.
Proof.
  rewrite <-(sorted_length s). apply dict_zip_lookup, sorted_NoDup.
Qed.

Lemma slot_start_lt sets : ∀ c c' ks,
  (c < c')%nat → sets !! c = Some ks →
  (slot_start sets c + size ks.2 ≤ slot_start sets c')%nat.
Proof.
  induction sets as [|ks0 rest IH]; intros c c' ks Hlt Hc; [done|].
  destruct c' as [|c']; [lia|]. rewrite slot_start_S.
  destruct c as [|c]; simpl in Hc.
  - injection Hc as ->. rewrite slot_start_0. lia.
  - rewrite slot_start_S. specialize (IH c c' ks ltac:(lia) Hc). lia.
Qed.

Lemma slot_start_inj sets c c' ks ks' i i' :
  sets !! c = Some ks → sets !! c' = Some ks' →
  (i < size ks.2)%nat → (i' < size ks'.2)%nat →
  (slot_start sets c + i = slot_start sets c' + i')%nat →
  c = c' ∧ i = i'.
Proof.
  intros Hc Hc' Hi Hi' Heq.
  destruct (Nat.lt_trichotomy c c') as [Hlt|[->|Hlt]].
  - pose proof (slot_start_lt sets c c' ks Hlt Hc). lia.
  - split; [done|]. lia.
  - pose proof (slot_start_lt sets c' c ks' Hlt Hc'). lia.
Qed.

Lemma slot_cover sets : ∀ j,
  (j < total_dim sets)%nat →
  ∃ c ks i, sets !! c = Some ks ∧ (i < size ks.2)%nat
            ∧ j = (slot_start sets c + i)%nat.
Proof.
  induction sets as [|ks0 rest IH]; intros j Hj.
  - unfold total_dim in Hj. simpl in Hj. lia.
  - rewrite total_dim_cons in Hj.
    destruct (decide (j < size ks0.2)%nat) as [Hlt|Hge].
    + exists 0%nat, ks0, j. by rewrite slot_start_0.
    + destruct (IH (j - size ks0.2)%nat) as (c & ks & i & Hc & Hi & Heq); [lia|].
      exists (S c), ks, i. rewrite slot_start_S. split; [done|]. split; [done|].
      lia.
Qed.

Section encode_slots.
Context {Item : Type} (getattr : string → option (Item → value)).

Lemma class_ok_take sets c : class_ok getattr sets → class_ok getattr (take c sets).
Proof. apply Forall_take. Qed.

Lemma blocks_lookup x sets c ks i :
  class_ok getattr sets → sets !! c = Some ks → (i < size ks.2)%nat →
  concat (block getattr x <$> sets) !! (slot_start sets c + i)%nat
  = block getattr x ks !! i.
Proof.
  intros Hok Hc Hi.
  assert (Hks : is_Some (getattr ks.1)).
  { eapply (Forall_lookup_1 _ _ _ _ Hok Hc). }
  assert (Hsplit : block getattr x <$> sets
            = (block getattr x <$> take c sets)
                ++ block getattr x ks :: (block getattr x <$> drop (S c) sets)).
  { by rewrite <-fmap_cons, <-fmap_app, take_drop_middle. }
  rewrite Hsplit, concat_app, concat_cons.
  assert (Hlen : length (concat (block getattr x <$> take c sets))
                 = slot_start sets c).
  { by rewrite blocks_length by by apply class_ok_take. }
  rewrite lookup_app_r by lia. rewrite Hlen.
  replace (slot_start sets c + i - slot_start sets c)%nat with i by lia.
  apply lookup_app_l. by rewrite block_length.
Qed.

Lemma block_lookup x ks extractor i u :
  getattr ks.1 = Some extractor → sorted ks.2 !! i = Some u →
  block getattr x ks !! i
  = Some (if decide (u = extractor x) then 1%Q else 0%Q).
Proof. intros Hext Hi. unfold block. rewrite Hext. by apply one_hot_lookup. Qed.
End encode_slots.

Section encode_claims.
Context {Item : Type} (getattr : string → option (Item → value)).

(** C6.  A category whose extracted value is not in its allowable set is
    skipped: [encode] returns its vector, no error is raised, every slot
    of that category is 0 in it, and the vector is the one the loop
    yields when the category is left out altogether, so no other slot is
    touched by it. *)
Theorem encode_out_of_vocabulary
    (sets : list (string * gset value)) (inputs : Item)
    (c : nat) (name : string) (s : gset value) (extractor : Item → value) :
  class_ok getattr sets →
  sets !! c = Some (name, s) →
  getattr name = Some extractor →
  extractor inputs ∉ s →
  ∃ output feature_mapping,
    encode getattr (Featurizer_init sets) inputs = Some output
    ∧ features_mapping (Featurizer_init sets) !! c = Some (name, feature_mapping)
    ∧ (∀ v, v ∈ s ↔ is_Some (feature_mapping !! v))
    ∧ (∀ v slot, feature_mapping !! v = Some slot → output !! slot = Some 0%Q)
    ∧ for_each (encode_step getattr inputs)
               (np_zeros (dim (Featurizer_init sets)))
               (delete c (features_mapping (Featurizer_init sets)))
      = Some output.
Proof.
  intros Hok Hc Hext Hout.
  set (m := dict_zip (sorted s) (seq (slot_start sets c) (size s))).
  assert (Hm : features_mapping (Featurizer_init sets) !! c = Some (name, m)).
  { apply features_mapping_lookup. eauto. }
  exists (concat (block getattr inputs <$> sets)), m.
  split; [by apply encode_init|]. split; [done|]. split; [|split].
  - intros v. rewrite <-elem_of_sorted. split.
    + intros Hv. apply list_elem_of_lookup_1 in Hv as [i Hi].
      eexists. apply category_slot. eauto.
    + intros [j Hj]. apply category_slot in Hj as (i & Hi & _).
      by eapply list_elem_of_lookup_2.
  - intros v slot Hv. apply category_slot in Hv as (i & Hi & ->).
    rewrite (blocks_lookup getattr inputs sets c (name, s)); [|done..|].
    2:{ simpl. rewrite <-sorted_length. by eapply lookup_lt_Some. }
    rewrite (block_lookup getattr inputs (name, s) extractor i v) by done.
    rewrite decide_False; [done|]. intros ->. apply Hout.
    apply elem_of_sorted. by eapply list_elem_of_lookup_2.
  - rewrite <-(encode_init getattr sets inputs Hok). unfold encode.
    assert (Hskip : ∀ out, encode_step getattr inputs out (name, m) = Some out).
    { intros out. unfold encode_step. rewrite Hext. simpl.
      replace (m !! extractor inputs) with (@None nat); [done|].
      symmetry. apply eq_None_not_Some. intros [j Hj].
      apply category_slot in Hj as (i & Hi & _). apply Hout.
      apply elem_of_sorted. by eapply list_elem_of_lookup_2. }
    rewrite <-(take_drop_middle _ c _ Hm) at 2.
    rewrite (for_each_skip _ _ _ _ _ Hskip).
    rewrite <-(take_drop_middle _ c _ Hm) at 1.
    rewrite <-(length_take_le (features_mapping (Featurizer_init sets)) c) at 1.
    + by rewrite delete_middle.
    + apply Nat.lt_le_incl. by eapply lookup_lt_Some.
Qed.

(** C7.  When every category's extracted value is in its allowable set,
    [encode] returns a vector with one slot per allowed value; in every
    category exactly one slot is 1 and the others are 0; every slot of the
    vector belongs to one category and one value only. *)
Theorem encode_in_vocabulary
    (sets : list (string * gset value)) (inputs : Item) :
  Forall (λ ks, ∃ extractor,
            getattr ks.1 = Some extractor ∧ extractor inputs ∈ ks.2) sets →
  ∃ output,
    encode getattr (Featurizer_init sets) inputs = Some output
    ∧ length output = sum_list (size ∘ snd <$> sets)
    ∧ (∀ c name feature_mapping,
         features_mapping (Featurizer_init sets) !! c
           = Some (name, feature_mapping) →
         ∃ v slot,
           feature_mapping !! v = Some slot
           ∧ output !! slot = Some 1%Q
           ∧ ∀ v' slot', feature_mapping !! v' = Some slot' →
                         slot' ≠ slot → output !! slot' = Some 0%Q)
    ∧ (∀ slot, (slot < length output)%nat →
         ∃ c name feature_mapping v,
           features_mapping (Featurizer_init sets) !! c
             = Some (name, feature_mapping)
           ∧ feature_mapping !! v = Some slot)
    ∧ (∀ c c' name name' feature_mapping feature_mapping' v v' slot,
         features_mapping (Featurizer_init sets) !! c
           = Some (name, feature_mapping) →
         features_mapping (Featurizer_init sets) !! c'
           = Some (name', feature_mapping') →
         feature_mapping !! v = Some slot →
         feature_mapping' !! v' = Some slot →
         c = c' ∧ v = v').
Proof.
  intros Hall.
  assert (Hok : class_ok getattr sets).
  { eapply Forall_impl; [exact Hall|]. intros ks (ext & Hext & _). eauto. }
  exists (concat (block getattr inputs <$> sets)).
  split; [by apply encode_init|].
  split; [by apply blocks_length|].
  split; [|split].
  - intros c name m Hm.
    apply features_mapping_lookup in Hm as (s & Hc & ->).
    destruct (Forall_lookup_1 _ _ _ _ Hall Hc) as (ext & Hext & Hin).
    simpl in Hext, Hin.
    apply elem_of_sorted, list_elem_of_lookup_1 in Hin as [i Hi].
    assert (Hlookup : ∀ i' u, sorted s !! i' = Some u →
              concat (block getattr inputs <$> sets) !! (slot_start sets c + i')%nat
              = Some (if decide (u = ext inputs) then 1%Q else 0%Q)).
    { intros i' u Hi'.
      rewrite (blocks_lookup getattr inputs sets c (name, s)); [|done..|].
      2:{ simpl. rewrite <-sorted_length. by eapply lookup_lt_Some. }
      by apply block_lookup. }
    exists (ext inputs), (slot_start sets c + i)%nat.
    split; [apply category_slot; eauto|]. split.
    + rewrite (Hlookup i _ Hi). by rewrite decide_True.
    + intros v' slot' Hv' Hne. apply category_slot in Hv' as (i' & Hi' & ->).
      rewrite (Hlookup i' _ Hi'). rewrite decide_False; [done|].
      intros ->. apply Hne. f_equal.
      by apply (NoDup_lookup _ _ _ _ (sorted_NoDup s) Hi' Hi).
  - intros slot Hslot. rewrite blocks_length in Hslot by done.
    apply slot_cover in Hslot as (c & [name s] & i & Hc & Hi & ->).
    simpl in Hi. rewrite <-sorted_length in Hi.
    apply lookup_lt_is_Some_2 in Hi as [v Hv].
    exists c, name, (dict_zip (sorted s) (seq (slot_start sets c) (size s))), v. split.
    + apply features_mapping_lookup. eauto.
    + apply category_slot. eauto.
  - intros c c' name name' m m' v v' slot Hm Hm' Hv Hv'.
    apply features_mapping_lookup in Hm as (s & Hc & ->).
    apply features_mapping_lookup in Hm' as (s' & Hc' & ->).
    apply category_slot in Hv as (i & Hi & ->).
    apply category_slot in Hv' as (i' & Hi' & Heq).
    pose proof (lookup_lt_Some _ _ _ Hi) as Hlt.
    pose proof (lookup_lt_Some _ _ _ Hi') as Hlt'.
    rewrite sorted_length in Hlt, Hlt'.
    destruct (slot_start_inj sets c c' (name, s) (name', s') i i'
                Hc Hc' Hlt Hlt' Heq) as [-> ->].
    split; [done|]. rewrite Hc in Hc'. injection Hc' as _ <-. congruence.
Qed.
End encode_claims.


(** ** The two featurizers of the notebook never raise *)

Lemma atom_class_ok : class_ok AtomFeaturizer_getattr atom_allowable_sets.
Proof. repeat constructor; vm_compute; eauto. Qed.

Lemma bond_class_ok : class_ok BondFeaturizer_getattr bond_allowable_sets.
Proof. repeat constructor; vm_compute; eauto. Qed.

Lemma length_np_zeros n : length (np_zeros n) = n.
Proof. apply length_replicate. Qed.

Lemma setitem_last l x y : setitem (l ++ [x]) (length l) y = Some (l ++ [y]).
Proof.
  unfold setitem. rewrite decide_True by (rewrite length_app; simpl; lia).
  f_equal. replace (length l) with (length l + 0)%nat at 1 by lia.
  by rewrite insert_app_r.
Qed.

Lemma AtomFeaturizer_encode_row atom :
  AtomFeaturizer_encode atom_featurizer atom = Some (atom_row atom).
Proof. apply encode_init, atom_class_ok. Qed.

Lemma BondFeaturizer_encode_row bond :
  BondFeaturizer_encode bond_featurizer bond = Some (bond_row bond).
Proof.
  unfold BondFeaturizer_encode, bond_featurizer, BondFeaturizer_init.
  rewrite Featurizer_init_spec. simpl dim. simpl features_mapping.
  destruct bond as [b|]; simpl bond_row.
  - unfold encode. simpl dim. simpl features_mapping.
    rewrite np_zeros_add.
    apply (encode_loop_blocks BondFeaturizer_getattr b bond_allowable_sets
             [] [0%Q] bond_class_ok).
  - rewrite decide_False by lia. rewrite np_zeros_add.
    replace (total_dim bond_allowable_sets + 1 - 1)%nat
      with (length (np_zeros (total_dim bond_allowable_sets)))
      by (rewrite length_np_zeros; lia).
    apply setitem_last.
Qed.

(** ** The graph of a molecule *)

Lemma neighbor_step_spec molecule idx g neighbor :
  neighbor_step molecule idx g neighbor
  = Some {| atom_features := atom_features g;
            pair_indices :=
              pair_indices g ++ [(Z.of_nat idx, Z.of_nat neighbor)];
            bond_features :=
              bond_features g
                ++ [bond_row (GetBondBetweenAtoms molecule idx neighbor)] |}.
Proof. unfold neighbor_step. by rewrite BondFeaturizer_encode_row. Qed.

Lemma neighbor_loop molecule idx neighbors : ∀ g,
  for_each (neighbor_step molecule idx) g neighbors
  = Some {| atom_features := atom_features g;
            bond_features :=
              bond_features g
                ++ ((λ neighbor,
                       bond_row (GetBondBetweenAtoms molecule idx neighbor))
                      <$> neighbors);
            pair_indices :=
              pair_indices g
                ++ ((λ neighbor, (Z.of_nat idx, Z.of_nat neighbor))
                      <$> neighbors) |}.
Proof.
  induction neighbors as [|nb rest IH]; intros g.
  - simpl. rewrite !app_nil_r. by destruct g.
  - rewrite for_each_cons, neighbor_step_spec. simpl. rewrite IH. simpl.
    by rewrite <-!app_assoc.
Qed.

Lemma atom_loop molecule ias : ∀ g,
  for_each (atom_step molecule) g ias
  = Some {| atom_features := atom_features g ++ (atom_row <$> ias.*2);
            bond_features :=
              bond_features g ++ concat (atom_bond_rows molecule <$> ias.*1);
            pair_indices :=
              pair_indices g ++ concat (atom_pairs molecule <$> ias.*1) |}.
Proof.
  induction ias as [|[idx atom] rest IH]; intros g.
  - simpl. rewrite !app_nil_r. by destruct g.
  - rewrite for_each_cons. 
    assert (Hstep : atom_step molecule g (idx, atom)
              = for_each (neighbor_step molecule idx)
                  {| atom_features := atom_features g ++ [atom_row atom];
                     pair_indices :=
                       pair_indices g ++ [(Z.of_nat idx, Z.of_nat idx)];
                     bond_features := bond_features g ++ [bond_row None] |}
                  (GetNeighbors molecule idx)).
    { unfold atom_step.
      by rewrite AtomFeaturizer_encode_row, BondFeaturizer_encode_row. }
    rewrite Hstep, neighbor_loop. simpl. rewrite IH. simpl.
    unfold atom_pairs at 2, atom_bond_rows at 2.
    by rewrite <-!app_assoc.
Qed.

Lemma graph_from_molecule_spec molecule :
  graph_from_molecule molecule = Some (molecule_graph molecule).
Proof.
  unfold graph_from_molecule. rewrite atom_loop. unfold GetAtoms, molecule_graph.
  simpl. f_equal. unfold GetNumAtoms.
  rewrite fst_zip, snd_zip by (rewrite length_seq; lia). done.
Qed.

(** ** Counting the edges *)

Lemma concat_fmap_cons_perm {A B : Type} (f : A → B) (g : A → list B) l :
  concat ((λ x, f x :: g x) <$> l) ≡ₚ (f <$> l) ++ concat (g <$> l).
Proof.
  induction l as [|x l IH]; csimpl; [done|].
  rewrite IH. f_equiv. rewrite !app_assoc. f_equiv. apply Permutation_app_comm.
Qed.

Lemma concat_fmap_app_perm {A B : Type} (f g : A → list B) l :
  concat ((λ x, f x ++ g x) <$> l) ≡ₚ concat (f <$> l) ++ concat (g <$> l).
Proof.
  induction l as [|x l IH]; csimpl; [done|].
  rewrite IH, <-!app_assoc. f_equiv.
  rewrite !app_assoc. f_equiv. apply Permutation_app_comm.
Qed.

Lemma directed_omap_cons idx b bs :
  directed idx (omap (other_end idx) (b :: bs))
  = bond_edge_at b idx ++ directed idx (omap (other_end idx) bs).
Proof.
  unfold bond_edge_at, directed. csimpl.
  by destruct (other_end idx b).
Qed.

Lemma bond_edges_upto b n :
  GetBeginAtomIdx b ≠ GetEndAtomIdx b →
  concat (bond_edge_at b <$> seq 0 n)
  ≡ₚ (if decide (GetBeginAtomIdx b < n)%nat then [forward b] else [])
       ++ (if decide (GetEndAtomIdx b < n)%nat then [backward b] else []).
Proof.
  intros Hne. induction n as [|n IH]; [done|].
  rewrite seq_S, fmap_app, concat_app, IH. csimpl.
  unfold bond_edge_at, other_end, forward, backward.
  repeat case_decide; simplify_eq; try lia; csimpl;
    rewrite ?app_nil_r; try done.
  apply perm_swap.
Qed.

Lemma bond_edges b n :
  bond_ok n b → concat (bond_edge_at b <$> seq 0 n) ≡ₚ [forward b; backward b].
Proof.
  intros (Hb & He & Hne). rewrite bond_edges_upto by done.
  by rewrite !decide_True by done.
Qed.

Lemma neighbor_edges bonds n :
  Forall (bond_ok n) bonds →
  concat ((λ idx, directed idx (omap (other_end idx) bonds)) <$> seq 0 n)
  ≡ₚ (forward <$> bonds) ++ (backward <$> bonds).
Proof.
  induction 1 as [|b bs Hb _ IH].
  - csimpl. induction (seq 0 n) as [|i l IHl]; csimpl; done.
  - rewrite (list_fmap_ext _
               (λ idx, bond_edge_at b idx ++ directed idx (omap (other_end idx) bs)))
      by (intros; apply directed_omap_cons).
    rewrite concat_fmap_app_perm, IH, bond_edges by done. csimpl.
    f_equiv. by rewrite Permutation_middle.
Qed.

Lemma molecule_graph_pairs molecule :
  molecule_ok molecule →
  pair_indices (molecule_graph molecule)
  ≡ₚ ((λ idx, (Z.of_nat idx, Z.of_nat idx)) <$> seq 0 (GetNumAtoms molecule))
       ++ (forward <$> mol_bonds molecule)
       ++ (backward <$> mol_bonds molecule).
Proof.
  intros Hok. simpl. unfold atom_pairs.
  rewrite (concat_fmap_cons_perm (λ idx, (Z.of_nat idx, Z.of_nat idx))
             (λ idx, directed idx (GetNeighbors molecule idx))).
  f_equiv. by apply neighbor_edges.
Qed.

Lemma molecule_graph_shape molecule : graph_shape_ok (molecule_graph molecule).
Proof.
  unfold graph_shape_ok. simpl.
  induction (seq 0 (GetNumAtoms molecule)) as [|i l IH]; csimpl; [done|].
  rewrite !length_app, !length_fmap, IH. done.
Qed.

(** ** The order of the edges *)

Lemma elem_of_blocks (c : nat → nat) n : ∀ k x,
  x ∈ concat ((λ i, replicate (c i) (Z.of_nat i)) <$> seq k n) →
  Z.of_nat k ≤ x < Z.of_nat (k + n).
Proof.
  induction n as [|n IH]; intros k x; csimpl.
  - by intros ?%elem_of_nil.
  - rewrite elem_of_app. intros [Hx|Hx].
    + apply elem_of_replicate in Hx as [-> _]. lia.
    + apply IH in Hx. lia.
Qed.

Lemma blocks_sorted (c : nat → nat) n : ∀ k,
  StronglySorted Z.le
    (concat ((λ i, replicate (c i) (Z.of_nat i)) <$> seq k n)).
Proof.
  induction n as [|n IH]; intros k; csimpl; [constructor|].
  apply StronglySorted_app. split; [|split].
  - intros x1 x2 Hx1 Hx2. apply elem_of_replicate in Hx1 as [-> _].
    apply elem_of_blocks in Hx2. lia.
  - induction (c k) as [|m IHm]; csimpl; constructor; [done|].
    apply Forall_replicate. lia.
  - apply IH.
Qed.

Lemma molecule_graph_sources molecule :
  (pair_indices (molecule_graph molecule)).*1
  = concat ((λ idx, replicate (S (length (GetNeighbors molecule idx)))
                              (Z.of_nat idx))
              <$> seq 0 (GetNumAtoms molecule)).
Proof.
  simpl. induction (seq 0 (GetNumAtoms molecule)) as [|i l IH]; csimpl; [done|].
  rewrite fmap_app, IH. f_equal. f_equal.
  induction (GetNeighbors molecule i) as [|nb nbs IHn]; csimpl; [done|].
  by rewrite IHn.
Qed.

Lemma molecule_graph_sorted molecule :
  non_decreasing (pair_indices (molecule_graph molecule)).*1.
Proof.
  rewrite molecule_graph_sources. apply StronglySorted_Sorted, blocks_sorted.
Qed.

Lemma molecule_graph_sources_range molecule :
  Forall (λ p, 0 ≤ p.1 < Z.of_nat (length (atom_features (molecule_graph molecule))))
         (pair_indices (molecule_graph molecule)).
Proof.
  apply Forall_forall. intros p Hp.
  assert (Hin : p.1 ∈ (pair_indices (molecule_graph molecule)).*1).
  { by apply list_elem_of_fmap_2. }
  rewrite molecule_graph_sources in Hin. apply elem_of_blocks in Hin.
  simpl. rewrite length_fmap. unfold GetNumAtoms in Hin. lia.
Qed.

(** C1.  For a molecule of [n] atoms and [m] bonds, [graph_from_molecule]
    returns a graph with [n] rows of atom features and [n + 2 m] edges,
    which are one self-loop per atom and, for every bond, the edge from its
    first atom to its second and the edge back. *)
Theorem graph_from_molecule_counts (molecule : Mol) :
  molecule_ok molecule →
  ∃ g,
    graph_from_molecule molecule = Some g
    ∧ length (atom_features g) = GetNumAtoms molecule
    ∧ length (pair_indices g)
      = (GetNumAtoms molecule + 2 * length (mol_bonds molecule))%nat
    ∧ length (bond_features g) = length (pair_indices g)
    ∧ pair_indices g
      ≡ₚ ((λ idx, (Z.of_nat idx, Z.of_nat idx))
            <$> seq 0 (GetNumAtoms molecule))
           ++ ((λ b, (Z.of_nat (GetBeginAtomIdx b), Z.of_nat (GetEndAtomIdx b)))
                 <$> mol_bonds molecule)
           ++ ((λ b, (Z.of_nat (GetEndAtomIdx b), Z.of_nat (GetBeginAtomIdx b)))
                 <$> mol_bonds molecule).
Proof.
  intros Hok. exists (molecule_graph molecule).
  pose proof (molecule_graph_pairs molecule Hok) as Hperm.
  split; [apply graph_from_molecule_spec|].
  split; [simpl; by rewrite length_fmap|].
  split; [|split; [apply molecule_graph_shape | exact Hperm]].
  rewrite Hperm, !length_app, !length_fmap, length_seq. lia.
Qed.


(** ** The tensor operations of the merge *)

Lemma tf_repeat_cons {A : Type} (x : A) xs r rs :
  tf_repeat (x :: xs) (r :: rs) = replicate r x ++ tf_repeat xs rs.
Proof. done. Qed.

Lemma tf_repeat_fmap {A B : Type} (f : A → B) xs : ∀ rs,
  f <$> tf_repeat xs rs = tf_repeat (f <$> xs) rs.
Proof.
  induction xs as [|x xs IH]; intros [|r rs]; try done.
  rewrite fmap_cons, !tf_repeat_cons, fmap_app, fmap_replicate. by rewrite IH.
Qed.

Lemma elem_of_tf_repeat {A : Type} (y : A) xs : ∀ rs,
  y ∈ tf_repeat xs rs → y ∈ xs.
Proof.
  induction xs as [|x xs IH]; intros [|r rs]; try by intros ?%elem_of_nil.
  rewrite tf_repeat_cons, elem_of_app, elem_of_cons.
  intros [Hy|Hy]; [left; by eapply elem_of_replicate_inv|right; by eapply IH].
Qed.

Lemma tf_repeat_seq_imap {A : Type} (h : A → nat) l : ∀ k,
  tf_repeat (seq k (length l)) (h <$> l)
  = concat (imap (λ i x, replicate (h x) (k + i)%nat) l).
Proof.
  induction l as [|x l IH]; intros k; [done|].
  simpl length. simpl seq. rewrite fmap_cons, tf_repeat_cons, imap_cons.
  simpl concat. rewrite Nat.add_0_r, IH. do 2 f_equal.
  apply imap_ext. intros i y _. simpl. f_equal. lia.
Qed.

Lemma tf_gather_fmap {A : Type} (params : list A) (f : nat → A) indices :
  Forall (λ i, params !! i = Some (f i)) indices →
  tf_gather params indices = Some (f <$> indices).
Proof.
  intros Hall. unfold tf_gather. apply mapM_Some.
  apply Forall2_fmap_r, Forall_Forall2_diag. done.
Qed.

Lemma cumsum_from_lookup (ns : list nat) : ∀ (acc i : nat),
  (i < length ns)%nat →
  cumsum_from (Z.of_nat acc) (Z.of_nat <$> ns) !! i
  = Some (Z.of_nat (acc + sum_list (take (S i) ns))).
Proof.
  induction ns as [|n ns IH]; intros acc i Hi; simpl in Hi; [lia|].
  rewrite fmap_cons. simpl cumsum_from. destruct i as [|i].
  - simpl. do 2 f_equal. lia.
  - change ((Z.of_nat acc + Z.of_nat n :: cumsum_from (Z.of_nat acc + Z.of_nat n)
               (Z.of_nat <$> ns)) !! S i)
      with (cumsum_from (Z.of_nat acc + Z.of_nat n) (Z.of_nat <$> ns) !! i).
    rewrite <-Nat2Z.inj_add, IH by lia.
    do 2 f_equal. simpl. lia.
Qed.

Lemma zip_with_concat_repeat {A B C : Type} (f : A → B → C) (ls : list (list A)) :
  ∀ offs, length offs = length ls →
  zip_with f (concat ls) (tf_repeat offs (length <$> ls))
  = concat (zip_with (λ l off, (λ p, f p off) <$> l) ls offs).
Proof.
  induction ls as [|l ls IH]; intros [|off offs] Hlen; try done.
  rewrite fmap_cons, tf_repeat_cons. simpl concat.
  rewrite zip_with_app by by rewrite length_replicate.
  rewrite zip_with_replicate_r_eq by done. rewrite IH by (simpl in Hlen; lia).
  done.
Qed.

Lemma length_tf_repeat_lengths {A B : Type} (ls : list (list A)) : ∀ offs : list B,
  length offs = length ls →
  length (tf_repeat offs (length <$> ls)) = length (concat ls).
Proof.
  induction ls as [|l ls IH]; intros [|off offs] Hlen; try done.
  rewrite fmap_cons, tf_repeat_cons. simpl concat.
  rewrite !length_app, length_replicate, IH by (simpl in Hlen; lia). done.
Qed.

Lemma zip_with_fmap_seq_imap {A B C D : Type} (F : B → C → D) (h : A → B)
    (o : nat → C) l : ∀ k,
  zip_with F (h <$> l) (o <$> seq k (length l))
  = imap (λ i x, F (h x) (o (k + i)%nat)) l.
Proof.
  induction l as [|x l IH]; intros k; [done|].
  simpl length. simpl seq. rewrite !fmap_cons, imap_cons. simpl zip_with.
  rewrite Nat.add_0_r, IH. f_equal.
  apply imap_ext. intros i y _. simpl. do 2 f_equal. lia.
Qed.

(** ** What [prepare_batch] returns *)

Lemma node_offset_0 gs : node_offset gs 0 = 0.
Proof. unfold node_offset. by rewrite take_0. Qed.

Lemma increment_offsets g0 rest :
  let gs := g0 :: rest in
  tf_gather
    (tf_cumsum (Z.of_nat <$> removelast (length <$> (atom_features <$> gs))))
    (tf_repeat (removelast (seq 0 (length (length <$> (atom_features <$> gs)))))
               (tail (length <$> (bond_features <$> gs))))
  = Some (tf_repeat (node_offset gs <$> seq 1 (length rest))
                    (length <$> (bond_features <$> rest))).
Proof.
  intros gs.
  set (ns := length <$> (atom_features <$> gs)).
  assert (Hns : length ns = S (length rest)).
  { unfold ns, gs. by rewrite !length_fmap. }
  rewrite Hns.
  replace (removelast (seq 0 (S (length rest)))) with (seq 0 (length rest)).
  2:{ rewrite seq_S. simpl. by rewrite removelast_last. }
  rewrite removelast_firstn_len, Hns. simpl pred. simpl tail.
  rewrite <-(fmap_S_seq 0), <-(list_fmap_compose S (node_offset gs)),
    <-tf_repeat_fmap.
  apply tf_gather_fmap, Forall_forall. intros i Hi.
  apply elem_of_tf_repeat, elem_of_seq in Hi.
  unfold tf_cumsum. change 0 with (Z.of_nat 0).
  rewrite cumsum_from_lookup by (rewrite length_take; lia).
  simpl. unfold node_offset. do 2 f_equal.
  rewrite take_take. replace (S i `min` length rest)%nat with (S i) by lia.
  unfold ns. by rewrite <-list_fmap_compose, fmap_take.
Qed.

Lemma bind_Some {A B : Type} (x : A) (f : A → option B) : Some x ≫= f = f x.
Proof. done. Qed.

Lemma prepare_batch_spec {Y : Type} (gs : list Graph) (y : Y) :
  gs ≠ [] → Forall graph_shape_ok gs →
  prepare_batch gs y = Some (merged gs, y).
Proof.
  intros Hne Hshape. destruct gs as [|g0 rest]; [done|]. clear Hne.
  unfold prepare_batch. cbv zeta.
  rewrite increment_offsets.
  change (head (length <$> (bond_features <$> g0 :: rest)))
    with (Some (length (bond_features g0))).
  rewrite !bind_Some.
  set (gs := g0 :: rest).
  assert (Hinc : replicate (length (bond_features g0)) 0
                   ++ tf_repeat (node_offset gs <$> seq 1 (length rest))
                                (length <$> (bond_features <$> rest))
                 = tf_repeat (node_offset gs <$> seq 0 (length gs))
                             (length <$> (pair_indices <$> gs))).
  { unfold gs. simpl length. simpl seq. rewrite !fmap_cons, tf_repeat_cons.
    rewrite node_offset_0. inversion Hshape as [|?? H0 Hrest]; subst.
    rewrite H0. f_equal. f_equal.
    rewrite <-!list_fmap_compose. apply Forall_fmap_ext_1.
    eapply Forall_impl; [exact Hrest|]. intros g Hg. exact Hg. }
  rewrite Hinc. unfold add_newaxis, merge_dims.
  rewrite decide_True.
  2:{ symmetry. apply length_tf_repeat_lengths.
      by rewrite !length_fmap, length_seq. }
  rewrite bind_Some. do 2 f_equal. unfold merged. f_equal.
  - unfold merged_pairs.
    rewrite zip_with_concat_repeat by by rewrite !length_fmap, length_seq.
    f_equal. apply zip_with_fmap_seq_imap.
  - unfold merged_membership. rewrite !length_fmap.
    rewrite <-list_fmap_compose. apply (tf_repeat_seq_imap _ gs 0).
Qed.

(** ** Densifying ragged rows *)

Lemma to_tensor_length rows : length (to_tensor rows) = length rows.
Proof. unfold to_tensor. by rewrite length_fmap. Qed.

Lemma max_list_bound (ns : list nat) w :
  Forall (λ n, n ≤ w)%nat ns → (max_list ns ≤ w)%nat.
Proof. induction 1; simpl; lia. Qed.

Lemma max_list_ge (ns : list nat) n : n ∈ ns → (n ≤ max_list ns)%nat.
Proof. apply max_list_elem_of_le. Qed.

Lemma to_tensor_uniform rows w :
  Forall (λ row, length row = w) rows → to_tensor rows = rows.
Proof.
  intros Hall. unfold to_tensor.
  assert (Hmax : (max_list (length <$> rows) ≤ w)%nat).
  { apply max_list_bound, Forall_fmap. eapply Forall_impl; [exact Hall|].
    simpl. lia. }
  rewrite <-(list_fmap_id rows) at 2. apply Forall_fmap_ext_1.
  eapply Forall_impl; [exact Hall|]. intros row Hrow. simpl in *.
  replace (max_list (length <$> rows) - length row)%nat with 0%nat by lia.
  simpl. by rewrite app_nil_r.
Qed.

Lemma max_list_app (l k : list nat) :
  max_list (l ++ k) = (max_list l `max` max_list k)%nat.
Proof. induction l as [|n l IH]; simpl; [done|]. rewrite IH. lia. Qed.

Lemma max_list_const {A : Type} (l : list A) (w : nat) :
  l ≠ [] → max_list ((λ _, w) <$> l) = w.
Proof.
  induction l as [|x l IH]; intros Hne; [done|]. csimpl.
  destruct l as [|x' l]; [simpl; lia|]. rewrite IH by done. lia.
Qed.

Lemma to_tensor_widths rows :
  length <$> to_tensor rows = (λ _, max_list (length <$> rows)) <$> rows.
Proof.
  unfold to_tensor. rewrite <-list_fmap_compose. apply Forall_fmap_ext_1.
  apply Forall_forall. intros row Hrow. simpl.
  assert (length row ≤ max_list (length <$> rows))%nat.
  { apply max_list_ge. by apply list_elem_of_fmap_2. }
  rewrite length_app, length_replicate. lia.
Qed.

Lemma max_list_to_tensor rows :
  max_list (length <$> to_tensor rows) = max_list (length <$> rows).
Proof.
  rewrite to_tensor_widths. destruct rows as [|row rows]; [done|].
  by rewrite max_list_const.
Qed.

Lemma to_tensor_app_l rows rows' :
  to_tensor (to_tensor rows ++ rows') = to_tensor (rows ++ rows').
Proof.
  unfold to_tensor at 1 3.
  rewrite !fmap_app, !max_list_app, max_list_to_tensor.
  set (w := (max_list (length <$> rows) `max` max_list (length <$> rows'))%nat).
  f_equal. unfold to_tensor. rewrite <-list_fmap_compose.
  apply Forall_fmap_ext_1, Forall_forall. intros row Hrow. simpl.
  assert (length row ≤ max_list (length <$> rows))%nat.
  { apply max_list_ge. by apply list_elem_of_fmap_2. }
  rewrite <-app_assoc, <-replicate_add. do 2 f_equal.
  rewrite length_app, length_replicate. lia.
Qed.

(** ** Offsets *)

Lemma node_offset_count gs i : node_offset gs i = Z.of_nat (node_count (take i gs)).
Proof. done. Qed.

Lemma node_count_app gs gs' :
  node_count (gs ++ gs') = (node_count gs + node_count gs')%nat.
Proof. unfold node_count. by rewrite fmap_app, sum_list_with_app. Qed.

Lemma node_count_concat gs :
  length (concat (atom_features <$> gs)) = node_count gs.
Proof.
  unfold node_count. induction gs as [|g gs IH]; csimpl; [done|].
  by rewrite length_app, IH.
Qed.

Lemma node_offset_S gs i g :
  gs !! i = Some g →
  node_offset gs (S i) = node_offset gs i + Z.of_nat (length (atom_features g)).
Proof.
  intros Hi. rewrite !node_offset_count, (take_S_r _ _ _ Hi), node_count_app.
  unfold node_count at 2. simpl. lia.
Qed.

Lemma node_offset_snoc gs g i :
  (i ≤ length gs)%nat → node_offset (gs ++ [g]) i = node_offset gs i.
Proof. intros Hi. unfold node_offset. by rewrite take_app_le. Qed.

Lemma node_offset_all gs :
  node_offset gs (length gs) = Z.of_nat (node_count gs).
Proof. unfold node_offset. by rewrite firstn_all. Qed.

(** ** A batch with one more graph *)

Lemma merged_snoc gs g :
  merged (gs ++ [g])
  = {| g_atom_features :=
         to_tensor (g_atom_features (merged gs) ++ atom_features g);
       g_bond_features :=
         to_tensor (g_bond_features (merged gs) ++ bond_features g);
       g_pair_indices :=
         g_pair_indices (merged gs)
           ++ ((λ p, add_pair p (Z.of_nat (length (g_atom_features (merged gs)))))
                 <$> pair_indices g);
       g_atom_partition_indices :=
         g_atom_partition_indices (merged gs)
           ++ replicate (length (atom_features g)) (length gs) |}.
Proof.
  unfold merged. simpl.
  rewrite !fmap_app, !concat_app. csimpl. rewrite !app_nil_r.
  rewrite !to_tensor_app_l. f_equal.
  - unfold merged_pairs. rewrite imap_app, concat_app. csimpl.
    rewrite app_nil_r, Nat.add_0_r. f_equal.
    + f_equal. apply imap_ext. intros i g' Hi. simpl.
      rewrite node_offset_snoc; [done|].
      apply Nat.lt_le_incl. by eapply lookup_lt_Some.
    + rewrite node_offset_snoc, node_offset_all by done.
      by rewrite to_tensor_length, node_count_concat.
  - unfold merged_membership. rewrite imap_app, concat_app. csimpl.
    by rewrite app_nil_r, Nat.add_0_r.
Qed.

(** ** Blocks laid one after the other *)

Lemma concat_imap_lookup {A B : Type} (len : A → nat) (l : list A) :
  ∀ (f : nat → A → list B) i x k y,
  (∀ j z, length (f j z) = len z) →
  l !! i = Some x → f i x !! k = Some y →
  concat (imap f l) !! (sum_list (len <$> take i l) + k)%nat = Some y.
Proof.
  induction l as [|x0 l IH]; intros f i x k y Hlen Hi Hk; [done|].
  rewrite imap_cons. simpl concat. destruct i as [|i]; simpl in Hi.
  - injection Hi as ->. simpl. by apply lookup_app_l_Some.
  - simpl take. rewrite fmap_cons. simpl sum_list_with.
    rewrite lookup_app_r; rewrite Hlen; [|lia].
    replace (len x0 + sum_list (len <$> take i l) + k - len x0)%nat
      with (sum_list (len <$> take i l) + k)%nat by lia.
    apply (IH (f ∘ S) i x k y); [|done..]. intros j z. apply Hlen.
Qed.

Lemma elem_of_concat_imap {A B : Type} (f : nat → A → list B) (l : list A) y :
  y ∈ concat (imap f l) ↔ ∃ i x, l !! i = Some x ∧ y ∈ f i x.
Proof.
  rewrite list_elem_of_In, in_concat. split.
  - intros (ys & Hys & Hy). apply list_elem_of_In, elem_of_lookup_imap in Hys
      as (i & x & -> & Hi).
    exists i, x. by rewrite list_elem_of_In.
  - intros (i & x & Hi & Hy). exists (f i x). split.
    + apply list_elem_of_In, elem_of_lookup_imap. eauto.
    + by apply list_elem_of_In.
Qed.

Lemma concat_imap_length {A B : Type} (len : A → nat) (l : list A) :
  ∀ (f : nat → A → list B),
  (∀ j z, length (f j z) = len z) →
  length (concat (imap f l)) = sum_list (len <$> l).
Proof.
  induction l as [|x l IH]; intros f Hlen; [done|].
  rewrite imap_cons. csimpl. rewrite length_app, Hlen.
  rewrite (IH (f ∘ S)); [done|]. intros j z. apply Hlen.
Qed.

(** ** The membership array *)

Lemma membership_length gs : length (merged_membership gs) = node_count gs.
Proof.
  unfold merged_membership, node_count.
  apply concat_imap_length. intros j g. apply length_replicate.
Qed.

Lemma membership_lookup gs i g k :
  gs !! i = Some g → (k < length (atom_features g))%nat →
  merged_membership gs !! (node_count (take i gs) + k)%nat = Some i.
Proof.
  intros Hi Hk. unfold merged_membership, node_count.
  rewrite list_fmap_compose, <-list_fmap_compose.
  apply (concat_imap_lookup (length ∘ atom_features) gs _ i g k i);
    [|done|by apply lookup_replicate_2].
  intros j z. apply length_replicate.
Qed.

Lemma elem_of_membership gs v :
  v ∈ merged_membership gs
  ↔ ∃ g, gs !! v = Some g ∧ atom_features g ≠ [].
Proof.
  unfold merged_membership. rewrite elem_of_concat_imap. split.
  - intros (i & g & Hi & Hv). apply elem_of_replicate in Hv as [-> Hn].
    exists g. split; [done|]. by destruct (atom_features g).
  - intros (g & Hv & Hn). exists v, g. split; [done|].
    apply elem_of_replicate. split; [done|]. by destruct (atom_features g).
Qed.

Lemma blocks_sorted_nat {A : Type} (n : A → nat) (l : list A) : ∀ k,
  StronglySorted le (concat (imap (λ i x, replicate (n x) (k + i)%nat) l)).
Proof.
  induction l as [|x l IH]; intros k; [constructor|].
  rewrite imap_cons. simpl concat. apply StronglySorted_app. split; [|split].
  - intros x1 x2 Hx1 Hx2. apply elem_of_replicate in Hx1 as [-> _].
    apply elem_of_concat_imap in Hx2 as (i & y & _ & Hy).
    apply elem_of_replicate in Hy as [-> _]. lia.
  - induction (n x) as [|m IHm]; csimpl; constructor; [done|].
    apply Forall_replicate. lia.
  - rewrite (imap_ext _ (λ i y, replicate (n y) (S k + i)%nat)); [apply IH|].
    intros i y _. simpl. f_equal. lia.
Qed.

Lemma filter_replicate_eq (m k j : nat) :
  length (filter (λ v, v = j) (replicate m k)) = if decide (k = j) then m else 0%nat.
Proof.
  induction m as [|m IH]; simpl replicate.
  - by case_decide.
  - rewrite filter_cons. destruct (decide (k = j)); simpl; rewrite IH; done.
Qed.

Lemma blocks_count {A : Type} (n : A → nat) (l : list A) : ∀ k j,
  length (filter (λ v, v = j)
                 (concat (imap (λ i x, replicate (n x) (k + i)%nat) l)))
  = if decide (k ≤ j)%nat then from_option n 0%nat (l !! (j - k)%nat) else 0%nat.
Proof.
  induction l as [|x l IH]; intros k j.
  - simpl. by case_decide.
  - rewrite imap_cons. simpl concat. rewrite filter_app, length_app.
    rewrite Nat.add_0_r, filter_replicate_eq.
    rewrite (imap_ext _ (λ i y, replicate (n y) (S k + i)%nat)), IH.
    2:{ intros i y _. simpl. f_equal. lia. }
    repeat case_decide; try lia.
    + subst. by rewrite Nat.sub_diag.
    + replace (j - k)%nat with (S (j - S k)) by lia. done.
Qed.

(** C8.  The membership array of a batch of [B] graphs, each with at least
    one node: graph index [i] repeated as often as graph [i] has nodes, for
    [i] from 0 to [B - 1] in this order.  It never decreases, its values
    are the numbers below [B], and [i] occurs as often as graph [i] has
    nodes. *)
Theorem prepare_batch_membership {Y : Type} (x_batch : list Graph) (y_batch : Y) :
  x_batch ≠ [] →
  Forall graph_shape_ok x_batch →
  Forall (λ g, atom_features g ≠ []) x_batch →
  ∃ out,
    prepare_batch x_batch y_batch = Some (out, y_batch)
    ∧ g_atom_partition_indices out
      = concat (imap (λ i g, replicate (length (atom_features g)) i) x_batch)
    ∧ Sorted le (g_atom_partition_indices out)
    ∧ (∀ v, v ∈ g_atom_partition_indices out ↔ (v < length x_batch)%nat)
    ∧ (∀ i g, x_batch !! i = Some g →
              length (filter (λ v, v = i) (g_atom_partition_indices out))
              = length (atom_features g))
    ∧ length (g_atom_partition_indices out) = length (g_atom_features out).
Proof.
  intros Hne Hshape Hnodes. exists (merged x_batch).
  split; [by apply prepare_batch_spec|]. split; [done|]. simpl.
  split; [|split; [|split]].
  - apply StronglySorted_Sorted.
    apply (blocks_sorted_nat (length ∘ atom_features) x_batch 0).
  - intros v. rewrite elem_of_membership. split.
    + intros (g & Hv & _). by eapply lookup_lt_Some.
    + intros Hv. apply lookup_lt_is_Some_2 in Hv as [g Hg]. exists g.
      split; [done|]. by apply (Forall_lookup_1 _ _ _ _ Hnodes Hg).
  - intros i g Hi.
    pose proof (blocks_count (length ∘ atom_features) x_batch 0 i) as Hc.
    simpl in Hc. unfold merged_membership. rewrite Hc.
    by rewrite Nat.sub_0_r, Hi.
  - by rewrite membership_length, to_tensor_length, node_count_concat.
Qed.

(** ** Edge indices of the merged graph *)

Lemma merged_pairs_length gs :
  length (merged_pairs gs) = sum_list (length ∘ pair_indices <$> gs).
Proof.
  unfold merged_pairs. apply concat_imap_length. intros j g.
  apply length_fmap.
Qed.

Lemma merged_pairs_lookup gs i g k p :
  gs !! i = Some g → pair_indices g !! k = Some p →
  merged_pairs gs !! (edge_offset gs i + k)%nat
  = Some (add_pair p (node_offset gs i)).
Proof.
  intros Hi Hk. unfold merged_pairs, edge_offset.
  apply (concat_imap_lookup (length ∘ pair_indices) gs _ i g k); [|done|].
  - intros j z. apply length_fmap.
  - by rewrite list_lookup_fmap, Hk.
Qed.

Lemma elem_of_merged_pairs gs q :
  q ∈ merged_pairs gs
  ↔ ∃ i g p, gs !! i = Some g ∧ p ∈ pair_indices g
             ∧ q = add_pair p (node_offset gs i).
Proof.
  unfold merged_pairs. rewrite elem_of_concat_imap. split.
  - intros (i & g & Hi & Hq). apply list_elem_of_fmap in Hq as (p & -> & Hp).
    eauto 6.
  - intros (i & g & p & Hi & Hp & ->). exists i, g. split; [done|].
    apply list_elem_of_fmap. eauto.
Qed.

Lemma membership_of_node gs i g (a : Z) :
  gs !! i = Some g → 0 ≤ a < Z.of_nat (length (atom_features g)) →
  merged_membership gs !! Z.to_nat (a + node_offset gs i) = Some i.
Proof.
  intros Hi Ha. rewrite node_offset_count.
  replace (Z.to_nat (a + Z.of_nat (node_count (take i gs))))
    with (node_count (take i gs) + Z.to_nat a)%nat by lia.
  apply (membership_lookup gs i g); [done|lia].
Qed.

(** C2.  For a batch of non-empty graphs, one of which at least has an
    edge, whose index pairs refer to their own nodes, [prepare_batch] adds to both ends of every edge of the [i]-th
    graph the number of nodes of the graphs before it (nothing for the first
    graph) and puts the rows of the node features, of the edge features and
    of the edge indices one after the other in the order of the batch.
    Every sum is an index of a row of the merged node features. *)
Theorem prepare_batch_offsets {Y : Type} (x_batch : list Graph) (y_batch : Y) :
  x_batch ≠ [] →
  Forall (λ g, atom_features g ≠ []) x_batch →
  Exists (λ g, pair_indices g ≠ []) x_batch →
  Forall graph_shape_ok x_batch →
  Forall graph_indices_ok x_batch →
  ∃ out,
    prepare_batch x_batch y_batch = Some (out, y_batch)
    ∧ g_pair_indices out
      = concat (imap (λ i g,
                        (λ p, (p.1 + node_offset x_batch i,
                               p.2 + node_offset x_batch i))
                          <$> pair_indices g) x_batch)
    ∧ node_offset x_batch 0 = 0
    ∧ (∀ i g, x_batch !! i = Some g →
              node_offset x_batch (S i)
              = node_offset x_batch i + Z.of_nat (length (atom_features g)))
    ∧ (∀ g, x_batch !! 0%nat = Some g →
            take (length (pair_indices g)) (g_pair_indices out) = pair_indices g)
    ∧ g_atom_features out = to_tensor (concat (atom_features <$> x_batch))
    ∧ g_bond_features out = to_tensor (concat (bond_features <$> x_batch))
    ∧ (∀ w, Forall (λ g, Forall (λ row, length row = w) (atom_features g))
                   x_batch →
            g_atom_features out = concat (atom_features <$> x_batch))
    ∧ (∀ w, Forall (λ g, Forall (λ row, length row = w) (bond_features g))
                   x_batch →
            g_bond_features out = concat (bond_features <$> x_batch))
    ∧ Forall (pair_in_range 0 (Z.of_nat (length (g_atom_features out))))
             (g_pair_indices out).
Proof.
  intros Hne _ _ Hshape Hvalid. exists (merged x_batch).
  split; [by apply prepare_batch_spec|].
  split; [done|]. split; [apply node_offset_0|].
  split; [apply node_offset_S|].
  split; [|split; [done|split; [done|split; [|split]]]].
  - intros g Hg. destruct x_batch as [|g0 rest]; [done|].
    injection Hg as ->. simpl. unfold merged_pairs. rewrite imap_cons.
    simpl concat. rewrite node_offset_0.
    rewrite take_app_length'; [|by rewrite length_fmap].
    rewrite <-(list_fmap_id (pair_indices g)) at 2.
    apply list_fmap_ext. intros _ [a b] _. unfold add_pair. simpl.
    f_equal; lia.
  - intros w Hw. simpl. apply (to_tensor_uniform _ w).
    apply Forall_concat, Forall_fmap. exact Hw.
  - intros w Hw. simpl. apply (to_tensor_uniform _ w).
    apply Forall_concat, Forall_fmap. exact Hw.
  - apply Forall_forall. intros q Hq. simpl in Hq.
    apply elem_of_merged_pairs in Hq as (i & g & p & Hi & Hp & ->).
    pose proof (Forall_lookup_1 _ _ _ _ Hvalid Hi) as Hg.
    unfold graph_indices_ok in Hg.
    pose proof (proj1 (Forall_forall _ _) Hg p Hp) as [H3 H4].
    pose proof (membership_of_node x_batch i g p.1 Hi H3) as H1.
    pose proof (membership_of_node x_batch i g p.2 Hi H4) as H2.
    apply lookup_lt_Some in H1, H2.
    rewrite membership_length in H1, H2.
    simpl. rewrite to_tensor_length, node_count_concat.
    pose proof (node_offset_count x_batch i).
    unfold pair_in_range, add_pair in *. simpl in *. lia.
Qed.

(** C3.  When the index pairs of every graph of the batch refer to its own
    nodes, every index pair of the merged graph refers to a row of the
    merged node features, and the two ends of the edge that was the [k]-th
    of graph [i] lie in the range of rows of graph [i], the rows whose
    membership is [i]. *)
Theorem prepare_batch_indices_valid {Y : Type} (x_batch : list Graph)
    (y_batch : Y) :
  x_batch ≠ [] →
  Forall graph_shape_ok x_batch →
  Forall graph_indices_ok x_batch →
  ∃ out,
    prepare_batch x_batch y_batch = Some (out, y_batch)
    ∧ Forall (pair_in_range 0 (Z.of_nat (length (g_atom_features out))))
             (g_pair_indices out)
    ∧ length (g_pair_indices out)
      = sum_list (length ∘ pair_indices <$> x_batch)
    ∧ (∀ i g k p,
         x_batch !! i = Some g → pair_indices g !! k = Some p →
         ∃ q,
           g_pair_indices out
             !! (sum_list (length ∘ pair_indices <$> take i x_batch) + k)%nat
           = Some q
           ∧ pair_in_range
               (node_offset x_batch i)
               (node_offset x_batch i + Z.of_nat (length (atom_features g))) q
           ∧ g_atom_partition_indices out !! Z.to_nat q.1 = Some i
           ∧ g_atom_partition_indices out !! Z.to_nat q.2 = Some i)
    ∧ Forall (λ q, ∃ i,
                g_atom_partition_indices out !! Z.to_nat q.1 = Some i
                ∧ g_atom_partition_indices out !! Z.to_nat q.2 = Some i)
             (g_pair_indices out).
Proof.
  intros Hne Hshape Hvalid. exists (merged x_batch).
  split; [by apply prepare_batch_spec|]. simpl.
  assert (Hin : ∀ i g p, x_batch !! i = Some g → p ∈ pair_indices g →
            pair_in_range 0 (Z.of_nat (length (atom_features g))) p).
  { intros i g p Hi Hp. pose proof (Forall_lookup_1 _ _ _ _ Hvalid Hi) as Hg.
    unfold graph_indices_ok in Hg. by eapply (proj1 (Forall_forall _ _) Hg). }
  assert (Hmem : ∀ i g p, x_batch !! i = Some g → p ∈ pair_indices g →
            merged_membership x_batch
              !! Z.to_nat (add_pair p (node_offset x_batch i)).1 = Some i
            ∧ merged_membership x_batch
              !! Z.to_nat (add_pair p (node_offset x_batch i)).2 = Some i).
  { intros i g p Hi Hp. destruct (Hin i g p Hi Hp) as [H1 H2].
    split; by apply (membership_of_node x_batch i g). }
  split; [|split; [apply merged_pairs_length|split]].
  - apply Forall_forall. intros q Hq.
    apply elem_of_merged_pairs in Hq as (i & g & p & Hi & Hp & ->).
    destruct (Hmem i g p Hi Hp) as [H1 H2].
    apply lookup_lt_Some in H1, H2.
    rewrite membership_length in H1, H2.
    rewrite to_tensor_length, node_count_concat.
    destruct (Hin i g p Hi Hp) as [H3 H4]. pose proof (node_offset_count x_batch i).
    unfold pair_in_range, add_pair in *. simpl in *. lia.
  - intros i g k p Hi Hk. exists (add_pair p (node_offset x_batch i)).
    assert (Hp : p ∈ pair_indices g) by by eapply list_elem_of_lookup_2.
    split; [by apply (merged_pairs_lookup x_batch i g)|].
    split; [|by apply (Hmem i g p)].
    destruct (Hin i g p Hi Hp) as [H3 H4].
    unfold pair_in_range, add_pair in *. simpl in *. lia.
  - apply Forall_forall. intros q Hq.
    apply elem_of_merged_pairs in Hq as (i & g & p & Hi & Hp & ->).
    exists i. by apply (Hmem i g p).
Qed.

(** ** Merging a merged batch again *)

Lemma as_graph_shape gs :
  Forall graph_shape_ok gs → graph_shape_ok (as_graph (merged gs)).
Proof.
  intros Hshape. unfold graph_shape_ok. simpl.
  rewrite to_tensor_length, merged_pairs_length.
  induction Hshape as [|g gs Hg _ IH]; csimpl; [done|].
  rewrite length_app, IH. unfold graph_shape_ok in Hg. lia.
Qed.

(** Merging once more, the merged batch as a single graph followed by one
    more graph, gives the features and the edge indices of merging all the
    graphs at once; the membership array then tells the two graphs of the
    second merge apart, no longer those of the first. *)
Lemma prepare_batch_remerge {Y : Type} (x_batch : list Graph) (g : Graph)
    (y_batch : Y) :
  x_batch ≠ [] → Forall graph_shape_ok x_batch → graph_shape_ok g →
  ∃ out again direct,
    prepare_batch x_batch y_batch = Some (out, y_batch)
    ∧ prepare_batch [as_graph out; g] y_batch = Some (again, y_batch)
    ∧ prepare_batch (x_batch ++ [g]) y_batch = Some (direct, y_batch)
    ∧ g_pair_indices again = g_pair_indices direct
    ∧ g_atom_features again = g_atom_features direct
    ∧ g_bond_features again = g_bond_features direct
    ∧ g_atom_partition_indices again
      = replicate (length (g_atom_features out)) 0%nat
          ++ replicate (length (atom_features g)) 1%nat.
Proof.
  intros Hne Hshape Hg.
  exists (merged x_batch), (merged [as_graph (merged x_batch); g]),
         (merged (x_batch ++ [g])).
  split; [by apply prepare_batch_spec|].
  split.
  { apply prepare_batch_spec; [done|].
    repeat constructor; [by apply as_graph_shape|done]. }
  split.
  { apply prepare_batch_spec; [by destruct x_batch|].
    apply Forall_app. split; [done|by constructor]. }
  rewrite merged_snoc.
  pose proof (merged_snoc [as_graph (merged x_batch)] g) as Heq.
  simpl app in Heq. rewrite Heq. clear Heq.
  unfold merged at 1 3 5 7. simpl.
  rewrite !app_nil_r, !to_tensor_app_l.
  assert (Hlen : ∀ rows, length (to_tensor (to_tensor rows))
                         = length (to_tensor rows)).
  { intros rows. by rewrite !to_tensor_length. }
  split; [|split; [done|split; [done|]]].
  - rewrite Hlen. f_equal.
    unfold merged_pairs at 1. simpl. rewrite app_nil_r, node_offset_0.
    rewrite <-(list_fmap_id (merged_pairs x_batch)) at 2.
    apply list_fmap_ext. intros _ [a b] _. unfold add_pair. simpl.
    f_equal; lia.
  - unfold merged_membership at 1. simpl. by rewrite app_nil_r.
Qed.

(** C4, as the code has it.  For graphs with a node and an edge at least,
    whose index pairs refer to their own nodes, merging [A; B] and then
    merging the result, taken as one graph, with [C] gives the edge indices and the features of
    merging [A; B; C] at once.  The membership array is another: 0 on the
    nodes of [A] and [B] and 1 on those of [C], where the merge at once has
    0, 1 and 2. *)
Theorem prepare_batch_append {Y : Type} (A B C : Graph) (y_batch : Y) :
  Forall graph_shape_ok [A; B; C] →
  Forall graph_indices_ok [A; B; C] →
  Forall (λ g, atom_features g ≠ [] ∧ pair_indices g ≠ []) [A; B; C] →
  ∃ merged_ab again direct,
    prepare_batch [A; B] y_batch = Some (merged_ab, y_batch)
    ∧ prepare_batch [as_graph merged_ab; C] y_batch = Some (again, y_batch)
    ∧ prepare_batch [A; B; C] y_batch = Some (direct, y_batch)
    ∧ g_pair_indices again = g_pair_indices direct
    ∧ g_atom_features again = g_atom_features direct
    ∧ g_bond_features again = g_bond_features direct
    ∧ g_atom_partition_indices again
      = replicate (length (atom_features A) + length (atom_features B)) 0%nat
          ++ replicate (length (atom_features C)) 1%nat
    ∧ g_atom_partition_indices direct
      = replicate (length (atom_features A)) 0%nat
          ++ replicate (length (atom_features B)) 1%nat
          ++ replicate (length (atom_features C)) 2%nat
    ∧ g_atom_partition_indices again ≠ g_atom_partition_indices direct.
Proof.
  intros Hshape _ Hnodes.
  apply Forall_cons in Hshape as [HA Hshape].
  apply Forall_cons in Hshape as [HB Hshape].
  apply Forall_cons in Hshape as [HC _].
  apply Forall_cons in Hnodes as [_ Hnodes].
  apply Forall_cons in Hnodes as [[HnB _] _].
  destruct (prepare_batch_remerge [A; B] C y_batch)
    as (out & again & direct & Hout & Hagain & Hdirect & Hp & Ha & Hb & Hm);
    [done|by repeat constructor|done|].
  exists out, again, direct.
  split; [exact Hout|]. split; [exact Hagain|]. split; [exact Hdirect|].
  split; [exact Hp|]. split; [exact Ha|]. split; [exact Hb|].
  assert (Hlen : length (g_atom_features out)
                 = (length (atom_features A) + length (atom_features B))%nat).
  { rewrite prepare_batch_spec in Hout by (done || by repeat constructor).
    apply Some_inj, pair_eq in Hout as [<- _]. simpl.
    by rewrite to_tensor_length, app_nil_r, length_app. }
  assert (Hd : g_atom_partition_indices direct
               = replicate (length (atom_features A)) 0%nat
                   ++ replicate (length (atom_features B)) 1%nat
                   ++ replicate (length (atom_features C)) 2%nat).
  { simpl app in Hdirect.
    rewrite prepare_batch_spec in Hdirect by (done || by repeat constructor).
    apply Some_inj, pair_eq in Hdirect as [<- _]. simpl.
    unfold merged_membership. simpl. by rewrite app_nil_r. }
  rewrite Hm, Hlen, Hd.
  split; [done|]. split; [done|].
  intros Heq.
  apply (f_equal (λ l, l !! length (atom_features A))) in Heq.
  destruct (atom_features B) as [|row rows] eqn:HBf; [done|].
  simpl length in Heq.
  rewrite lookup_app_l in Heq by (rewrite length_replicate; lia).
  rewrite lookup_replicate_2 in Heq by lia.
  rewrite lookup_app_r in Heq by (rewrite length_replicate; lia).
  rewrite length_replicate, Nat.sub_diag in Heq. simpl in Heq.
  discriminate Heq.
Qed.

(** ** The order of the sources after the merge *)

Lemma merged_sources_sorted_from (gs : list Graph) : ∀ pre,
  Forall (λ g, non_decreasing (pair_indices g).*1
               ∧ Forall (λ p, 0 ≤ p.1 < Z.of_nat (length (atom_features g)))
                        (pair_indices g)) gs →
  StronglySorted Z.le (merged_from pre gs).*1
  ∧ Forall (λ s, Z.of_nat (node_count pre) ≤ s) (merged_from pre gs).*1.
Proof.
  unfold merged_from. induction gs as [|g rest IH]; intros pre Hall.
  - split; constructor.
  - inversion Hall as [|?? [Hsorted Hrange] Hrest]; subst.
    rewrite imap_cons. simpl concat. rewrite fmap_app.
    rewrite (imap_ext _ (λ i g', (λ p, add_pair p
               (node_offset ((pre ++ [g]) ++ rest) (length (pre ++ [g]) + i)))
               <$> pair_indices g')).
    2:{ intros i g' _. simpl.
        replace (length (pre ++ [g]) + i)%nat with (length pre + S i)%nat
          by (rewrite length_app; simpl; lia).
        by rewrite <-app_assoc. }
    destruct (IH (pre ++ [g]) Hrest) as [IHs IHb]. clear IH.
    rewrite node_count_app in IHb. unfold node_count at 2 in IHb.
    simpl in IHb.
    assert (Hoff : node_offset (pre ++ g :: rest) (length pre + 0)
                   = Z.of_nat (node_count pre)).
    { rewrite node_offset_count, Nat.add_0_r.
      by rewrite take_app_length. }
    rewrite Hoff.
    assert (Hfirst : Forall (λ s, Z.of_nat (node_count pre) ≤ s
                                  < Z.of_nat (node_count pre)
                                    + Z.of_nat (length (atom_features g)))
              ((λ p, add_pair p (Z.of_nat (node_count pre)))
                 <$> pair_indices g).*1).
    { rewrite <-list_fmap_compose. apply Forall_fmap.
      eapply Forall_impl; [exact Hrange|]. intros p Hp. simpl in *. lia. }
    split.
    + apply StronglySorted_app. split; [|split; [|exact IHs]].
      * intros x1 x2 Hx1 Hx2.
        pose proof (proj1 (Forall_forall _ _) Hfirst x1 Hx1).
        pose proof (proj1 (Forall_forall _ _) IHb x2 Hx2). simpl in *. lia.
      * apply Sorted_StronglySorted; [apply _|].
        assert (Heq : ((λ p, add_pair p (Z.of_nat (node_count pre)))
                         <$> pair_indices g).*1
                      = (λ s, s + Z.of_nat (node_count pre))
                          <$> (pair_indices g).*1).
        { rewrite <-!list_fmap_compose. by apply list_fmap_ext. }
        rewrite Heq.
        eapply Sorted_fmap; [|exact Hsorted]. intros x y Hxy. simpl. lia.
    + apply Forall_app. split.
      * eapply Forall_impl; [exact Hfirst|]. intros s Hs. simpl in *. lia.
      * eapply Forall_impl; [exact IHb|]. intros s Hs. simpl in *. lia.
Qed.

Lemma merged_sources_sorted gs :
  Forall (λ g, non_decreasing (pair_indices g).*1
               ∧ Forall (λ p, 0 ≤ p.1 < Z.of_nat (length (atom_features g)))
                        (pair_indices g)) gs →
  non_decreasing (merged_pairs gs).*1.
Proof.
  intros Hall. apply StronglySorted_Sorted.
  apply (merged_sources_sorted_from gs [] Hall).
Qed.

Lemma mapM_total {A B : Type} (f : A → option B) (g : A → B) l :
  (∀ x, f x = Some (g x)) → mapM f l = Some (g <$> l).
Proof.
  intros Hf. apply mapM_Some.
  apply Forall2_fmap_r, Forall_Forall2_diag, Forall_forall. intros x _. apply Hf.
Qed.

(** C10.  The source column of the edges [graph_from_molecule] returns never
    decreases, and neither does the source column of the merged graph
    [prepare_batch] builds from the graphs of a batch of molecules: the
    order the grouping by source of [EdgeNetwork.call] needs. *)
Theorem source_column_sorted :
  (∀ molecule : Mol,
     ∃ g, graph_from_molecule molecule = Some g
          ∧ non_decreasing (pair_indices g).*1)
  ∧ (∀ (Y : Type) (molecules : list Mol) (y_batch : Y),
       molecules ≠ [] →
       ∃ x_batch out,
         mapM graph_from_molecule molecules = Some x_batch
         ∧ prepare_batch x_batch y_batch = Some (out, y_batch)
         ∧ non_decreasing (g_pair_indices out).*1).
Proof.
  split.
  - intros molecule. exists (molecule_graph molecule).
    split; [apply graph_from_molecule_spec | apply molecule_graph_sorted].
  - intros Y molecules y_batch Hne. exists (molecule_graph <$> molecules).
    exists (merged (molecule_graph <$> molecules)).
    split; [apply mapM_total, graph_from_molecule_spec|]. split.
    + apply prepare_batch_spec; [by destruct molecules|].
      apply Forall_fmap, Forall_forall. intros m _. apply molecule_graph_shape.
    + simpl. apply merged_sources_sorted, Forall_fmap, Forall_forall.
      intros m _. split; [apply molecule_graph_sorted|].
      apply molecule_graph_sources_range.
Qed.

(** ** Relabelling the nodes of a graph *)

Section aggregation.
Context {R : Type} (Rzero : R) (Radd Rmul : R → R → R).

Local Abbreviation call := (EdgeNetwork_call Rzero Radd Rmul).
Local Abbreviation vsum := (vsum Rzero Radd).
Local Abbreviation zeros := (zeros Rzero).
Local Abbreviation msg := (message Rzero Radd Rmul).

Lemma gather_rows_valid (x : list (list R)) (indices : list Z) :
  Forall (λ j, 0 ≤ j < Z.of_nat (length x)) indices →
  gather_rows x indices = Some ((λ j, x !!! Z.to_nat j) <$> indices).
Proof.
  intros Hall. unfold gather_rows. apply mapM_Some.
  apply Forall2_fmap_r, Forall_Forall2_diag.
  eapply Forall_impl; [exact Hall|]. intros j Hj. simpl in *.
  rewrite decide_True by lia. apply list_lookup_lookup_total_lt. lia.
Qed.

Lemma segment_rows_fmap {A : Type} (f : A → list R) (g : A → Z) (l : list A) i :
  segment_rows (f <$> l) (g <$> l) i = f <$> filter (λ e, g e = i) l.
Proof.
  unfold segment_rows. induction l as [|e l IH]; [done|].
  rewrite !fmap_cons. simpl zip. rewrite !filter_cons. simpl.
  destruct (decide (g e = i)); csimpl; by rewrite IH.
Qed.

Lemma edges_of_fst {A : Type} (pairs : list (Z * Z)) (bf : list A) :
  length bf = length pairs → (edges_of pairs bf).*1 = pairs.
Proof. intros H. apply fst_zip. lia. Qed.

Lemma edges_of_snd {A : Type} (pairs : list (Z * Z)) (bf : list A) :
  length bf = length pairs → (edges_of pairs bf).*2 = bf.
Proof. intros H. apply snd_zip. lia. Qed.

(** The rows [EdgeNetwork.call] returns. *)
Lemma EdgeNetwork_call_rows (self : EdgeNetwork) x bf pairs :
  length bf = length pairs →
  Forall (pair_in_range 0 (Z.of_nat (length x))) pairs →
  non_decreasing pairs.*1 →
  call self x bf pairs
  = Some ((λ i, vsum (atom_dim self)
                  (msg self x
                     <$> edges_from (Z.of_nat i) (edges_of pairs bf)))
            <$> seq 0 (num_segments pairs.*1)).
Proof.
  intros Hlen Hrange Hsorted. unfold EdgeNetwork_call.
  rewrite gather_rows_valid.
  2:{ apply Forall_fmap. eapply Forall_impl; [exact Hrange|].
      intros e [_ He]. exact He. }
  rewrite bind_Some. unfold batch_matvec.
  rewrite decide_True by by rewrite !length_fmap.
  rewrite bind_Some. unfold segment_sum. rewrite decide_True.
  2:{ split; [|split; [done|]].
      - rewrite length_zip_with, !length_fmap. lia.
      - apply Forall_fmap. eapply Forall_impl; [exact Hrange|].
        intros e [He _]. simpl. lia. }
  f_equal. apply list_fmap_ext. intros _ i _. f_equal.
  set (es := edges_of pairs bf).
  assert (Hdata : zip_with (matvec Rzero Radd Rmul)
                    (edge_matrix Rzero Radd Rmul self <$> bf)
                    ((λ j, x !!! Z.to_nat j) <$> pairs.*2)
                  = msg self x <$> es).
  { rewrite <-(edges_of_fst pairs bf Hlen) at 1.
    rewrite <-(edges_of_snd pairs bf Hlen) at 1. fold es.
    rewrite <-!list_fmap_compose.
    rewrite zip_with_fmap_l, zip_with_fmap_r, zip_with_diag. done. }
  rewrite Hdata. rewrite <-(edges_of_fst pairs bf Hlen) at 1. fold es.
  rewrite <-list_fmap_compose. apply segment_rows_fmap.
Qed.

Lemma vsum_nil d : vsum d [] = zeros d.
Proof. done. Qed.



Lemma sorted_last_max (ids : list Z) (m : Z) :
  non_decreasing ids → m ∈ ids → Forall (λ i, i ≤ m) ids → last ids = Some m.
Proof.
  intros Hs Hm Hall. apply Sorted_StronglySorted in Hs; [|apply _].
  induction ids as [|i ids IH] using rev_ind; [by apply elem_of_nil in Hm|].
  rewrite last_snoc. f_equal.
  apply Forall_app in Hall as [Hall Hi]. apply Forall_inv in Hi.
  apply elem_of_app in Hm as [Hm|Hm].
  - apply StronglySorted_app in Hs as (Hle & _ & _).
    specialize (Hle m i Hm). rewrite list_elem_of_singleton in Hle.
    specialize (Hle eq_refl). simpl in *. lia.
  - by apply list_elem_of_singleton in Hm.
Qed.

Lemma num_segments_full (ids : list Z) (n : nat) :
  non_decreasing ids →
  Forall (λ i, 0 ≤ i < Z.of_nat n) ids →
  (∀ i, 0 ≤ i < Z.of_nat n → i ∈ ids) →
  num_segments ids = n.
Proof.
  intros Hs Hall Hcover. destruct n as [|n].
  - destruct ids as [|i ids]; [done|].
    apply Forall_cons in Hall as [Hi _]. lia.
  - unfold num_segments.
    rewrite (sorted_last_max ids (Z.of_nat n)); [lia|done|apply Hcover; lia|].
    eapply Forall_impl; [exact Hall|]. intros i Hi. simpl in *. lia.
Qed.

End aggregation.

(** ** Relabelled graphs *)

Lemma edges_of_relabel {A : Type} (p : Z → Z) (pairs : list (Z * Z)) : ∀ bf : list A,
  edges_of (relabel p <$> pairs) bf = relabel_edge p <$> edges_of pairs bf.
Proof.
  unfold edges_of. induction pairs as [|e pairs IH]; intros [|b bf]; try done.
  csimpl. by rewrite IH.
Qed.

Lemma edges_from_relabel {A : Type} (p : Z → Z) (n : Z) (es : list ((Z * Z) * A)) i :
  permutation_of n p → 0 ≤ i < n →
  Forall (λ e, 0 ≤ e.1.1 < n) es →
  edges_from (p i) (relabel_edge p <$> es) = relabel_edge p <$> edges_from i es.
Proof.
  intros (_ & Hinj & _) Hi Hall. unfold edges_from.
  induction Hall as [|e es He Hes IH]; [done|].
  rewrite fmap_cons, !filter_cons. simpl.
  destruct (decide (p e.1.1 = p i)) as [Heq|Hne].
  - apply Hinj in Heq; [|done..]. rewrite decide_True by done.
    rewrite fmap_cons. by rewrite IH.
  - rewrite decide_False; [exact IH|]. intros Heq. apply Hne. by rewrite Heq.
Qed.

Lemma elem_of_edges_from {A : Type} (es : list ((Z * Z) * A)) e :
  e ∈ es ↔ e ∈ edges_from e.1.1 es.
Proof.
  unfold edges_from. rewrite list_elem_of_filter.
  split; [by intros He | by intros [_ He]].
Qed.

Lemma edges_of_range {A : Type} (n : Z) (pairs : list (Z * Z)) (bf : list A) :
  Forall (pair_in_range 0 n) pairs →
  Forall (λ e, pair_in_range 0 n e.1) (edges_of pairs bf).
Proof.
  intros Hall. apply Forall_forall. intros [e b] He.
  apply elem_of_zip_l in He. by apply (proj1 (Forall_forall _ _) Hall).
Qed.

Lemma relabelled_graph_elem {A : Type} p (pairs pairs' : list (Z * Z))
    (bf bf' : list A) e' :
  relabelled_graph p pairs bf pairs' bf' →
  e' ∈ edges_of pairs' bf' ↔ e' ∈ relabel_edge p <$> edges_of pairs bf.
Proof.
  intros (_ & _ & Hfrom).
  rewrite (elem_of_edges_from (edges_of pairs' bf')), Hfrom, edges_of_relabel.
  by rewrite <-elem_of_edges_from.
Qed.

Lemma relabelled_graph_accepted {A : Type} p n (pairs pairs' : list (Z * Z))
    (bf bf' : list A) :
  permutation_of (Z.of_nat n) p →
  graph_accepted n pairs bf →
  relabelled_graph p pairs bf pairs' bf' →
  graph_accepted n pairs' bf'.
Proof.
  intros Hp (Hlen & Hrange & Hsorted & Hcover) Hrel.
  pose proof Hrel as (Hlen' & Hsorted' & Hfrom).
  pose proof Hp as (Hp1 & Hinj & Hsurj).
  split; [done|]. split; [|split; [done|]].
  - apply Forall_forall. intros e' He'.
    rewrite <-(edges_of_fst pairs' bf' Hlen') in He'.
    apply list_elem_of_fmap in He' as ([e1 b1] & -> & He1).
    apply (relabelled_graph_elem p pairs pairs' bf bf') in He1; [|done].
    apply list_elem_of_fmap in He1 as ([e b] & [= -> ->] & He).
    apply (proj1 (Forall_forall _ _) (edges_of_range _ _ _ Hrange)) in He.
    destruct He as [H1 H2]. simpl in *. split; simpl; by apply Hp1.
  - intros j Hj. destruct (Hsurj j Hj) as (i & Hi & <-).
    specialize (Hcover i Hi).
    rewrite <-(edges_of_fst pairs bf Hlen) in Hcover.
    rewrite <-list_fmap_compose in Hcover.
    apply list_elem_of_fmap in Hcover as ([e b] & Hsrc & He). simpl in Hsrc.
    assert (He' : relabel_edge p (e, b) ∈ edges_of pairs' bf').
    { apply (relabelled_graph_elem p pairs pairs' bf bf'); [done|].
      by apply list_elem_of_fmap_2. }
    rewrite <-(edges_of_fst pairs' bf' Hlen'), <-list_fmap_compose.
    apply list_elem_of_fmap. exists (relabel_edge p (e, b)).
    split; [|done]. simpl. by rewrite Hsrc.
Qed.

Lemma rows_permuted_total {A : Type} `{!Inhabited A} p (x x' : list A) i :
  rows_permuted p x x' → 0 ≤ i < Z.of_nat (length x) →
  x' !!! Z.to_nat (p i) = x !!! Z.to_nat i.
Proof.
  intros [_ Hrows] Hi. rewrite !list_lookup_total_alt. by rewrite Hrows.
Qed.

Lemma rows_permuted_fmap {A B : Type} (f : A → B) p (x x' : list A) :
  rows_permuted p x x' → rows_permuted p (f <$> x) (f <$> x').
Proof.
  intros [Hlen Hrows]. split; [by rewrite !length_fmap|].
  intros i Hi. rewrite length_fmap in Hi.
  by rewrite !list_lookup_fmap, Hrows.
Qed.

Section equivariance.
Context {R : Type} (Rzero : R) (Radd Rmul : R → R → R).

Local Abbreviation step := (message_passing_step Rzero Radd Rmul).
Local Abbreviation mp_call := (MessagePassing_call Rzero Radd Rmul).
Local Abbreviation msg := (message Rzero Radd Rmul).

Lemma message_relabel (net : EdgeNetwork) p (x x' : list (list R)) e :
  rows_permuted p x x' → 0 ≤ e.1.2 < Z.of_nat (length x) →
  msg net x' (relabel_edge p e) = msg net x e.
Proof.
  intros Hrows He. unfold message. simpl.
  by rewrite (rows_permuted_total p x x').
Qed.

Lemma aggregation_equivariant (net : EdgeNetwork) p (x x' : list (list R))
    bf pairs bf' pairs' :
  permutation_of (Z.of_nat (length x)) p →
  rows_permuted p x x' →
  graph_accepted (length x) pairs bf →
  relabelled_graph p pairs bf pairs' bf' →
  ∃ a a',
    EdgeNetwork_call Rzero Radd Rmul net x bf pairs = Some a
    ∧ EdgeNetwork_call Rzero Radd Rmul net x' bf' pairs' = Some a'
    ∧ length a = length x
    ∧ rows_permuted p a a'.
Proof.
  intros Hp Hrows Hacc Hrel.
  pose proof (relabelled_graph_accepted p _ _ _ _ _ Hp Hacc Hrel) as Hacc'.
  destruct Hacc as (Hlen & Hrange & Hsorted & Hcover).
  destruct Hacc' as (Hlen' & Hrange' & Hsorted' & Hcover').
  pose proof Hrows as [Hxlen Hxrows].
  assert (Hsrc : ∀ (ps : list (Z * Z)),
            Forall (pair_in_range 0 (Z.of_nat (length x))) ps →
            Forall (λ i, 0 ≤ i < Z.of_nat (length x)) ps.*1).
  { intros ps Hps. apply Forall_fmap. eapply Forall_impl; [exact Hps|].
    intros e [He _]. exact He. }
  rewrite EdgeNetwork_call_rows by done.
  rewrite EdgeNetwork_call_rows by (done || by rewrite Hxlen).
  rewrite !(num_segments_full _ (length x)) by auto.
  eexists _, _. split; [done|]. split; [done|].
  split; [by rewrite length_fmap, length_seq|].
  split; [by rewrite !length_fmap|].
  intros i Hi. rewrite length_fmap, length_seq in Hi.
  destruct Hp as (Hp1 & Hinj & Hsurj). pose proof (Hp1 i Hi) as Hpi.
  rewrite !list_lookup_fmap, !lookup_seq_lt by lia. simpl. f_equal. f_equal.
  rewrite !Z2Nat.id by lia.
  destruct Hrel as (_ & _ & Hfrom). rewrite Hfrom, edges_of_relabel.
  rewrite (edges_from_relabel p (Z.of_nat (length x))); [|done|done|].
  2:{ eapply Forall_impl; [apply (edges_of_range _ _ _ Hrange)|].
      intros e [He _]. exact He. }
  rewrite <-list_fmap_compose. apply Forall_fmap_ext_1.
  apply Forall_forall. intros e He.
  apply list_elem_of_filter in He as [_ He].
  apply (proj1 (Forall_forall _ _) (edges_of_range _ _ _ Hrange)) in He.
  destruct He as [_ He]. simpl. by apply message_relabel.
Qed.

Lemma step_equivariant (self : MessagePassing) p (x x' : list (list R))
    bf pairs bf' pairs' :
  permutation_of (Z.of_nat (length x)) p →
  rows_permuted p x x' →
  graph_accepted (length x) pairs bf →
  relabelled_graph p pairs bf pairs' bf' →
  ∃ y y',
    step self bf pairs x = Some y
    ∧ step self bf' pairs' x' = Some y'
    ∧ length y = length x
    ∧ rows_permuted p y y'.
Proof.
  intros Hp Hrows Hacc Hrel.
  destruct (aggregation_equivariant (message_step self) p x x' bf pairs
              bf' pairs' Hp Hrows Hacc Hrel)
    as (a & a' & Ha & Ha' & Hlen & [Halen Harows]).
  destruct Hrows as [Hxlen Hxrows].
  unfold message_passing_step. rewrite Ha, Ha', !bind_Some.
  unfold GRUCell_call. rewrite !decide_True by congruence.
  eexists _, _. split; [done|]. split; [done|].
  split; [rewrite length_zip_with; lia|].
  split; [rewrite !length_zip_with; lia|].
  intros i Hi. rewrite length_zip_with in Hi.
  rewrite !lookup_zip_with. rewrite Harows, Hxrows by lia. done.
Qed.

Lemma iterate_equivariant (self : MessagePassing) p bf pairs bf' pairs' n :
  ∀ (x x' : list (list R)),
  permutation_of (Z.of_nat (length x)) p →
  rows_permuted p x x' →
  graph_accepted (length x) pairs bf →
  relabelled_graph p pairs bf pairs' bf' →
  ∃ y y',
    iterate n (step self bf pairs) x = Some y
    ∧ iterate n (step self bf' pairs') x' = Some y'
    ∧ rows_permuted p y y'.
Proof.
  induction n as [|n IH]; intros x x' Hp Hrows Hacc Hrel.
  - exists x, x'. done.
  - destruct (step_equivariant self p x x' bf pairs bf' pairs'
                Hp Hrows Hacc Hrel) as (y & y' & Hy & Hy' & Hlen & Hrows1).
    simpl. rewrite Hy, Hy', !bind_Some.
    apply IH; rewrite ?Hlen; done.
Qed.

(** C5, as the code has it.  Take a layer built for the widths of the
    features of a graph it accepts, and relabel the nodes of the graph by a
    permutation [p]: reorder the rows of the node features by [p], rewrite
    every edge [(src, dst)] to [(p src, p dst)], and put the rewritten
    edges, each with its features, in an order in which the sources do not
    decrease and edges with the same source keep their order.  Message
    passing on the relabelled graph returns the node states of the original
    run with the rows reordered by [p]. *)
Theorem message_passing_equivariant (self : MessagePassing) (p : Z → Z)
    (atom_features atom_features' : list (list R))
    (bond_features bond_features' : list (list R))
    (pair_indices pair_indices' : list (Z * Z)) :
  widths_fit self atom_features bond_features →
  permutation_of (Z.of_nat (length atom_features)) p →
  rows_permuted p atom_features atom_features' →
  graph_accepted (length atom_features) pair_indices bond_features →
  relabelled_graph p pair_indices bond_features pair_indices' bond_features' →
  ∃ states states',
    mp_call self atom_features bond_features pair_indices = Some states
    ∧ mp_call self atom_features' bond_features' pair_indices' = Some states'
    ∧ rows_permuted p states states'.
Proof.
  intros _ Hp Hrows Hacc Hrel. unfold MessagePassing_call.
  apply iterate_equivariant; unfold pad_columns; rewrite ?length_fmap;
    try done.
  by apply rows_permuted_fmap.
Qed.
End equivariance.


(** ** Sample networks and graphs *)

Lemma swap_permutation : permutation_of 2 swap.
Proof.
  unfold swap. split; [|split].
  - intros i Hi. lia.
  - intros i j Hi Hj Heq. lia.
  - intros j Hj. exists (1 - j). lia.
Defined.

Lemma swap_rows {A : Type} (a b : A) : rows_permuted swap [a; b] [b; a].
Proof.
  split; [done|]. intros i Hi. simpl in Hi. unfold swap.
  assert (Hc : i = 0 ∨ i = 1) by lia. destruct Hc as [-> | ->]; reflexivity.
Defined.

Lemma sample_network_built : EdgeNetwork_built sample_network.
Proof. split; [done|]. split; [|done]. by repeat constructor. Qed.

Lemma sample_layer_built : MessagePassing_built sample_layer.
Proof.
  split; [done|]. split; [apply sample_network_built|].
  intros input state Hi Hs. simpl in *. rewrite length_zip_with. lia.
Qed.


(** C5, a graph on which the claim fails: two nodes with their self-loops,
    the two nodes exchanged, and a layer built for their features.  The
    rewritten edge list has its sources in decreasing order and the
    aggregation refuses it. *)
Lemma message_passing_equivariant_counterexample :
  permutation_of 2 swap
  ∧ rows_permuted swap [[1%Q]; [2%Q]] [[2%Q]; [1%Q]]
  ∧ graph_accepted 2 [(0, 0); (1, 1)] [[1%Q]; [1%Q]]
  ∧ widths_fit sample_layer [[1%Q]; [2%Q]] [[1%Q]; [1%Q]]
  ∧ (relabel swap <$> [(0, 0); (1, 1)]).*1 = [1; 0]
  ∧ MessagePassing_call 0%Q Qplus Qmult sample_layer [[2%Q]; [1%Q]]
      [[1%Q]; [1%Q]] (relabel swap <$> [(0, 0); (1, 1)]) = None
  ∧ ¬ equivariance_claim 0%Q Qplus Qmult sample_layer swap
        [[1%Q]; [2%Q]] [[2%Q]; [1%Q]] [[1%Q]; [1%Q]] [(0, 0); (1, 1)].
Proof.
  split; [apply swap_permutation|]. split; [apply swap_rows|]. split.
  { split; [done|]. split; [|split].
    + repeat first [simpl; lia | constructor].
    + repeat first [simpl; lia | constructor].
    + intros i Hi. assert (Hc : i = 0 ∨ i = 1) by lia.
      destruct Hc as [-> | ->]; apply (bool_decide_unpack _); vm_compute;
        exact I. }
  split.
  { split; [apply sample_layer_built|]. split; by repeat constructor. }
  split; [reflexivity|]. split; [vm_compute; reflexivity|].
  intros (states & states' & _ & Hcall & _).
  vm_compute in Hcall. discriminate Hcall.
Qed.


Lemma message_passing_equivariant_witness :
  ∃ states states',
    MessagePassing_call 0%Q Qplus Qmult sample_layer
      [[1%Q]; [2%Q]] [[1%Q]; [2%Q]; [3%Q]] [(0, 0); (0, 1); (1, 1)]
    = Some states
    ∧ MessagePassing_call 0%Q Qplus Qmult sample_layer
        [[2%Q]; [1%Q]] [[3%Q]; [1%Q]; [2%Q]] [(0, 0); (1, 1); (1, 0)]
      = Some states'
    ∧ rows_permuted swap states states'.
Proof.
  apply (message_passing_equivariant 0%Q Qplus Qmult sample_layer swap).
  - split; [apply sample_layer_built|]. split; by repeat constructor.
  - apply swap_permutation.
  - apply swap_rows.
  - split; [reflexivity|]. split; [|split].
    + repeat first [simpl; lia | constructor].
    + repeat first [simpl; lia | constructor].
    + intros i Hi. simpl in Hi. assert (Hc : i = 0 ∨ i = 1) by lia.
      destruct Hc as [-> | ->]; apply (bool_decide_unpack _); vm_compute;
        exact I.
  - split; [reflexivity|]. split.
    + repeat first [simpl; lia | constructor].
    + intros t. unfold edges_from, edges_of, relabel, swap. simpl.
      rewrite !filter_cons, !filter_nil. simpl.
      repeat case_decide; try lia; reflexivity.
Defined.


(** ** Instances of the theorems *)

Lemma graph_from_molecule_counts_witness :
  molecule_ok ethanol
  ∧ ∃ g,
      graph_from_molecule ethanol = Some g
      ∧ length (atom_features g) = 3%nat
      ∧ length (pair_indices g) = 7%nat
      ∧ length (bond_features g) = 7%nat.
Proof.
  assert (Hok : molecule_ok ethanol).
  { apply (bool_decide_unpack _). vm_compute. exact I. }
  split; [exact Hok|].
  destruct (graph_from_molecule_counts ethanol Hok)
    as (g & Hg & Hatoms & Hpairs & Hbonds & _).
  exists g. split; [exact Hg|]. split; [exact Hatoms|].
  split; [exact Hpairs|]. rewrite Hbonds. exact Hpairs.
Defined.

Lemma prepare_batch_offsets_witness :
  ∃ out,
    prepare_batch [pair_graph; single_graph] [true; false]
    = Some (out, [true; false])
    ∧ g_pair_indices out = [(0, 0); (0, 1); (1, 1); (1, 0); (2, 2)].
Proof.
  destruct (prepare_batch_offsets [pair_graph; single_graph] [true; false])
    as (out & Hout & Hpairs & _).
  - discriminate.
  - repeat constructor; discriminate.
  - apply Exists_cons_hd. discriminate.
  - repeat constructor.
  - apply (bool_decide_unpack _). vm_compute. exact I.
  - exists out. split; [exact Hout|]. rewrite Hpairs. reflexivity.
Defined.

Lemma prepare_batch_indices_valid_witness :
  ∃ out,
    prepare_batch [pair_graph; single_graph] [true; false]
    = Some (out, [true; false])
    ∧ Forall (pair_in_range 0 (Z.of_nat (length (g_atom_features out))))
             (g_pair_indices out)
    ∧ length (g_pair_indices out) = 5%nat.
Proof.
  destruct (prepare_batch_indices_valid [pair_graph; single_graph] [true; false])
    as (out & Hout & Hvalid & Hlen & _).
  - discriminate.
  - repeat constructor.
  - apply (bool_decide_unpack _). vm_compute. exact I.
  - exists out. split; [exact Hout|]. split; [exact Hvalid|exact Hlen].
Defined.

Lemma prepare_batch_append_witness :
  ∃ merged_ab again direct,
    prepare_batch [pair_graph; single_graph] [true; false]
    = Some (merged_ab, [true; false])
    ∧ prepare_batch [as_graph merged_ab; pair_graph] [true; false]
      = Some (again, [true; false])
    ∧ prepare_batch [pair_graph; single_graph; pair_graph] [true; false]
      = Some (direct, [true; false])
    ∧ g_pair_indices again = g_pair_indices direct
    ∧ g_atom_partition_indices again = [0; 0; 0; 1; 1]%nat
    ∧ g_atom_partition_indices direct = [0; 0; 1; 2; 2]%nat.
Proof.
  destruct (prepare_batch_append pair_graph single_graph pair_graph
              [true; false])
    as (merged_ab & again & direct & Hab & Hagain & Hdirect & Hpairs & _ & _
        & Hm & Hd & _).
  - repeat constructor.
  - apply (bool_decide_unpack _). vm_compute. exact I.
  - repeat constructor; discriminate.
  - exists merged_ab, again, direct.
    split; [exact Hab|]. split; [exact Hagain|]. split; [exact Hdirect|].
    split; [exact Hpairs|]. split; [exact Hm|exact Hd].
Defined.

(** C4, three graphs on which the claim fails: the second merge numbers
    the merged batch 0 and the third graph 1. *)
Lemma prepare_batch_append_counterexample :
  ¬ append_claim pair_graph single_graph pair_graph [true; false].
Proof.
  intros (merged_ab & again & direct & Hab & Hagain & Hdirect & _ & Hm).
  vm_compute in Hab. injection Hab as <-.
  vm_compute in Hagain. injection Hagain as <-.
  vm_compute in Hdirect. injection Hdirect as <-.
  vm_compute in Hm. discriminate Hm.
Qed.

Lemma prepare_batch_membership_witness :
  ∃ out,
    prepare_batch [pair_graph; single_graph; pair_graph] [true; false; true]
    = Some (out, [true; false; true])
    ∧ g_atom_partition_indices out = [0; 0; 1; 2; 2]%nat
    ∧ Sorted le (g_atom_partition_indices out).
Proof.
  destruct (prepare_batch_membership [pair_graph; single_graph; pair_graph]
              [true; false; true])
    as (out & Hout & Hmem & Hsorted & _).
  - discriminate.
  - repeat constructor.
  - repeat constructor; discriminate.
  - exists out. split; [exact Hout|]. split; [|exact Hsorted].
    rewrite Hmem. reflexivity.
Defined.

Lemma source_column_sorted_witness :
  ∃ x_batch out,
    mapM graph_from_molecule [ethanol; methane] = Some x_batch
    ∧ prepare_batch x_batch [true; false] = Some (out, [true; false])
    ∧ non_decreasing (g_pair_indices out).*1.
Proof.
  apply (proj2 source_column_sorted (list bool) [ethanol; methane] [true; false]).
  discriminate.
Defined.

Lemma encode_out_of_vocabulary_witness :
  ∃ output feature_mapping,
    encode AtomFeaturizer_getattr (Featurizer_init small_allowable_sets) selenium
    = Some output
    ∧ features_mapping (Featurizer_init small_allowable_sets) !! 0%nat
      = Some ("symbol"%string, feature_mapping)
    ∧ (∀ v, v ∈ strs ["C"; "N"; "O"]%string ↔ is_Some (feature_mapping !! v))
    ∧ (∀ v slot, feature_mapping !! v = Some slot → output !! slot = Some 0%Q)
    ∧ for_each (encode_step AtomFeaturizer_getattr selenium)
               (np_zeros (dim (Featurizer_init small_allowable_sets)))
               (delete 0%nat
                  (features_mapping (Featurizer_init small_allowable_sets)))
      = Some output.
Proof.
  apply (encode_out_of_vocabulary AtomFeaturizer_getattr small_allowable_sets
           selenium 0 "symbol" (strs ["C"; "N"; "O"]%string)
           (λ atom, VStr (GetSymbol atom))).
  - repeat constructor; vm_compute; eauto.
  - reflexivity.
  - reflexivity.
  - apply (bool_decide_unpack _). vm_compute. exact I.
Defined.

Lemma encode_in_vocabulary_witness :
  ∃ output,
    encode AtomFeaturizer_getattr (Featurizer_init small_allowable_sets)
           (carbon_sp3 0) = Some output
    ∧ length output = 10%nat.
Proof.
  destruct (encode_in_vocabulary AtomFeaturizer_getattr small_allowable_sets
              (carbon_sp3 0)) as (output & Hout & Hlen & _).
  - repeat constructor; eexists; (split; [reflexivity|]);
      apply (bool_decide_unpack _); vm_compute; exact I.
  - exists output. split; [exact Hout|]. rewrite Hlen. vm_compute. reflexivity.
Defined.

(** The worked example: ethanol has three atoms and two bonds. *)
Example ethanol_edges :
  pair_indices <$> graph_from_molecule ethanol
  = Some [(0, 0); (0, 1); (1, 1); (1, 0); (1, 2); (2, 2); (2, 1)].
Proof. vm_compute. reflexivity. Qed.

(** A carbon atom with four bonds, no hydrogen and an [sp3] shell sets one
    slot in each of the four categories of the atom featurizer. *)
Example carbon_row :
  AtomFeaturizer_encode atom_featurizer (carbon_sp3 0)
  = Some (np_zeros 2 ++ [1%Q] ++ np_zeros 10          (* symbol C *)
            ++ np_zeros 4 ++ [1%Q] ++ np_zeros 2      (* valence 4 *)
            ++ [1%Q] ++ np_zeros 4                    (* no hydrogen *)
            ++ np_zeros 3 ++ [1%Q]).                  (* sp3 *)
Proof. vm_compute. reflexivity. Qed.

(** A self-loop sets the last slot of the bond features only. *)
Example self_loop_row :
  BondFeaturizer_encode bond_featurizer None = Some (np_zeros 6 ++ [1%Q]).
Proof. vm_compute. reflexivity. Qed.

(** An empty batch has no first graph: [num_bonds[0]] raises. *)
Example prepare_batch_empty : prepare_batch [] [true] = None.
Proof. reflexivity. Qed.

(** A graph with fewer rows of bond features than index pairs does not
    merge: the increments and the index pairs do not broadcast. *)
Example prepare_batch_mismatch :
  prepare_batch
    [ {| atom_features := [[1%Q]; [1%Q]];
         bond_features := [[1%Q]; [1%Q]];
         pair_indices := [(0, 0); (0, 1); (1, 1)] |};
      single_graph ] [true; false]
  = None.
Proof. reflexivity. Qed.

(** Segment ids out of order are refused. *)
Example segment_sum_unsorted :
  segment_sum 0%Q Qplus 1 [[1%Q]; [2%Q]] [1; 0] = None.
Proof. reflexivity. Qed.

(** A segment id that does not occur gets a row of zeros. *)
Example segment_sum_gap :
  segment_sum 0%Q Qplus 1 [[1%Q]; [2%Q]] [0; 2] = Some [[1%Q]; [0%Q]; [2%Q]].
Proof. vm_compute. reflexivity. Qed.

(** * Further properties *)

(** ** More on the featurizers *)

Section featurizer_more.
Context {Item : Type} (getattr : string → option (Item → value)).

Lemma blocks_inj (x y : Item) sets :
  class_ok getattr sets →
  concat (block getattr x <$> sets) = concat (block getattr y <$> sets) →
  Forall (λ ks, block getattr x ks = block getattr y ks) sets.
Proof.
  induction 1 as [|ks rest Hks Hrest IH]; csimpl; intros Heq; [constructor|].
  apply app_inj_1 in Heq as [H1 H2]; [|by rewrite !block_length].
  constructor; [done|by apply IH].
Qed.

Lemma one_hot_inj (l : list value) (u v : value) :
  u ∈ l → one_hot l u = one_hot l v → u = v.
Proof.
  intros Hu Heq. apply list_elem_of_lookup_1 in Hu as [i Hi].
  pose proof (one_hot_lookup l u i u Hi) as H1.
  pose proof (one_hot_lookup l v i u Hi) as H2.
  rewrite Heq, H2 in H1. destruct (decide (u = v)) as [|Hne]; [done|].
  rewrite decide_True in H1 by done. by injection H1.
Qed.

(** X1.  Two items whose values are all in the vocabulary and whose
    encodings are equal have the same value in every category: the encoding
    loses nothing on the vocabulary. *)
Theorem encode_injective_in_vocabulary
    (sets : list (string * gset value)) (x y : Item) :
  Forall (λ ks, ∃ extractor,
            getattr ks.1 = Some extractor
            ∧ extractor x ∈ ks.2 ∧ extractor y ∈ ks.2) sets →
  encode getattr (Featurizer_init sets) x
  = encode getattr (Featurizer_init sets) y →
  Forall (λ ks, ∀ extractor,
            getattr ks.1 = Some extractor → extractor x = extractor y) sets.
Proof.
  intros Hall Heq.
  assert (Hok : class_ok getattr sets).
  { eapply Forall_impl; [exact Hall|]. intros ks (ext & Hext & _). eauto. }
  rewrite !encode_init in Heq by done. injection Heq as Heq.
  apply blocks_inj in Heq; [|done].
  apply Forall_forall. intros ks Hks ext Hext.
  pose proof (proj1 (Forall_forall _ _) Hall ks Hks) as (ext' & Hext' & Hx & _).
  pose proof (proj1 (Forall_forall _ _) Heq ks Hks) as Hblock.
  simpl in *. rewrite Hext in Hext'. injection Hext' as <-.
  unfold block in Hblock. rewrite Hext in Hblock.
  eapply one_hot_inj; [|exact Hblock]. by apply elem_of_sorted.
Qed.
End featurizer_more.

(** *** The slot of absent bonds *)

Lemma BondFeaturizer_encode_bond sets bond :
  class_ok BondFeaturizer_getattr sets →
  BondFeaturizer_encode (BondFeaturizer_init sets) (Some bond)
  = Some (concat (block BondFeaturizer_getattr bond <$> sets) ++ [0%Q]).
Proof.
  intros Hok. unfold BondFeaturizer_encode, BondFeaturizer_init, encode.
  rewrite Featurizer_init_spec. simpl dim. simpl features_mapping.
  rewrite np_zeros_add.
  apply (encode_loop_blocks BondFeaturizer_getattr bond sets [] [0%Q] Hok).
Qed.

Lemma BondFeaturizer_encode_none sets :
  BondFeaturizer_encode (BondFeaturizer_init sets) None
  = Some (np_zeros (total_dim sets) ++ [1%Q]).
Proof.
  unfold BondFeaturizer_encode, BondFeaturizer_init.
  rewrite Featurizer_init_spec. simpl dim.
  rewrite decide_False by lia. rewrite np_zeros_add.
  replace (total_dim sets + 1 - 1)%nat
    with (length (np_zeros (total_dim sets)))
    by (rewrite length_np_zeros; lia).
  apply setitem_last.
Qed.

(** X2.  [BondFeaturizer.encode] keeps the last slot for the absent bond:
    for [None] it is the only slot set, for a bond it is never set and the
    slots before it are the encoding of the base class. The features of a
    self-loop are therefore never those of a bond. *)
Theorem bond_encode_last_slot (sets : list (string * gset value)) (bond : Bond) :
  class_ok BondFeaturizer_getattr sets →
  ∃ absent present base,
    BondFeaturizer_encode (BondFeaturizer_init sets) None = Some absent
    ∧ BondFeaturizer_encode (BondFeaturizer_init sets) (Some bond) = Some present
    ∧ encode BondFeaturizer_getattr (Featurizer_init sets) bond = Some base
    ∧ length absent = dim (BondFeaturizer_init sets)
    ∧ length present = dim (BondFeaturizer_init sets)
    ∧ dim (BondFeaturizer_init sets) = S (dim (Featurizer_init sets))
    ∧ absent = replicate (dim (Featurizer_init sets)) 0%Q ++ [1%Q]
    ∧ present = base ++ [0%Q]
    ∧ absent ≠ present.
Proof.
  intros Hok.
  exists (np_zeros (total_dim sets) ++ [1%Q]),
         (concat (block BondFeaturizer_getattr bond <$> sets) ++ [0%Q]),
         (concat (block BondFeaturizer_getattr bond <$> sets)).
  split; [apply BondFeaturizer_encode_none|].
  split; [by apply BondFeaturizer_encode_bond|].
  split; [by apply encode_init|].
  unfold BondFeaturizer_init. rewrite Featurizer_init_spec. simpl dim.
  split; [rewrite length_app, length_np_zeros; simpl; lia|].
  split; [rewrite length_app, blocks_length by done; simpl; lia|].
  split; [lia|]. split; [done|]. split; [done|].
  intros Heq. apply app_inj_2 in Heq as [_ Heq]; [discriminate|done].
Qed.

(** *** How many slots are set *)



Lemma count_ones_app l k : count_ones (l ++ k) = (count_ones l + count_ones k)%nat.
Proof. unfold count_ones. by rewrite filter_app, length_app. Qed.

Lemma count_ones_one_hot (l : list value) (v : value) :
  NoDup l → count_ones (one_hot l v) = if decide (v ∈ l) then 1%nat else 0%nat.
Proof.
  induction 1 as [|u l Hu Hnd IH]; [done|].
  rewrite one_hot_cons. change (?a :: ?b) with ([a] ++ b).
  rewrite count_ones_app, IH.
  destruct (decide (u = v)) as [->|Hne].
  - rewrite (decide_True (P := v ∈ v :: l)) by by left.
    by rewrite decide_False.
  - destruct (decide (v ∈ l)).
    + rewrite (decide_True (P := v ∈ u :: l)) by by right. done.
    + rewrite (decide_False (P := v ∈ u :: l)); [done|].
      intros [?|?]%elem_of_cons; congruence.
Qed.

Lemma one_hot_binary (l : list value) (v : value) :
  Forall (λ q, q = 0%Q ∨ q = 1%Q) (one_hot l v).
Proof.
  unfold one_hot. apply Forall_fmap, Forall_forall. intros u _. simpl.
  case_decide; auto.
Qed.

Section encode_ones.
Context {Item : Type} (getattr : string → option (Item → value)).

(** X3.  Whatever the item, every entry of its encoding is 0 or 1, and as
    many entries are 1 as there are categories in which the value of the
    item is an allowed one. *)
Theorem encode_count_ones (sets : list (string * gset value)) (inputs : Item) :
  class_ok getattr sets →
  ∃ output,
    encode getattr (Featurizer_init sets) inputs = Some output
    ∧ Forall (λ q, q = 0%Q ∨ q = 1%Q) output
    ∧ count_ones output
      = length (filter (in_vocabulary getattr inputs) sets).
Proof.
  intros Hok. exists (concat (block getattr inputs <$> sets)).
  split; [by apply encode_init|].
  induction Hok as [|ks rest [ext Hext] Hrest [IH1 IH2]]; csimpl.
  - split; [constructor|done].
  - assert (Hb : block getattr inputs ks = one_hot (sorted ks.2) (ext inputs)).
    { unfold block. by rewrite Hext. }
    split.
    + apply Forall_app. split; [|done]. rewrite Hb. apply one_hot_binary.
    + rewrite count_ones_app, IH2, Hb, count_ones_one_hot
        by apply sorted_NoDup.
      assert (Hv : in_vocabulary getattr inputs ks ↔ ext inputs ∈ sorted ks.2).
      { unfold in_vocabulary. by rewrite Hext, elem_of_sorted. }
      destruct (decide (ext inputs ∈ sorted ks.2)) as [Hin|Hnin].
      * rewrite filter_cons_True by by apply Hv. done.
      * rewrite filter_cons_False by by rewrite Hv. done.
Qed.
End encode_ones.

(** ** More on the graph of a molecule *)


Lemma atom_edges_zip molecule idx :
  zip (atom_pairs molecule idx) (atom_bond_rows molecule idx)
  = atom_edges molecule idx.
Proof.
  unfold atom_pairs, atom_bond_rows, atom_edges. simpl. f_equal.
  induction (GetNeighbors molecule idx) as [|nb nbs IH]; csimpl; [done|].
  by rewrite IH.
Qed.

Lemma molecule_graph_edges molecule :
  zip (pair_indices (molecule_graph molecule))
      (bond_features (molecule_graph molecule))
  = concat (atom_edges molecule <$> seq 0 (GetNumAtoms molecule)).
Proof.
  unfold molecule_graph. cbn [pair_indices bond_features].
  induction (seq 0 (GetNumAtoms molecule)) as [|i l IH]; [done|].
  rewrite !fmap_cons, !concat_cons.
  rewrite <-atom_edges_zip, <-IH. apply zip_with_app.
  unfold atom_pairs, atom_bond_rows. simpl. by rewrite !length_fmap.
Qed.

Lemma elem_of_concat_fmap {A B : Type} (f : A → list B) (l : list A) y :
  y ∈ concat (f <$> l) ↔ ∃ x, x ∈ l ∧ y ∈ f x.
Proof.
  rewrite list_elem_of_In, in_concat. split.
  - intros (ys & Hys & Hy). apply list_elem_of_In in Hys.
    apply list_elem_of_fmap in Hys as (x & -> & Hx).
    exists x. split; [done|]. by apply list_elem_of_In.
  - intros (x & Hx & Hy). exists (f x). split.
    + by apply list_elem_of_In, list_elem_of_fmap_2.
    + by apply list_elem_of_In.
Qed.

Lemma elem_of_molecule_edges molecule (src dst : Z) (f : list Q) :
  ((src, dst), f) ∈ zip (pair_indices (molecule_graph molecule))
                        (bond_features (molecule_graph molecule))
  ↔ ∃ idx, (idx < GetNumAtoms molecule)%nat ∧ src = Z.of_nat idx
           ∧ ((dst = Z.of_nat idx ∧ f = bond_row None)
              ∨ ∃ neighbor,
                  neighbor ∈ GetNeighbors molecule idx
                  ∧ dst = Z.of_nat neighbor
                  ∧ f = bond_row (GetBondBetweenAtoms molecule idx neighbor)).
Proof.
  rewrite molecule_graph_edges, elem_of_concat_fmap. unfold atom_edges.
  split.
  - intros (idx & Hidx & He). apply elem_of_seq in Hidx.
    exists idx. split; [lia|].
    apply elem_of_cons in He as [He|He].
    + apply pair_eq in He as [He ->]. apply pair_eq in He as [-> ->]. auto.
    + apply list_elem_of_fmap in He as (nb & He & Hnb).
      apply pair_eq in He as [He ->]. apply pair_eq in He as [-> ->].
      split; [done|]. right. eauto.
  - intros (idx & Hidx & -> & He). exists idx.
    split; [apply elem_of_seq; lia|].
    destruct He as [[-> ->]|(nb & Hnb & -> & ->)]; [by left|right].
    apply list_elem_of_fmap. eauto.
Qed.

Lemma elem_of_GetNeighbors molecule idx neighbor :
  neighbor ∈ GetNeighbors molecule idx
  ↔ ∃ b, b ∈ mol_bonds molecule ∧ other_end idx b = Some neighbor.
Proof. apply list_elem_of_omap. Qed.

Lemma other_end_connects n idx b neighbor :
  bond_ok n b → other_end idx b = Some neighbor →
  connects idx neighbor b ∧ other_end neighbor b = Some idx
  ∧ neighbor ≠ idx ∧ (neighbor < n)%nat.
Proof.
  intros (Hb & He & Hne). unfold other_end, connects.
  repeat case_decide; intros [= <-]; subst; repeat split; auto; try congruence.
  all: repeat case_decide; try congruence.
Qed.

Lemma connects_sym i j b : connects i j b ↔ connects j i b.
Proof. unfold connects. tauto. Qed.

Lemma GetBondBetweenAtoms_sym molecule i j :
  GetBondBetweenAtoms molecule i j = GetBondBetweenAtoms molecule j i.
Proof.
  unfold GetBondBetweenAtoms. f_equal. apply list_filter_iff.
  intros b. apply connects_sym.
Qed.

Lemma GetBondBetweenAtoms_found molecule i j b :
  b ∈ mol_bonds molecule → connects i j b →
  ∃ b', GetBondBetweenAtoms molecule i j = Some b'
        ∧ b' ∈ mol_bonds molecule ∧ connects i j b'.
Proof.
  intros Hb Hc. unfold GetBondBetweenAtoms.
  destruct (filter (connects i j) (mol_bonds molecule)) as [|b' l] eqn:Hf.
  - exfalso. eapply (filter_nil_not_elem_of _ _ b); eauto.
  - exists b'. split; [done|].
    assert (Hin : b' ∈ filter (connects i j) (mol_bonds molecule)).
    { rewrite Hf. by left. }
    apply list_elem_of_filter in Hin as [? ?]. done.
Qed.

Lemma bond_row_absent bond : bond_row (Some bond) ≠ bond_row None.
Proof.
  simpl. intros Heq. apply app_inj_2 in Heq as [_ Heq]; [discriminate|done].
Qed.

Lemma neighbor_facts molecule idx neighbor :
  molecule_ok molecule → neighbor ∈ GetNeighbors molecule idx →
  idx ∈ GetNeighbors molecule neighbor
  ∧ neighbor ≠ idx ∧ (neighbor < GetNumAtoms molecule)%nat
  ∧ ∃ b, GetBondBetweenAtoms molecule idx neighbor = Some b
         ∧ b ∈ mol_bonds molecule.
Proof.
  intros Hok Hnb. apply elem_of_GetNeighbors in Hnb as (b & Hb & Hend).
  pose proof (proj1 (Forall_forall _ _) Hok b Hb) as Hbok.
  destruct (other_end_connects _ _ _ _ Hbok Hend) as (Hc & Hback & Hne & Hlt).
  split; [apply elem_of_GetNeighbors; eauto|]. split; [done|]. split; [done|].
  destruct (GetBondBetweenAtoms_found molecule idx neighbor b Hb Hc)
    as (b' & Hb' & Hin & _). eauto.
Qed.

(** X4.  The graph of a molecule is symmetric, features included: with every
    edge it holds the edge back, and the two carry the same features. *)
Theorem graph_from_molecule_symmetric (molecule : Mol) :
  molecule_ok molecule →
  ∃ g,
    graph_from_molecule molecule = Some g
    ∧ ∀ src dst features,
        ((src, dst), features) ∈ zip (pair_indices g) (bond_features g) →
        ((dst, src), features) ∈ zip (pair_indices g) (bond_features g).
Proof.
  intros Hok. exists (molecule_graph molecule).
  split; [apply graph_from_molecule_spec|].
  intros src dst f He.
  apply elem_of_molecule_edges in He
    as (idx & Hidx & -> & [[-> ->]|(nb & Hnb & -> & ->)]).
  - apply elem_of_molecule_edges. exists idx. auto.
  - destruct (neighbor_facts molecule idx nb Hok Hnb) as (Hback & _ & Hlt & _).
    apply elem_of_molecule_edges. exists nb. split; [done|]. split; [done|].
    right. exists idx. split; [done|]. split; [done|].
    by rewrite GetBondBetweenAtoms_sym.
Qed.

(** X5.  The self-loops of the graph of a molecule, and they only, carry the
    features of the absent bond; every other edge carries the features of
    the bond of the molecule between its two atoms, which is never absent. *)
Theorem graph_from_molecule_self_loops (molecule : Mol) :
  molecule_ok molecule →
  ∃ g,
    graph_from_molecule molecule = Some g
    ∧ ∀ src dst features,
        ((src, dst), features) ∈ zip (pair_indices g) (bond_features g) →
        (src = dst ↔ BondFeaturizer_encode bond_featurizer None = Some features)
        ∧ (src ≠ dst →
           ∃ bond,
             bond ∈ mol_bonds molecule
             ∧ GetBondBetweenAtoms molecule (Z.to_nat src) (Z.to_nat dst)
               = Some bond
             ∧ BondFeaturizer_encode bond_featurizer (Some bond)
               = Some features).
Proof.
  intros Hok. exists (molecule_graph molecule).
  split; [apply graph_from_molecule_spec|].
  intros src dst f He.
  pose proof (BondFeaturizer_encode_row None) as Hnone.
  apply elem_of_molecule_edges in He
    as (idx & Hidx & -> & [[-> ->]|(nb & Hnb & -> & ->)]).
  - split; [split; [intros _; exact Hnone | reflexivity]|].
    intros Hne. exfalso. apply Hne. reflexivity.
  - destruct (neighbor_facts molecule idx nb Hok Hnb)
      as (_ & Hne & _ & b & Hb & Hin).
    rewrite !Nat2Z.id, Hb. split.
    + split; [lia|]. intros Heq. exfalso.
      rewrite Hnone in Heq. apply Some_inj in Heq.
      exact (bond_row_absent b (eq_sym Heq)).
    + intros _. exists b. split; [exact Hin|]. split; [reflexivity|].
      apply BondFeaturizer_encode_row.
Qed.

Lemma atom_row_length atom : length (atom_row atom) = dim atom_featurizer.
Proof.
  unfold atom_row, atom_featurizer, AtomFeaturizer_init.
  rewrite Featurizer_init_spec. apply blocks_length, atom_class_ok.
Qed.

Lemma bond_row_length bond : length (bond_row bond) = dim bond_featurizer.
Proof.
  unfold bond_featurizer, BondFeaturizer_init. rewrite Featurizer_init_spec.
  cbn [dim]. destruct bond as [b|]; unfold bond_row; rewrite length_app.
  - rewrite blocks_length by apply bond_class_ok. reflexivity.
  - rewrite length_np_zeros. reflexivity.
Qed.

Lemma molecule_graph_widths molecule :
  Forall (λ row, length row = dim atom_featurizer)
         (atom_features (molecule_graph molecule))
  ∧ Forall (λ row, length row = dim bond_featurizer)
           (bond_features (molecule_graph molecule)).
Proof.
  split; simpl.
  - apply Forall_fmap, Forall_forall. intros a _. apply atom_row_length.
  - apply Forall_concat, Forall_fmap, Forall_forall. intros i _.
    unfold atom_bond_rows. constructor; [apply bond_row_length|].
    apply Forall_fmap, Forall_forall. intros nb _. apply bond_row_length.
Qed.

(** X6.  Every row of atom features has the 29 slots of [atom_featurizer]
    and every row of bond features the 7 slots of [bond_featurizer],
    whatever the molecule: the two widths the model is built with. *)
Theorem graph_from_molecule_widths (molecule : Mol) :
  ∃ g,
    graph_from_molecule molecule = Some g
    ∧ dim atom_featurizer = 29%nat
    ∧ dim bond_featurizer = 7%nat
    ∧ Forall (λ row, length row = 29%nat) (atom_features g)
    ∧ Forall (λ row, length row = 7%nat) (bond_features g).
Proof.
  exists (molecule_graph molecule).
  split; [apply graph_from_molecule_spec|].
  assert (Ha : dim atom_featurizer = 29%nat) by (vm_compute; reflexivity).
  assert (Hb : dim bond_featurizer = 7%nat) by (vm_compute; reflexivity).
  split; [exact Ha|]. split; [exact Hb|].
  destruct (molecule_graph_widths molecule) as [H1 H2].
  split; (eapply Forall_impl; [eassumption|]); intros row Hrow; simpl in Hrow;
    rewrite Hrow; assumption.
Qed.

(** ** Message passing on a merged graph *)



Section batching.
Context {R : Type} (Rzero : R) (Radd Rmul : R → R → R).

Local Abbreviation step := (message_passing_step Rzero Radd Rmul).
Local Abbreviation mp_call := (MessagePassing_call Rzero Radd Rmul).
Local Abbreviation msg := (message Rzero Radd Rmul).
Local Abbreviation rnd := (mp_round Rzero Radd Rmul).
Local Abbreviation fin := (final_states Rzero Radd Rmul).

Lemma sources_in_range (n : nat) (pairs : list (Z * Z)) :
  Forall (pair_in_range 0 (Z.of_nat n)) pairs →
  Forall (λ i, 0 ≤ i < Z.of_nat n) pairs.*1.
Proof.
  intros Hps. apply Forall_fmap. eapply Forall_impl; [exact Hps|].
  intros e [He _]. exact He.
Qed.

Lemma length_round self bf pairs x : length (rnd self bf pairs x) = length x.
Proof.
  unfold mp_round, aggregated_rows.
  rewrite length_zip_with, length_fmap, length_seq. lia.
Qed.

Lemma step_round (self : MessagePassing) x bf pairs :
  graph_accepted (length x) pairs bf →
  step self bf pairs x = Some (rnd self bf pairs x).
Proof.
  intros (Hlen & Hrange & Hsorted & Hcover).
  unfold message_passing_step.
  rewrite EdgeNetwork_call_rows by done.
  rewrite (num_segments_full _ (length x)) by auto using sources_in_range.
  rewrite bind_Some. unfold GRUCell_call.
  rewrite decide_True by by rewrite length_fmap, length_seq. done.
Qed.

Lemma iterate_round (self : MessagePassing) bf pairs k : ∀ x,
  graph_accepted (length x) pairs bf →
  iterate k (step self bf pairs) x = Some (Nat.iter k (rnd self bf pairs) x).
Proof.
  induction k as [|k IH]; intros x Hacc; [done|].
  simpl iterate. rewrite step_round, bind_Some by done.
  rewrite IH by by rewrite length_round.
  by rewrite Nat.iter_succ_r.
Qed.

(** On a graph it accepts, [MessagePassing.call] returns the states the
    rounds lead to, a row for every node. *)
Lemma MessagePassing_call_final (self : MessagePassing) x bf pairs :
  graph_accepted (length x) pairs bf →
  mp_call self x bf pairs = Some (fin self x bf pairs).
Proof.
  intros Hacc. unfold MessagePassing_call. apply iterate_round.
  unfold pad_columns. by rewrite length_fmap.
Qed.

Lemma length_iter_round self bf pairs k x :
  length (Nat.iter k (rnd self bf pairs) x) = length x.
Proof.
  induction k as [|k IH]; [done|]. simpl. by rewrite length_round.
Qed.

Lemma length_final self x bf pairs : length (fin self x bf pairs) = length x.
Proof.
  unfold final_states. rewrite length_iter_round.
  unfold pad_columns. by rewrite length_fmap.
Qed.

(** *** Two graphs side by side *)

Lemma edges_of_app {A : Type} (p1 p2 : list (Z * Z)) (bf1 bf2 : list A) :
  length bf1 = length p1 →
  edges_of (p1 ++ p2) (bf1 ++ bf2) = edges_of p1 bf1 ++ edges_of p2 bf2.
Proof. intros Hlen. unfold edges_of. by apply zip_with_app. Qed.

Lemma edges_of_shift {A : Type} (n : Z) (pairs : list (Z * Z)) :
  ∀ bf : list A,
  edges_of ((λ p, add_pair p n) <$> pairs) bf
  = shift_edge n <$> edges_of pairs bf.
Proof.
  unfold edges_of. induction pairs as [|e pairs IH]; intros [|b bf]; try done.
  csimpl. by rewrite IH.
Qed.

Lemma filter_none {A : Type} (P : A → Prop) `{!∀ x, Decision (P x)} (l : list A) :
  Forall (λ x, ¬ P x) l → filter P l = [].
Proof.
  induction 1 as [|x l Hx Hl IH]; [done|]. by rewrite filter_cons_False.
Qed.

Lemma edges_from_app {A : Type} (i : Z) (es1 es2 : list ((Z * Z) * A)) :
  edges_from i (es1 ++ es2) = edges_from i es1 ++ edges_from i es2.
Proof. apply filter_app. Qed.

Lemma edges_from_shift {A : Type} (n i : Z) (es : list ((Z * Z) * A)) :
  edges_from (i + n) (shift_edge n <$> es) = shift_edge n <$> edges_from i es.
Proof.
  unfold edges_from. induction es as [|e es IH]; [done|].
  rewrite fmap_cons, !filter_cons. simpl.
  destruct (decide (e.1.1 + n = i + n)) as [Heq|Hne].
  - rewrite decide_True by lia. rewrite fmap_cons. by rewrite IH.
  - rewrite decide_False by lia. exact IH.
Qed.

Lemma edges_from_outside {A : Type} (lo hi i : Z) (es : list ((Z * Z) * A)) :
  Forall (λ e, lo ≤ e.1.1 < hi) es → ¬ (lo ≤ i < hi) → edges_from i es = [].
Proof.
  intros Hall Hi. unfold edges_from. apply filter_none.
  eapply Forall_impl; [exact Hall|]. intros e He Heq. simpl in *. lia.
Qed.

Lemma edges_sources_range {A : Type} (n : Z) (pairs : list (Z * Z)) (bf : list A) :
  Forall (pair_in_range 0 n) pairs →
  Forall (λ e, 0 ≤ e.1.1 < n) (edges_of pairs bf).
Proof.
  intros Hall. eapply Forall_impl; [apply (edges_of_range _ _ _ Hall)|].
  intros e [He _]. exact He.
Qed.

Lemma shifted_sources_range {A : Type} (n m : Z) (es : list ((Z * Z) * A)) :
  Forall (λ e, 0 ≤ e.1.1 < m) es →
  Forall (λ e, n ≤ e.1.1 < n + m) (shift_edge n <$> es).
Proof.
  intros Hall. apply Forall_fmap. eapply Forall_impl; [exact Hall|].
  intros e He. simpl in *. lia.
Qed.

Lemma message_app_l (net : EdgeNetwork) (x1 x2 : list (list R)) e :
  0 ≤ e.1.2 < Z.of_nat (length x1) →
  msg net (x1 ++ x2) e = msg net x1 e.
Proof.
  intros He. unfold message. by rewrite lookup_total_app_l by lia.
Qed.

Lemma message_app_r (net : EdgeNetwork) (x1 x2 : list (list R)) e :
  0 ≤ e.1.2 →
  msg net (x1 ++ x2) (shift_edge (Z.of_nat (length x1)) e) = msg net x2 e.
Proof.
  intros He. unfold message. simpl.
  rewrite lookup_total_app_r by lia. do 2 f_equal. lia.
Qed.

Lemma aggregated_rows_append (net : EdgeNetwork) x1 x2 bf1 bf2 p1 p2 :
  length bf1 = length p1 →
  Forall (pair_in_range 0 (Z.of_nat (length x1))) p1 →
  Forall (pair_in_range 0 (Z.of_nat (length x2))) p2 →
  aggregated_rows Rzero Radd Rmul net (x1 ++ x2) (bf1 ++ bf2)
    (p1 ++ ((λ p, add_pair p (Z.of_nat (length x1))) <$> p2))
    (length (x1 ++ x2))
  = aggregated_rows Rzero Radd Rmul net x1 bf1 p1 (length x1)
      ++ aggregated_rows Rzero Radd Rmul net x2 bf2 p2 (length x2).
Proof.
  intros Hlen Hr1 Hr2. unfold aggregated_rows.
  rewrite length_app, seq_app, fmap_app, edges_of_app, edges_of_shift by done.
  pose proof (edges_sources_range _ p1 bf1 Hr1) as Hs1.
  pose proof (shifted_sources_range (Z.of_nat (length x1)) _ _
                (edges_sources_range _ p2 bf2 Hr2)) as Hs2.
  f_equal.
  - apply Forall_fmap_ext_1, Forall_forall. intros i Hi.
    apply elem_of_seq in Hi. f_equal.
    rewrite edges_from_app.
    rewrite (edges_from_outside _ _ _ _ Hs2) by lia. rewrite app_nil_r.
    apply Forall_fmap_ext_1, Forall_forall. intros e He.
    apply list_elem_of_filter in He as [_ He].
    apply (proj1 (Forall_forall _ _) (edges_of_range _ _ _ Hr1)) in He.
    destruct He as [_ He]. by apply message_app_l.
  - change (0 + length x1)%nat with (length x1).
    replace (seq (length x1) (length x2))
      with (Nat.add (length x1) <$> seq 0 (length x2))
      by (rewrite fmap_add_seq; f_equal; lia).
    rewrite <-list_fmap_compose.
    apply Forall_fmap_ext_1, Forall_forall. intros i Hi.
    apply elem_of_seq in Hi. simpl. f_equal.
    rewrite edges_from_app.
    rewrite (edges_from_outside _ _ _ _ Hs1) by lia. simpl.
    replace (Z.of_nat (length x1 + i)) with (Z.of_nat i + Z.of_nat (length x1))
      by lia.
    rewrite edges_from_shift, <-list_fmap_compose.
    apply Forall_fmap_ext_1, Forall_forall. intros e He.
    apply list_elem_of_filter in He as [_ He].
    apply (proj1 (Forall_forall _ _) (edges_of_range _ _ _ Hr2)) in He.
    destruct He as [_ He]. simpl in *. apply message_app_r. lia.
Qed.

Lemma round_append (self : MessagePassing) x1 x2 bf1 bf2 p1 p2 :
  length bf1 = length p1 →
  Forall (pair_in_range 0 (Z.of_nat (length x1))) p1 →
  Forall (pair_in_range 0 (Z.of_nat (length x2))) p2 →
  rnd self (bf1 ++ bf2)
      (p1 ++ ((λ p, add_pair p (Z.of_nat (length x1))) <$> p2)) (x1 ++ x2)
  = rnd self bf1 p1 x1 ++ rnd self bf2 p2 x2.
Proof.
  intros Hlen Hr1 Hr2. unfold mp_round.
  rewrite aggregated_rows_append by done.
  apply zip_with_app. unfold aggregated_rows.
  by rewrite length_fmap, length_seq.
Qed.

Lemma iter_round_append (self : MessagePassing) bf1 bf2 p1 p2 k : ∀ x1 x2 n1,
  length x1 = n1 →
  length bf1 = length p1 →
  Forall (pair_in_range 0 (Z.of_nat n1)) p1 →
  Forall (pair_in_range 0 (Z.of_nat (length x2))) p2 →
  Nat.iter k (rnd self (bf1 ++ bf2)
                  (p1 ++ ((λ p, add_pair p (Z.of_nat n1)) <$> p2)))
           (x1 ++ x2)
  = Nat.iter k (rnd self bf1 p1) x1 ++ Nat.iter k (rnd self bf2 p2) x2.
Proof.
  induction k as [|k IH]; intros x1 x2 n1 Hn1 Hlen Hr1 Hr2; [done|].
  rewrite !Nat.iter_succ_r. subst n1.
  rewrite round_append by done.
  apply IH; rewrite ?length_round; done.
Qed.

Lemma final_states_append (self : MessagePassing) x1 x2 bf1 bf2 p1 p2 :
  length bf1 = length p1 →
  Forall (pair_in_range 0 (Z.of_nat (length x1))) p1 →
  Forall (pair_in_range 0 (Z.of_nat (length x2))) p2 →
  fin self (x1 ++ x2) (bf1 ++ bf2)
      (p1 ++ ((λ p, add_pair p (Z.of_nat (length x1))) <$> p2))
  = fin self x1 bf1 p1 ++ fin self x2 bf2 p2.
Proof.
  intros Hlen Hr1 Hr2. unfold final_states, pad_columns.
  rewrite fmap_app. apply iter_round_append; rewrite ?length_fmap; done.
Qed.

Lemma graph_accepted_append {A : Type} (n1 n2 : nat)
    (p1 p2 : list (Z * Z)) (bf1 bf2 : list A) :
  graph_accepted n1 p1 bf1 → graph_accepted n2 p2 bf2 →
  graph_accepted (n1 + n2)
    (p1 ++ ((λ p, add_pair p (Z.of_nat n1)) <$> p2)) (bf1 ++ bf2).
Proof.
  intros (Hl1 & Hr1 & Hs1 & Hc1) (Hl2 & Hr2 & Hs2 & Hc2).
  split; [by rewrite !length_app, length_fmap, Hl1, Hl2|].
  split; [|split].
  - apply Forall_app. split.
    + eapply Forall_impl; [exact Hr1|]. intros e [H1 H2].
      unfold pair_in_range in *. lia.
    + apply Forall_fmap. eapply Forall_impl; [exact Hr2|]. intros e [H1 H2].
      unfold pair_in_range, add_pair in *. simpl. lia.
  - unfold non_decreasing in *. rewrite fmap_app.
    apply StronglySorted_Sorted, StronglySorted_app. split; [|split].
    + intros a b Ha Hb.
      apply (proj1 (Forall_forall _ _) (sources_in_range _ _ Hr1)) in Ha.
      apply list_elem_of_fmap in Hb as (e & -> & He).
      apply list_elem_of_fmap in He as (e' & -> & He').
      apply (proj1 (Forall_forall _ _) Hr2) in He'.
      destruct He' as [He' _]. simpl in *. lia.
    + by apply Sorted_StronglySorted; [apply _|].
    + apply Sorted_StronglySorted; [apply _|].
      assert (Heq : ((λ p, add_pair p (Z.of_nat n1)) <$> p2).*1
                    = (λ s, s + Z.of_nat n1) <$> p2.*1).
      { rewrite <-!list_fmap_compose. by apply list_fmap_ext. }
      rewrite Heq. eapply Sorted_fmap; [|exact Hs2]. intros a b Hab.
      simpl. lia.
  - intros i Hi. rewrite fmap_app, elem_of_app.
    destruct (decide (i < Z.of_nat n1)) as [Hlt|Hge].
    + left. apply Hc1. lia.
    + right. specialize (Hc2 (i - Z.of_nat n1) ltac:(lia)).
      apply list_elem_of_fmap in Hc2 as (e & Hsrc & He).
      apply list_elem_of_fmap. exists (add_pair e (Z.of_nat n1)).
      split; [simpl; lia|]. apply list_elem_of_fmap. eauto.
Qed.
End batching.

(** *** The graphs of a batch *)



Lemma merged_pairs_snoc gs g :
  merged_pairs (gs ++ [g])
  = merged_pairs gs
      ++ ((λ p, add_pair p (Z.of_nat (node_count gs))) <$> pair_indices g).
Proof.
  pose proof (f_equal g_pair_indices (merged_snoc gs g)) as Heq.
  simpl in Heq. by rewrite to_tensor_length, node_count_concat in Heq.
Qed.

Lemma graph_accepted_nil {A : Type} : graph_accepted 0 [] (@nil A).
Proof.
  split; [done|]. split; [constructor|]. split; [constructor|].
  intros i Hi. lia.
Qed.

Section merged_batch.
Context (Rzero : Q) (Radd Rmul : Q → Q → Q) (self : MessagePassing (R := Q)).

Local Abbreviation fin := (final_states Rzero Radd Rmul self).

Lemma merged_states (gs : list Graph) :
  Forall graph_ok gs →
  graph_accepted (node_count gs) (merged_pairs gs)
                 (concat (bond_features <$> gs))
  ∧ fin (concat (atom_features <$> gs)) (concat (bond_features <$> gs))
        (merged_pairs gs)
    = concat ((λ g, fin (atom_features g) (bond_features g) (pair_indices g))
                <$> gs).
Proof.
  induction gs as [|g gs IH] using rev_ind; intros Hall.
  - split; [apply graph_accepted_nil|].
    unfold final_states. simpl. induction (steps self); [done|].
    by rewrite Nat.iter_succ_r.
  - apply Forall_app in Hall as [Hgs Hg]. apply Forall_inv in Hg.
    destruct (IH Hgs) as [Hacc Hfin]. clear IH.
    rewrite merged_pairs_snoc, !fmap_app, !concat_app. csimpl.
    rewrite !app_nil_r, node_count_app.
    replace (node_count [g]) with (length (atom_features g))
      by (unfold node_count; csimpl; lia).
    split; [by apply graph_accepted_append|].
    rewrite <-Hfin.
    destruct Hacc as (Hl & Hr & _). destruct Hg as (_ & Hr' & _).
    rewrite <-(node_count_concat gs) in Hr |- *.
    by apply final_states_append.
Qed.

Lemma batch_states {Y : Type} (x_batch : list Graph)
    (y_batch : Y) :
  x_batch ≠ [] →
  Forall graph_ok x_batch →
  uniform_widths x_batch →
  ∃ out states,
    prepare_batch x_batch y_batch = Some (out, y_batch)
    ∧ mapM (λ g, MessagePassing_call Rzero Radd Rmul self (atom_features g)
                   (bond_features g) (pair_indices g)) x_batch
      = Some states
    ∧ MessagePassing_call Rzero Radd Rmul self (g_atom_features out)
        (g_bond_features out) (g_pair_indices out)
      = Some (concat states)
    ∧ Forall2 (λ g s, length s = length (atom_features g)) x_batch states.
Proof.
  intros Hne Hall [[wa Hwa] [wb Hwb]].
  exists (merged x_batch),
    ((λ g, fin (atom_features g) (bond_features g) (pair_indices g))
       <$> x_batch).
  destruct (merged_states x_batch Hall) as [Hacc Hfin].
  split.
  { apply prepare_batch_spec; [done|].
    eapply Forall_impl; [exact Hall|]. intros g (Hl & _). exact Hl. }
  split.
  { apply mapM_Some. apply Forall2_fmap_r, Forall_Forall2_diag.
    eapply Forall_impl; [exact Hall|]. intros g Hg. simpl.
    by apply MessagePassing_call_final. }
  split.
  { simpl. rewrite (to_tensor_uniform _ wa), (to_tensor_uniform _ wb)
      by by apply Forall_concat, Forall_fmap.
    rewrite <-Hfin. apply MessagePassing_call_final.
    by rewrite node_count_concat. }
  apply Forall2_fmap_r, Forall_Forall2_diag, Forall_forall.
  intros g _. apply length_final.
Qed.

End merged_batch.

(** *** The graphs of molecules *)

Lemma molecule_graph_accepted molecule :
  molecule_ok molecule → graph_ok (molecule_graph molecule).
Proof.
  intros Hok. unfold graph_ok, graph_accepted.
  pose proof (molecule_graph_pairs molecule Hok) as Hperm.
  assert (Hn : length (atom_features (molecule_graph molecule))
               = GetNumAtoms molecule).
  { simpl. by rewrite length_fmap. }
  rewrite Hn.
  split; [apply molecule_graph_shape|].
  split.
  { rewrite Hperm. rewrite !Forall_app. split; [|split].
    - apply Forall_fmap, Forall_forall. intros idx Hidx.
      apply elem_of_seq in Hidx. unfold pair_in_range. simpl. lia.
    - apply Forall_fmap. eapply Forall_impl; [exact Hok|].
      intros b (Hb & He & _). unfold pair_in_range, forward. simpl. lia.
    - apply Forall_fmap. eapply Forall_impl; [exact Hok|].
      intros b (Hb & He & _). unfold pair_in_range, backward. simpl. lia. }
  split; [apply molecule_graph_sorted|].
  intros i Hi.
  apply (list_elem_of_fmap_2' fst _ (i, i)); [|done].
  rewrite Hperm. apply elem_of_app. left.
  apply list_elem_of_fmap. exists (Z.to_nat i).
  split; [f_equal; lia|]. apply elem_of_seq. lia.
Qed.

Section molecules.
Context (Rzero : Q) (Radd Rmul : Q → Q → Q) (self : MessagePassing (R := Q)).

(** X8.  From molecules to node states: take a batch of molecules whose
    bonds join two different atoms of theirs, one of which at least has an
    atom, and a layer built for the widths of the two featurizers.
    Building the graphs, merging them and message passing all succeed; no
    feature row is padded, and message passing returns one state per atom of
    the batch. *)
Theorem molecules_to_states {Y : Type} (molecules : list Mol) (y_batch : Y) :
  Exists (λ m, GetNumAtoms m ≠ 0%nat) molecules →
  Forall molecule_ok molecules →
  MessagePassing_built self →
  mp_atom_dim self = dim atom_featurizer →
  bond_dim (message_step self) = dim bond_featurizer →
  ∃ x_batch out states,
    mapM graph_from_molecule molecules = Some x_batch
    ∧ prepare_batch x_batch y_batch = Some (out, y_batch)
    ∧ g_atom_features out = concat (atom_features <$> x_batch)
    ∧ g_bond_features out = concat (bond_features <$> x_batch)
    ∧ MessagePassing_call Rzero Radd Rmul self (g_atom_features out)
        (g_bond_features out) (g_pair_indices out)
      = Some states
    ∧ length states = sum_list (GetNumAtoms <$> molecules).
Proof.
  intros Hatom Hok _ _ _.
  assert (Hne : molecules ≠ []).
  { intros ->. by apply Exists_nil in Hatom. }
  set (x_batch := molecule_graph <$> molecules).
  assert (Hx : x_batch ≠ []) by by destruct molecules.
  assert (Hacc : Forall graph_ok x_batch).
  { apply Forall_fmap. eapply Forall_impl; [exact Hok|].
    intros m Hm. by apply molecule_graph_accepted. }
  assert (Hw : uniform_widths x_batch).
  { split.
    - exists (dim atom_featurizer). apply Forall_fmap, Forall_forall.
      intros m _. apply molecule_graph_widths.
    - exists (dim bond_featurizer). apply Forall_fmap, Forall_forall.
      intros m _. apply molecule_graph_widths. }
  destruct (batch_states Rzero Radd Rmul self x_batch y_batch
              Hx Hacc Hw) as (out & states & Hprep & Hmap & Hcall & Hlen).
  exists x_batch, out, (concat states).
  split.
  { apply mapM_Some. apply Forall2_fmap_r, Forall_Forall2_diag, Forall_forall.
    intros m _. apply graph_from_molecule_spec. }
  split; [exact Hprep|].
  assert (Hshape : Forall graph_shape_ok x_batch).
  { eapply Forall_impl; [exact Hacc|]. intros g (Hl & _). exact Hl. }
  rewrite (prepare_batch_spec _ _ Hx Hshape) in Hprep.
  apply Some_inj, pair_eq in Hprep as [<- _].
  destruct Hw as [[wa Hwa] [wb Hwb]].
  split.
  { simpl. apply (to_tensor_uniform _ wa). by apply Forall_concat, Forall_fmap. }
  split.
  { simpl. apply (to_tensor_uniform _ wb). by apply Forall_concat, Forall_fmap. }
  split; [exact Hcall|].
  apply Forall2_fmap_l in Hlen.
  clear -Hlen.
  induction Hlen as [|m s ms ss Hs _ IH]; [done|].
  csimpl. rewrite length_app, IH, Hs. csimpl. by rewrite length_fmap.
Qed.
End molecules.

(** ** Readout: the partitions of a merged batch *)


Lemma membership_from_cons k n lens :
  membership_from k (n :: lens)
  = replicate n k ++ membership_from (S k) lens.
Proof.
  unfold membership_from. rewrite imap_cons. csimpl.
  rewrite Nat.add_0_r. f_equal. f_equal. apply imap_ext.
  intros i x _. simpl. f_equal. lia.
Qed.

Lemma merged_membership_from gs :
  merged_membership gs = membership_from 0 (length ∘ atom_features <$> gs).
Proof.
  unfold merged_membership, membership_from. by rewrite imap_fmap.
Qed.

Lemma membership_from_length k lens :
  length (membership_from k lens) = sum_list lens.
Proof.
  revert k. induction lens as [|n lens IH]; intros k; [done|].
  rewrite membership_from_cons, length_app, length_replicate, IH. done.
Qed.

Lemma elem_of_membership_from k lens v :
  v ∈ membership_from k lens → (k ≤ v < k + length lens)%nat.
Proof.
  revert k. induction lens as [|n lens IH]; intros k.
  - unfold membership_from. simpl. by intros ?%elem_of_nil.
  - rewrite membership_from_cons, elem_of_app.
    intros [[-> _]%elem_of_replicate|Hv%IH]; simpl; lia.
Qed.

Lemma filter_ext_in {A : Type} (P1 P2 : A → Prop)
    `{!∀ x, Decision (P1 x)} `{!∀ x, Decision (P2 x)} (l : list A) :
  Forall (λ x, P1 x ↔ P2 x) l → filter P1 l = filter P2 l.
Proof.
  induction 1 as [|x l Hx _ IH]; [done|].
  destruct (decide (P1 x)) as [H1|H1].
  - rewrite !filter_cons_True by tauto. by rewrite IH.
  - rewrite !filter_cons_False by tauto. exact IH.
Qed.

Section partitions.
Context {R : Type}.

Lemma filter_block (x : list (list R)) (k i : nat) :
  (filter (λ y, y.2 = i) (zip x (replicate (length x) k))).*1
  = if decide (k = i) then x else [].
Proof.
  induction x as [|r x IH]; [by destruct (decide (k = i))|].
  simpl replicate. simpl zip. destruct (decide (k = i)) as [->|Hne].
  - rewrite filter_cons_True by done. csimpl. by rewrite IH.
  - rewrite filter_cons_False by done. exact IH.
Qed.

Lemma length_concat (xs : list (list (list R))) :
  length (concat xs) = sum_list (length <$> xs).
Proof.
  induction xs as [|x xs IH]; [done|]. csimpl. by rewrite length_app, IH.
Qed.

Lemma partition_rows (xs : list (list (list R))) : ∀ (k i : nat),
  (filter (λ y, y.2 = i)
          (zip (concat xs) (membership_from k (length <$> xs)))).*1
  = default [] (if decide (k ≤ i)%nat then xs !! (i - k)%nat else None).
Proof.
  induction xs as [|x xs IH]; intros k i.
  - by destruct (decide (k ≤ i)%nat).
  - rewrite fmap_cons, membership_from_cons, concat_cons.
    rewrite zip_with_app by by rewrite length_replicate.
    rewrite filter_app, fmap_app, filter_block, IH.
    destruct (decide (k = i)) as [->|Hne].
    + rewrite decide_False by lia. rewrite decide_True by lia.
      rewrite Nat.sub_diag. simpl. by rewrite app_nil_r.
    + destruct (decide (k ≤ i)%nat) as [Hle|Hgt].
      * rewrite decide_True by lia.
        replace (i - k)%nat with (S (i - S k)) by lia. done.
      * by rewrite decide_False by lia.
Qed.

(** Partitioning the rows of a merged batch by its partition indices
    gives back the rows of each graph, then empty partitions. *)
Lemma dynamic_partition_blocks (xs : list (list (list R))) (B : nat) :
  (length xs ≤ B)%nat → B ≠ 0%nat →
  dynamic_partition (concat xs) (membership_from 0 (length <$> xs)) B
  = Some (xs ++ replicate (B - length xs) []).
Proof.
  intros Hle HB. unfold dynamic_partition. rewrite decide_True.
  - f_equal. apply list_eq. intros i.
    rewrite list_lookup_fmap.
    destruct (decide (i < B)%nat) as [Hi|Hi].
    + rewrite lookup_seq_lt by done. simpl.
      rewrite partition_rows, decide_True by lia. rewrite Nat.sub_0_r.
      destruct (decide (i < length xs)%nat) as [Hx|Hx].
      * rewrite lookup_app_l by done.
        destruct (lookup_lt_is_Some_2 xs i Hx) as [x Hxi].
        by rewrite Hxi.
      * rewrite lookup_app_r by lia.
        rewrite lookup_replicate_2 by lia.
        by rewrite lookup_ge_None_2 by lia.
    + rewrite lookup_seq_ge by lia. simpl. symmetry.
      apply lookup_ge_None_2. rewrite length_app, length_replicate. lia.
  - split; [by rewrite length_concat, membership_from_length|].
    split; [|done]. apply Forall_forall. intros v Hv.
    apply elem_of_membership_from in Hv. rewrite length_fmap in Hv. lia.
Qed.

Lemma gather_filtered (P : list (list R) → Prop) `{!∀ m, Decision (P m)}
    (l : list (list (list R))) :
  mapM (λ i, l !! i) (filter (λ i, P (l !!! i)) (seq 0 (length l)))
  = Some (filter P l).
Proof.
  apply mapM_Some. induction l as [|a l IH] using rev_ind; [constructor|].
  rewrite length_app. simpl length. rewrite seq_app, !filter_app. simpl seq.
  apply Forall2_app.
  - assert (Heq : filter (λ i, P ((l ++ [a]) !!! i)) (seq 0 (length l))
                  = filter (λ i, P (l !!! i)) (seq 0 (length l))).
    { apply filter_ext_in, Forall_forall. intros i Hi.
      apply elem_of_seq in Hi. by rewrite lookup_total_app_l by lia. }
    rewrite Heq. eapply Forall2_impl; [exact IH|].
    intros i y Hy. simpl in *. apply lookup_app_l_Some. exact Hy.
  - assert (Ha : (l ++ [a]) !!! (length l) = a).
    { rewrite lookup_total_app_r by lia. by rewrite Nat.sub_diag. }
    destruct (decide (P a)) as [HP|HP].
    + rewrite !filter_cons_True by (by rewrite ?Ha). simpl.
      constructor; [|constructor].
      rewrite lookup_app_r by lia. by rewrite Nat.sub_diag.
    + rewrite !filter_cons_False by (by rewrite ?Ha). constructor.
Qed.
End partitions.

Lemma max_list_zeros (n : nat) : max_list (replicate n 0%nat) = 0%nat.
Proof. induction n as [|n IH]; simpl; [done|]. exact IH. Qed.

Lemma filter_fmap {A B : Type} (f : A → B) (P : B → Prop)
    `{!∀ y, Decision (P y)} (l : list A) :
  filter P (f <$> l) = f <$> filter (λ x, P (f x)) l.
Proof.
  induction l as [|x l IH]; [done|]. csimpl.
  destruct (decide (P (f x))) as [HP|HP].
  - rewrite !filter_cons_True by done. csimpl. by rewrite IH.
  - rewrite !filter_cons_False by done. exact IH.
Qed.

Lemma filter_replicate_False {A : Type} (P : A → Prop)
    `{!∀ y, Decision (P y)} (n : nat) (x : A) :
  ¬ P x → filter P (replicate n x) = [].
Proof.
  intros HP. induction n as [|n IH]; [done|]. simpl.
  by rewrite filter_cons_False.
Qed.

Lemma filter_drops {A : Type} (P : A → Prop) `{!∀ y, Decision (P y)}
    (l : list A) (i : nat) (x : A) :
  l !! i = Some x → ¬ P x → (length (filter P l) < length l)%nat.
Proof.
  intros Hi HP. rewrite <-(take_drop_middle l i x Hi).
  rewrite filter_app, filter_cons_False by done.
  rewrite !length_app. simpl.
  pose proof (length_filter P (take i l)).
  pose proof (length_filter P (drop (S i) l)). lia.
Qed.

Section readout.
Context {R : Type} (Rzero : R) (Radd : R → R → R) (Rnonzero : R → bool).

Local Abbreviation sum_of := (reduce_sum Rzero Radd).
Local Abbreviation pad := (pad_rows Rzero).

Lemma foldl_zeros (a : R) (l : list R) :
  (∀ x, Radd x Rzero = x) → Forall (λ v, v = Rzero) l →
  foldl Radd a l = a.
Proof.
  intros Hzero Hall. revert a.
  induction Hall as [|v l -> _ IH]; intros a; [done|].
  simpl. by rewrite Hzero.
Qed.

Lemma reduce_sum_pad (d k : nat) (s : list (list R)) :
  (∀ x, Radd x Rzero = x) → sum_of (pad d k s) = sum_of s.
Proof.
  intros Hzero. unfold reduce_sum, pad_rows.
  rewrite concat_app, foldl_app. apply foldl_zeros; [done|].
  apply Forall_concat, Forall_replicate, Forall_replicate. done.
Qed.

Lemma states_membership (gs : list Graph) (states : list (list (list R))) :
  Forall2 (λ g s, length s = length (atom_features g)) gs states →
  merged_membership gs = membership_from 0 (length <$> states)
  ∧ length states = length gs.
Proof.
  intros Hlen. rewrite merged_membership_from. split.
  - f_equal. induction Hlen as [|g s gs ss Hs _ IH]; [done|].
    csimpl. by rewrite Hs, IH.
  - symmetry. by eapply Forall2_length.
Qed.

Lemma readout_filter (batch_size d : nat) (gs : list Graph)
    (states : list (list (list R))) :
  (∀ x, Radd x Rzero = x) →
  Rnonzero Rzero = false →
  (length gs ≤ batch_size)%nat →
  batch_size ≠ 0%nat →
  Forall2 (λ g s, length s = length (atom_features g)) gs states →
  PartitionPadding_call Rzero Radd Rnonzero batch_size d
    (concat states) (merged_membership gs)
  = Some ((λ s, pad d (max_list (length <$> states) - length s) s)
            <$> filter (λ s, Rnonzero (sum_of s) = true) states).
Proof.
  intros Hzero Hnz Hle HB Hlen.
  destruct (states_membership gs states Hlen) as [-> Hn].
  unfold PartitionPadding_call.
  rewrite dynamic_partition_blocks by lia. simpl.
  set (parts := states ++ replicate (batch_size - length states) []).
  assert (Hmax : max_list (length <$> parts)
                 = max_list (length <$> states)).
  { unfold parts. rewrite fmap_app, max_list_app, fmap_replicate. simpl.
    rewrite max_list_zeros. lia. }
  rewrite Hmax, zip_with_fmap_r, zip_with_diag.
  set (m := max_list (length <$> states)).
  etrans; [exact (gather_filtered (λ x, Rnonzero (sum_of x) = true) _)|].
  f_equal. rewrite filter_fmap. unfold parts.
  rewrite filter_app, filter_replicate_False, app_nil_r.
  - f_equal. apply list_filter_iff. intros s.
    by rewrite reduce_sum_pad.
  - rewrite reduce_sum_pad by done. unfold reduce_sum. simpl.
    by rewrite Hnz.
Qed.

(** X9.  The readout of a merged batch: the node states of each graph,
    padded with rows of zeros to the greatest number of atoms in the batch,
    for the graphs whose node states do not sum to zero, in the order of the
    batch. *)
Theorem partition_padding_on_batch (batch_size d : nat) (gs : list Graph)
    (states : list (list (list R))) :
  (∀ x, Radd x Rzero = x) →
  Rnonzero Rzero = false →
  (length gs ≤ batch_size)%nat →
  batch_size ≠ 0%nat →
  Forall2 (λ g s, length s = length (atom_features g)) gs states →
  PartitionPadding_call Rzero Radd Rnonzero batch_size d
    (concat states) (merged_membership gs)
  = Some ((λ s, pad d (max_list (length <$> states) - length s) s)
            <$> filter (λ s, Rnonzero (sum_of s) = true) states).
Proof. apply readout_filter. Qed.

(** X10.  A graph whose node states sum to zero is taken for padding of the
    batch and left out of the readout, which then has fewer elements than
    the batch has graphs. *)
Theorem partition_padding_drops_zero_sum (batch_size d : nat)
    (gs : list Graph) (states : list (list (list R))) (i : nat)
    (s : list (list R)) :
  (∀ x, Radd x Rzero = x) →
  Rnonzero Rzero = false →
  (length gs ≤ batch_size)%nat →
  Forall2 (λ g s, length s = length (atom_features g)) gs states →
  states !! i = Some s →
  sum_of s = Rzero →
  ∃ out,
    PartitionPadding_call Rzero Radd Rnonzero batch_size d
      (concat states) (merged_membership gs) = Some out
    ∧ (length out < length gs)%nat.
Proof.
  intros Hzero Hnz Hle Hlen Hi Hs.
  assert (HB : batch_size ≠ 0%nat).
  { apply Forall2_length in Hlen. apply lookup_lt_Some in Hi. lia. }
  eexists. split; [by apply readout_filter|].
  rewrite length_fmap, (Forall2_length _ _ _ Hlen).
  apply (filter_drops _ _ i s Hi). by rewrite Hs, Hnz.
Qed.

(** X11.  A layer built for batches smaller than the batch it is given
    fails: [tf.dynamic_partition] has no partition for the atoms of a graph
    at position [batch_size] or later. *)
Theorem partition_padding_small_batch_size (batch_size d : nat)
    (gs : list Graph) (i : nat) (g : Graph) (x : list (list R)) :
  gs !! i = Some g →
  atom_features g ≠ [] →
  (batch_size ≤ i)%nat →
  PartitionPadding_call Rzero Radd Rnonzero batch_size d x
    (merged_membership gs) = None.
Proof.
  intros Hi Hg Hle. unfold PartitionPadding_call, dynamic_partition.
  rewrite decide_False; [done|]. intros (_ & Hall & _).
  assert (Hin : i ∈ merged_membership gs).
  { apply elem_of_membership. eauto. }
  pose proof (proj1 (Forall_forall _ _) Hall i Hin) as Hlt. simpl in Hlt. lia.
Qed.
End readout.

(** ** Graphs of a list of SMILES *)



Section smiles.
Context (molecule_from_smiles : string → option Mol).

Local Abbreviation step := (smiles_step molecule_from_smiles).

Lemma smiles_step_graph (gs : list Graph) (smiles : string) (m : Mol) :
  molecule_from_smiles smiles = Some m →
  step (ragged gs) smiles = Some (ragged (gs ++ [molecule_graph m])).
Proof.
  intros Hm. unfold smiles_step. rewrite Hm. simpl.
  rewrite graph_from_molecule_spec. simpl. unfold ragged.
  by rewrite !fmap_app.
Qed.

Lemma smiles_loop (smiles_list : list string) (molecules : list Mol) :
  ∀ gs,
  mapM molecule_from_smiles smiles_list = Some molecules →
  for_each step (ragged gs) smiles_list
  = Some (ragged (gs ++ (molecule_graph <$> molecules))).
Proof.
  revert molecules.
  induction smiles_list as [|s l IH]; intros molecules gs Hm.
  - apply mapM_Some, Forall2_nil_inv_l in Hm as ->. simpl.
    by rewrite app_nil_r.
  - apply mapM_Some, Forall2_cons_inv_l in Hm as (m & ms & Hs & Hms & ->).
    apply mapM_Some in Hms.
    rewrite for_each_cons, (smiles_step_graph gs s m Hs). simpl.
    rewrite (IH ms (gs ++ [molecule_graph m]) Hms).
    by rewrite <-app_assoc.
Qed.

Lemma smiles_graphs (smiles_list : list string) (molecules : list Mol) :
  mapM molecule_from_smiles smiles_list = Some molecules →
  graphs_from_smiles molecule_from_smiles smiles_list
  = Some (ragged (molecule_graph <$> molecules)).
Proof.
  intros Hm. unfold graphs_from_smiles.
  change {| rg_atom_features := []; rg_bond_features := [];
            rg_pair_indices := [] |} with (ragged []).
  by rewrite (smiles_loop smiles_list molecules [] Hm).
Qed.

(** X12.  When the toolkit has a molecule for every SMILES,
    [graphs_from_smiles] returns, position by position, the features and the
    index pairs of the graphs of these molecules. *)
Theorem graphs_from_smiles_graphs (smiles_list : list string)
    (molecules : list Mol) :
  mapM molecule_from_smiles smiles_list = Some molecules →
  graphs_from_smiles molecule_from_smiles smiles_list
  = Some (ragged (molecule_graph <$> molecules)).
Proof. apply smiles_graphs. Qed.

(** X13.  One SMILES the toolkit has no molecule for makes
    [graphs_from_smiles] fail, wherever it stands in the list. *)
Theorem graphs_from_smiles_fails (smiles_list : list string)
    (smiles : string) :
  smiles ∈ smiles_list →
  molecule_from_smiles smiles = None →
  graphs_from_smiles molecule_from_smiles smiles_list = None.
Proof.
  intros Hin Hnone. apply list_elem_of_split in Hin as (l1 & l2 & ->).
  assert (Hstep : ∀ lists, step lists smiles = None).
  { intros lists. unfold smiles_step. by rewrite Hnone. }
  unfold graphs_from_smiles. rewrite for_each_app.
  destruct (for_each _ _ l1) as [lists|]; [|done]. simpl.
  by rewrite Hstep.
Qed.
End smiles.

(** ** The three sets of the data *)

(** X14.  The train, validation and test indices are the permuted indices,
    cut in three: no index is lost and none is in two sets. *)
Theorem split_indices_partition {A : Type} (cut1 cut2 : nat)
    (permuted_indices : list A) :
  (cut1 ≤ cut2)%nat →
  let '(train_index, valid_index, test_index) :=
    split_indices cut1 cut2 permuted_indices in
  train_index ++ valid_index ++ test_index = permuted_indices.
Proof.
  intros Hle. unfold split_indices, py_slice.
  rewrite <-(take_drop cut1 permuted_indices) at 4. f_equal.
  rewrite <-(take_drop (cut2 - cut1) (drop cut1 permuted_indices)) at 2.
  f_equal. rewrite drop_drop. f_equal. lia.
Qed.

(** ** The dataset of merged batches *)

Lemma batch_count_0 batch_size : batch_count 0 batch_size = 0%nat.
Proof.
  unfold batch_count. destruct batch_size as [|b]; [done|].
  apply Nat.div_small. lia.
Qed.

Lemma batch_count_step n batch_size :
  batch_size ≠ 0%nat → n ≠ 0%nat →
  batch_count n batch_size = S (batch_count (n - batch_size) batch_size).
Proof.
  intros Hb Hn. unfold batch_count.
  destruct (decide (n ≤ batch_size)%nat) as [Hle|Hgt].
  - replace (n - batch_size)%nat with 0%nat by lia.
    rewrite (Nat.div_small (0 + batch_size - 1)) by lia.
    symmetry. apply (Nat.div_unique _ _ _ (n - 1)); lia.
  - replace (n + batch_size - 1)%nat
      with ((n - batch_size + batch_size - 1) + 1 * batch_size)%nat by lia.
    rewrite Nat.div_add by done. lia.
Qed.

Lemma batch_fuel_nil {A : Type} fuel batch_size :
  batch_fuel fuel batch_size (@nil A) = [].
Proof. by destruct fuel. Qed.

Lemma batch_fuel_spec {A : Type} (batch_size : nat) :
  batch_size ≠ 0%nat →
  ∀ fuel (l : list A), (length l ≤ fuel)%nat →
  concat (batch_fuel fuel batch_size l) = l
  ∧ Forall (λ b, b ≠ [] ∧ (length b ≤ batch_size)%nat)
           (batch_fuel fuel batch_size l)
  ∧ length (batch_fuel fuel batch_size l) = batch_count (length l) batch_size.
Proof.
  intros Hb. induction fuel as [|fuel IH]; intros l Hl.
  - destruct l; [|simpl in Hl; lia]. simpl. by rewrite batch_count_0.
  - destruct l as [|x l].
    { simpl. by rewrite batch_count_0. }
    cbn [batch_fuel].
    destruct (IH (drop batch_size (x :: l))) as (Hcat & Hall & Hcount).
    { rewrite length_drop. simpl in *. lia. }
    split; [|split].
    + rewrite concat_cons, Hcat. apply take_drop.
    + constructor; [|exact Hall]. split.
      * destruct batch_size; [done|]. done.
      * rewrite length_take. lia.
    + cbn [length]. rewrite Hcount, length_drop.
      symmetry. apply batch_count_step; [done|]. simpl. lia.
Qed.

Lemma ragged_rows_shape (X : RaggedGraphs) :
  Forall2 (λ bf p, length bf = length p)
          (rg_bond_features X) (rg_pair_indices X) →
  Forall graph_shape_ok (ragged_rows X).
Proof.
  unfold ragged_rows. destruct X as [af bf ps]. simpl. intros Hall.
  revert af. induction Hall as [|b p bs ps' Hbp _ IH]; intros af.
  - destruct af; constructor.
  - destruct af as [|a af]; [constructor|]. simpl.
    constructor; [exact Hbp|apply IH].
Qed.

Lemma ragged_rows_length (X : RaggedGraphs) (n : nat) :
  length (rg_atom_features X) = n → length (rg_bond_features X) = n →
  length (rg_pair_indices X) = n → length (ragged_rows X) = n.
Proof.
  intros Ha Hb Hp. unfold ragged_rows.
  rewrite length_zip_with, length_zip_with. lia.
Qed.

Lemma ragged_rows_ragged (gs : list Graph) : ragged_rows (ragged gs) = gs.
Proof.
  unfold ragged_rows, ragged. simpl.
  induction gs as [|g gs IH]; [done|]. csimpl. rewrite IH. by destruct g.
Qed.

Lemma membership_bound (gs : list Graph) :
  Forall (λ i, i < length gs)%nat (merged_membership gs).
Proof.
  apply Forall_forall. intros i Hi.
  apply elem_of_membership in Hi as (g & Hg & _).
  by apply lookup_lt_Some in Hg.
Qed.

Section dataset.
Context {Y : Type} (dataset_shuffle : list (Graph * Y) → list (Graph * Y)).

(** The batches of the dataset: the dataset in its order, possibly
    shuffled, cut in runs of [batch_size] elements. *)
Lemma MPNNDataset_merged (X : RaggedGraphs) (y : list Y) (batch_size : nat)
    (shuffle : bool) :
  batch_size ≠ 0%nat →
  length (rg_atom_features X) = length y →
  length (rg_bond_features X) = length y →
  length (rg_pair_indices X) = length y →
  ragged_rank2 (rg_atom_features X) →
  ragged_rank2 (rg_bond_features X) →
  ragged_rank2 (rg_pair_indices X) →
  Forall graph_shape_ok (ragged_rows X) →
  (∀ l, dataset_shuffle l ≡ₚ l) →
  let dataset :=
    if shuffle then dataset_shuffle (zip (ragged_rows X) y)
    else zip (ragged_rows X) y in
  let batches := batch_fuel (length dataset) batch_size dataset in
  MPNNDataset dataset_shuffle X y batch_size shuffle
  = Some ((λ b, (merged b.*1, b.*2)) <$> batches).
Proof.
  intros Hb Ha Hbf Hp Hra Hrb Hrp Hshape Hperm dataset batches.
  unfold MPNNDataset, from_tensor_slices, dataset_batch.
  rewrite decide_True by done. simpl. rewrite decide_False by done. simpl.
  rewrite decide_True by done.
  apply mapM_Some, Forall2_fmap_r, Forall_Forall2_diag.
  destruct (batch_fuel_spec batch_size Hb (length dataset) dataset
              ltac:(done)) as (Hcat & Hall & _).
  fold dataset. fold batches.
  assert (Hds : Forall (λ e, graph_shape_ok e.1) dataset).
  { assert (Hz : Forall (λ e : Graph * Y, graph_shape_ok e.1)
                   (zip (ragged_rows X) y)).
    { apply Forall_forall. intros [g v] Hin. simpl.
      apply elem_of_zip_l in Hin.
      exact (proj1 (Forall_forall _ _) Hshape g Hin). }
    unfold dataset. destruct shuffle; [by rewrite Hperm|done]. }
  rewrite <-Hcat in Hds. apply Forall_concat in Hds.
  apply Forall_forall. intros b Hin.
  pose proof (proj1 (Forall_forall _ _) Hall b Hin) as [Hne _].
  pose proof (proj1 (Forall_forall _ _) Hds b Hin) as Hsh.
  apply prepare_batch_spec; [by destruct b|by apply Forall_fmap].
Qed.
End dataset.

Lemma concat_fmap_each {A B : Type} (f : A → B) (ls : list (list A)) :
  concat ((λ l : list A, f <$> l) <$> ls) = f <$> concat ls.
Proof.
  induction ls as [|l ls IH]; [done|]. csimpl. by rewrite fmap_app, IH.
Qed.

Lemma node_count_perm (gs gs' : list Graph) :
  gs ≡ₚ gs' → node_count gs = node_count gs'.
Proof.
  unfold node_count. induction 1; csimpl; lia.
Qed.

Lemma node_count_ragged_rows (X : RaggedGraphs) (n : nat) :
  length (rg_atom_features X) = n → length (rg_bond_features X) = n →
  length (rg_pair_indices X) = n →
  node_count (ragged_rows X) = sum_list (length <$> rg_atom_features X).
Proof.
  intros Ha Hb Hp. unfold node_count. f_equal.
  rewrite list_fmap_compose. f_equal.
  unfold ragged_rows. destruct X as [af bf ps]. simpl in *. subst n.
  revert bf ps Hb Hp. induction af as [|a af IH]; intros bf ps Hb Hp.
  - done.
  - destruct bf as [|b bf]; [done|]. destruct ps as [|p ps]; [done|].
    csimpl. f_equal. apply IH; simpl in *; lia.
Qed.

Lemma merged_rows (gs : list Graph) :
  length (g_atom_features (merged gs)) = node_count gs.
Proof. simpl. by rewrite to_tensor_length, node_count_concat. Qed.

Section dataset_batches.
Context {Y : Type} (dataset_shuffle : list (Graph * Y) → list (Graph * Y)).

(** X15.  On tensors with two ragged dimensions (some molecule has an atom,
    a row of bond features and an index pair), [MPNNDataset] returns the
    dataset in merged batches: as many as [batch_size] goes into the number
    of molecules, rounded up; no batch is empty or has more than
    [batch_size] labels; the partition indices of a batch stay below its
    number of labels; no label and no atom is lost, and without shuffling
    the labels keep their order. *)
Theorem MPNNDataset_batches (X : RaggedGraphs) (y : list Y)
    (batch_size : nat) (shuffle : bool) :
  batch_size ≠ 0%nat →
  length (rg_atom_features X) = length y →
  length (rg_bond_features X) = length y →
  length (rg_pair_indices X) = length y →
  ragged_rank2 (rg_atom_features X) →
  ragged_rank2 (rg_bond_features X) →
  ragged_rank2 (rg_pair_indices X) →
  Forall2 (λ bf p, length bf = length p)
          (rg_bond_features X) (rg_pair_indices X) →
  (∀ l, dataset_shuffle l ≡ₚ l) →
  ∃ out,
    MPNNDataset dataset_shuffle X y batch_size shuffle = Some out
    ∧ length out = batch_count (length y) batch_size
    ∧ Forall (λ b, b.2 ≠ [] ∧ (length b.2 ≤ batch_size)%nat
                   ∧ Forall (λ i, i < length b.2)%nat
                            (g_atom_partition_indices b.1)) out
    ∧ concat out.*2 ≡ₚ y
    ∧ (shuffle = false → concat out.*2 = y)
    ∧ sum_list (length ∘ g_atom_features ∘ fst <$> out)
      = sum_list (length <$> rg_atom_features X).
Proof.
  intros Hb Ha Hbf Hp Hra Hrb Hrp Hshape Hperm.
  pose proof (ragged_rows_shape X Hshape) as Hsh.
  pose proof (ragged_rows_length X _ Ha Hbf Hp) as Hrows.
  eexists. split; [by apply MPNNDataset_merged|].
  set (dataset := if shuffle then dataset_shuffle (zip (ragged_rows X) y)
                  else zip (ragged_rows X) y).
  assert (Hds : dataset ≡ₚ zip (ragged_rows X) y).
  { unfold dataset. by destruct shuffle. }
  assert (Hlen : length dataset = length y).
  { rewrite Hds, length_zip_with. lia. }
  destruct (batch_fuel_spec batch_size Hb (length dataset) dataset
              ltac:(done)) as (Hcat & Hall & Hcount).
  set (batches := batch_fuel (length dataset) batch_size dataset) in *.
  assert (Hlabels : concat ((λ b, (merged b.*1, b.*2)) <$> batches).*2
                    = dataset.*2).
  { rewrite <-list_fmap_compose.
    change (snd ∘ (λ b : list (Graph * Y), (merged b.*1, b.*2)))
      with (λ b : list (Graph * Y), b.*2).
    by rewrite concat_fmap_each, Hcat. }
  split; [by rewrite length_fmap, Hcount, Hlen|].
  split.
  { apply Forall_fmap. eapply Forall_impl; [exact Hall|].
    intros b [Hne Hle]. simpl. rewrite length_fmap.
    split; [by destruct b|]. split; [done|].
    rewrite <-(length_fmap fst b). apply membership_bound. }
  split; [by rewrite Hlabels, Hds, snd_zip by lia|].
  split.
  { intros ->. rewrite Hlabels. unfold dataset. apply snd_zip. lia. }
  rewrite <-list_fmap_compose.
  transitivity (node_count (concat ((λ b, b.*1) <$> batches))).
  { clear. induction batches as [|b bs IH]; [done|]. csimpl.
    rewrite node_count_app, <-IH. f_equal.
    apply (merged_rows b.*1). }
  rewrite concat_fmap_each, Hcat.
  rewrite (node_count_perm _ (ragged_rows X)).
  - by apply (node_count_ragged_rows X (length y)).
  - rewrite Hds. by rewrite fst_zip by lia.
Qed.
End dataset_batches.

(** ** The model up to the readout *)

Lemma padded_rows {R : Type} (Rzero : R) (d : nat)
    (states : list (list (list R))) (P : list (list R) → Prop)
    `{!∀ s, Decision (P s)} :
  Forall (λ m, length m = max_list (length <$> states))
         ((λ s, pad_rows Rzero d (max_list (length <$> states) - length s) s)
            <$> filter P states).
Proof.
  apply Forall_fmap, Forall_forall. intros s Hs.
  apply list_elem_of_filter in Hs as [_ Hs]. simpl.
  unfold pad_rows. rewrite length_app, length_replicate.
  assert (length s ≤ max_list (length <$> states))%nat; [|lia].
  apply max_list_elem_of_le, list_elem_of_fmap. eauto.
Qed.

Lemma molecule_graph_rows (molecule : Mol) :
  GetNumAtoms molecule ≠ 0%nat →
  length (atom_features (molecule_graph molecule)) ≠ 0%nat
  ∧ length (bond_features (molecule_graph molecule)) ≠ 0%nat
  ∧ length (pair_indices (molecule_graph molecule)) ≠ 0%nat.
Proof.
  intros Hn.
  assert (Hp : length (pair_indices (molecule_graph molecule)) ≠ 0%nat).
  { simpl. destruct (GetNumAtoms molecule) as [|n]; [done|].
    rewrite <-cons_seq, fmap_cons, concat_cons. unfold atom_pairs at 1.
    simpl. lia. }
  split; [simpl; by rewrite length_fmap|].
  split; [|exact Hp].
  pose proof (molecule_graph_shape molecule) as Hs.
  unfold graph_shape_ok in Hs. by rewrite Hs.
Qed.

Section model.
Context (Rzero : Q) (Radd Rmul : Q → Q → Q) (Rnonzero : Q → bool).
Context (self : MessagePassing (R := Q)).

Local Abbreviation mp_call :=
  (λ g, MessagePassing_call Rzero Radd Rmul self (atom_features g)
          (bond_features g) (pair_indices g)).
Local Abbreviation model_readout := (MPNNModel_readout Rzero Radd Rmul Rnonzero self).
Local Abbreviation kept :=
  (filter (λ s, Rnonzero (reduce_sum Rzero Radd s) = true)).
Local Abbreviation padded :=
  (λ states : list (list (list Q)),
     (λ s, pad_rows Rzero (mp_atom_dim self + pad_length self)
             (max_list (length <$> states) - length s) s)).

Lemma readout_states (batch_size : nat) (gs : list Graph) :
  (∀ x, Radd x Rzero = x) →
  Rnonzero Rzero = false →
  gs ≠ [] →
  (length gs ≤ batch_size)%nat →
  Forall graph_ok gs →
  uniform_widths gs →
  ∃ states,
    mapM mp_call gs = Some states
    ∧ model_readout batch_size (merged gs)
      = Some (padded states <$> kept states)
    ∧ length states = length gs.
Proof.
  intros Hzero Hnz Hne Hle Hok Hw.
  destruct (batch_states Rzero Radd Rmul self gs tt Hne Hok Hw)
    as (out & states & Hprep & Hmap & Hcall & Hlen).
  assert (Hshape : Forall graph_shape_ok gs).
  { eapply Forall_impl; [exact Hok|]. intros g (Hl & _). exact Hl. }
  rewrite (prepare_batch_spec _ _ Hne Hshape) in Hprep.
  apply Some_inj, pair_eq in Hprep as [<- _].
  exists states. split; [exact Hmap|]. split.
  - unfold MPNNModel_readout. rewrite Hcall. simpl.
    apply readout_filter; [done|done|done| |done].
    destruct gs; [done|]. simpl in Hle. lia.
  - symmetry. by eapply Forall2_length.
Qed.


Context {Y : Type} (dataset_shuffle : list (Graph * Y) → list (Graph * Y)).
Context (molecule_from_smiles : string → option Mol).

(** X17.  From SMILES to the readout: take a list of SMILES that is not
    empty, for each of which the toolkit has a molecule with an atom at
    least and bonds between two different atoms of its own, one label per
    SMILES, and a layer built for the widths of the two featurizers.  The
    graphs are built, the dataset is batched and merged, and on every batch
    message passing and the readout succeed; the readout has at most one
    element per label of the batch, all with the same number of rows. *)
Theorem smiles_to_readout (smiles_list : list string) (molecules : list Mol)
    (y : list Y) (batch_size : nat) (shuffle : bool) :
  smiles_list ≠ [] →
  mapM molecule_from_smiles smiles_list = Some molecules →
  Forall (λ m, GetNumAtoms m ≠ 0%nat) molecules →
  Forall molecule_ok molecules →
  MessagePassing_built self →
  mp_atom_dim self = dim atom_featurizer →
  bond_dim (message_step self) = dim bond_featurizer →
  length y = length smiles_list →
  batch_size ≠ 0%nat →
  (∀ l, dataset_shuffle l ≡ₚ l) →
  (∀ x, Radd x Rzero = x) →
  Rnonzero Rzero = false →
  ∃ X out,
    graphs_from_smiles molecule_from_smiles smiles_list = Some X
    ∧ MPNNDataset dataset_shuffle X y batch_size shuffle = Some out
    ∧ Forall (λ b, ∃ x n,
                model_readout batch_size b.1 = Some x
                ∧ (length x ≤ length b.2)%nat
                ∧ Forall (λ m, length m = n) x) out.
Proof.
  intros Hsm Hm Hatoms Hok _ _ _ Hy Hb Hperm Hzero Hnz.
  set (gs := molecule_graph <$> molecules).
  assert (Hrank : Exists (λ g, length (atom_features g) ≠ 0%nat
                               ∧ length (bond_features g) ≠ 0%nat
                               ∧ length (pair_indices g) ≠ 0%nat) gs).
  { apply mapM_Some in Hm. destruct Hm as [|s m ss ms _ _]; [done|].
    apply Forall_cons in Hatoms as [Hm0 _].
    apply Exists_cons_hd. by apply molecule_graph_rows. }
  assert (Hn : length gs = length y).
  { unfold gs. rewrite length_fmap, Hy. symmetry.
    apply mapM_Some in Hm. by eapply Forall2_length. }
  assert (Hgs : Forall (λ g, graph_ok g
                  ∧ Forall (λ row, length row = dim atom_featurizer)
                           (atom_features g)
                  ∧ Forall (λ row, length row = dim bond_featurizer)
                           (bond_features g)) gs).
  { apply Forall_fmap. eapply Forall_impl; [exact Hok|].
    intros m Hmok. simpl. split; [by apply molecule_graph_accepted|].
    apply molecule_graph_widths. }
  exists (ragged gs). eexists.
  split; [by apply smiles_graphs|].
  split.
  { apply MPNNDataset_merged; try done;
      rewrite ?ragged_rows_ragged; simpl; rewrite ?length_fmap; try done.
    - apply Exists_fmap. eapply Exists_impl; [exact Hrank|]. by intros g (? & _).
    - apply Exists_fmap. eapply Exists_impl; [exact Hrank|].
      by intros g (_ & ? & _).
    - apply Exists_fmap. eapply Exists_impl; [exact Hrank|].
      by intros g (_ & _ & ?).
    - eapply Forall_impl; [exact Hgs|]. intros g ((Hl & _) & _). exact Hl. }
  rewrite ragged_rows_ragged.
  set (dataset := if shuffle then dataset_shuffle (zip gs y) else zip gs y).
  assert (Hds : dataset ≡ₚ zip gs y).
  { unfold dataset. by destruct shuffle. }
  destruct (batch_fuel_spec batch_size Hb (length dataset) dataset
              ltac:(done)) as (Hcat & Hall & _).
  set (batches := batch_fuel (length dataset) batch_size dataset) in *.
  assert (Hin : Forall (λ e : Graph * Y, e.1 ∈ gs) dataset).
  { rewrite Hds. apply Forall_forall. intros [g v] Hgv.
    by apply elem_of_zip_l in Hgv. }
  rewrite <-Hcat in Hin. apply Forall_concat in Hin.
  apply Forall_fmap, Forall_forall. intros b Hbin. simpl.
  pose proof (proj1 (Forall_forall _ _) Hall b Hbin) as [Hne Hle].
  pose proof (proj1 (Forall_forall _ _) Hin b Hbin) as Hbgs.
  assert (Hbok : Forall (λ g, graph_ok g
                  ∧ Forall (λ row, length row = dim atom_featurizer)
                           (atom_features g)
                  ∧ Forall (λ row, length row = dim bond_featurizer)
                           (bond_features g)) b.*1).
  { apply Forall_fmap. eapply Forall_impl; [exact Hbgs|].
    intros e He. exact (proj1 (Forall_forall _ _) Hgs _ He). }
  destruct (readout_states batch_size b.*1) as (states & _ & Hread & Hlen).
  - done.
  - done.
  - by destruct b.
  - by rewrite length_fmap.
  - eapply Forall_impl; [exact Hbok|]. by intros g (? & _).
  - split.
    + exists (dim atom_featurizer).
      eapply Forall_impl; [exact Hbok|]. by intros g (_ & ? & _).
    + exists (dim bond_featurizer).
      eapply Forall_impl; [exact Hbok|]. by intros g (_ & _ & ?).
  - eexists _, _. split; [exact Hread|]. split.
    + rewrite length_fmap.
      etrans; [apply length_filter|]. by rewrite Hlen, !length_fmap.
    + apply padded_rows.
Qed.
End model.

(** ** The shape of the aggregation *)

Section aggregation_shape.
Context {R : Type} (Rzero : R) (Radd Rmul : R → R → R).

Local Abbreviation call := (EdgeNetwork_call Rzero Radd Rmul).
Local Abbreviation mp_call := (MessagePassing_call Rzero Radd Rmul).

Lemma EdgeNetwork_call_length (net : EdgeNetwork) x bf pairs out :
  call net x bf pairs = Some out → length out = num_segments pairs.*1.
Proof.
  unfold EdgeNetwork_call. intros Hcall.
  destruct (gather_rows x pairs.*2) as [nb|]; [|done]. simpl in Hcall.
  destruct (batch_matvec _ _ _ _ nb) as [tr|]; [|done]. simpl in Hcall.
  unfold segment_sum in Hcall. case_decide; [|done].
  apply Some_inj in Hcall as <-. by rewrite length_fmap, length_seq.
Qed.

Lemma length_vsum (d : nat) (rows : list (list R)) :
  Forall (λ row, length row = d) rows →
  length (vsum Rzero Radd d rows) = d.
Proof.
  unfold vsum. generalize (length_replicate d Rzero).
  fold (zeros Rzero d). generalize (zeros Rzero d). intros acc Hacc Hall.
  revert acc Hacc. induction Hall as [|row rows Hrow _ IH]; intros acc Hacc.
  - done.
  - simpl. apply IH. unfold vadd. rewrite length_zip_with. lia.
Qed.

Lemma length_message (net : EdgeNetwork) x e :
  length (message Rzero Radd Rmul net x e) = atom_dim net.
Proof.
  unfold message, matvec, edge_matrix, reshape.
  by rewrite !length_fmap, length_seq.
Qed.

(** X18.  On a graph the network accepts, with node features and bond
    features of the widths the network is built for, the aggregation
    succeeds and has a row for every node, of [atom_dim] entries. *)
Theorem EdgeNetwork_call_shape (net : EdgeNetwork) x bf pairs :
  EdgeNetwork_built net →
  rows_of_width (atom_dim net) x →
  rows_of_width (bond_dim net) bf →
  graph_accepted (length x) pairs bf →
  ∃ out,
    call net x bf pairs = Some out
    ∧ length out = length x
    ∧ Forall (λ row, length row = atom_dim net) out.
Proof.
  intros _ _ _ (Hlen & Hrange & Hsorted & Hcover).
  eexists. split; [by apply EdgeNetwork_call_rows|].
  rewrite (num_segments_full _ (length x))
    by eauto using sources_in_range.
  split; [by rewrite length_fmap, length_seq|].
  apply Forall_fmap, Forall_forall. intros i _. simpl.
  apply length_vsum, Forall_fmap, Forall_forall. intros e _.
  apply length_message.
Qed.

(** X19.  A layer of one step or more refuses a graph of several nodes
    whose aggregation has neither a row per node nor a single row, as when
    the last edge starts neither at the last node nor at the first: the
    aggregation stops at the source of the last edge, and the cell can
    neither pair its rows with the states nor broadcast them. *)
Theorem MessagePassing_call_uncovered (self : MessagePassing) x bf pairs :
  steps self ≠ 0%nat →
  num_segments pairs.*1 ≠ length x →
  num_segments pairs.*1 ≠ 1%nat →
  length x ≠ 1%nat →
  mp_call self x bf pairs = None.
Proof.
  intros Hsteps Hn Hone Hx. unfold MessagePassing_call.
  destruct (steps self) as [|k]; [done|]. simpl iterate.
  set (x0 := pad_columns Rzero (pad_length self) x).
  assert (Hx0 : length x0 = length x) by apply length_fmap.
  assert (Hstep : message_passing_step Rzero Radd Rmul self bf pairs x0
                  = None).
  { unfold message_passing_step.
    destruct (call (message_step self) x0 bf pairs) as [agg|] eqn:Hagg;
      [|done].
    apply EdgeNetwork_call_length in Hagg. simpl.
    unfold GRUCell_call. rewrite decide_False by lia.
    destruct agg as [|a [|a' agg]]; destruct x0 as [|s [|s' x0]];
      simpl in *; first [done | lia]. }
  by rewrite Hstep.
Qed.
End aggregation_shape.

(** ** Instances of the further theorems *)

Lemma Qplus_zero_r (x : Q) : Qplus x 0 = x.
Proof.
  destruct x as [n d]. unfold Qplus. simpl.
  by rewrite Z.mul_1_r, Z.add_0_r, Pos.mul_1_r.
Qed.

Lemma graph_accepted_checked {A : Type} (n : nat) (pairs : list (Z * Z))
    (bf : list A) :
  length bf = length pairs →
  Forall (pair_in_range 0 (Z.of_nat n)) pairs →
  Sorted Z.le pairs.*1 →
  Forall (λ i, Z.of_nat i ∈ pairs.*1) (seq 0 n) →
  graph_accepted n pairs bf.
Proof.
  intros Hlen Hrange Hsorted Hcover. split; [done|]. split; [done|].
  split; [done|]. intros i Hi.
  replace i with (Z.of_nat (Z.to_nat i)) by lia.
  apply (proj1 (Forall_forall _ _) Hcover), elem_of_seq. lia.
Qed.



Lemma molecule_layer_built : MessagePassing_built molecule_layer.
Proof.
  split; [done|]. split.
  - split; [apply length_replicate|]. split; [|apply length_replicate].
    apply Forall_replicate, length_replicate.
  - intros input state Hi Hs. cbn [update_step molecule_layer].
    rewrite length_zip_with. lia.
Qed.

Lemma encode_injective_in_vocabulary_witness :
  encode AtomFeaturizer_getattr (Featurizer_init small_allowable_sets)
         (carbon_sp3 3)
  = encode AtomFeaturizer_getattr (Featurizer_init small_allowable_sets)
           (carbon_sp3 2)
  ∧ Forall (λ ks, ∀ extractor,
              AtomFeaturizer_getattr ks.1 = Some extractor →
              extractor (carbon_sp3 3) = extractor (carbon_sp3 2))
           small_allowable_sets.
Proof.
  assert (Heq : encode AtomFeaturizer_getattr
                  (Featurizer_init small_allowable_sets) (carbon_sp3 3)
                = encode AtomFeaturizer_getattr
                    (Featurizer_init small_allowable_sets) (carbon_sp3 2)).
  { vm_compute. reflexivity. }
  split; [exact Heq|].
  apply (encode_injective_in_vocabulary AtomFeaturizer_getattr
           small_allowable_sets (carbon_sp3 3) (carbon_sp3 2)); [|exact Heq].
  repeat constructor; (eexists; split; [reflexivity|]);
    split; apply (bool_decide_unpack _); vm_compute; exact I.
Defined.

Lemma bond_encode_last_slot_witness :
  ∃ absent present,
    BondFeaturizer_encode (BondFeaturizer_init bond_allowable_sets) None
    = Some absent
    ∧ BondFeaturizer_encode (BondFeaturizer_init bond_allowable_sets)
        (Some (single_bond 0 1)) = Some present
    ∧ length absent = length present
    ∧ absent ≠ present.
Proof.
  destruct (bond_encode_last_slot bond_allowable_sets (single_bond 0 1))
    as (absent & present & base & Ha & Hp & _ & Hla & Hlp & _ & _ & _ & Hne).
  - repeat constructor; vm_compute; eauto.
  - exists absent, present. split; [exact Ha|]. split; [exact Hp|].
    split; [|exact Hne]. rewrite Hla, Hlp. reflexivity.
Defined.

Lemma encode_count_ones_witness :
  ∃ output,
    encode AtomFeaturizer_getattr (Featurizer_init small_allowable_sets)
           selenium = Some output
    ∧ count_ones output = 1%nat.
Proof.
  destruct (encode_count_ones AtomFeaturizer_getattr small_allowable_sets
              selenium) as (output & Hout & _ & Hones).
  - repeat constructor; vm_compute; eauto.
  - exists output. split; [exact Hout|]. rewrite Hones.
    vm_compute. reflexivity.
Defined.

Lemma graph_from_molecule_symmetric_witness :
  molecule_ok ethanol
  ∧ ∃ g,
      graph_from_molecule ethanol = Some g
      ∧ ∀ src dst features,
          ((src, dst), features) ∈ zip (pair_indices g) (bond_features g) →
          ((dst, src), features) ∈ zip (pair_indices g) (bond_features g).
Proof.
  assert (Hok : molecule_ok ethanol).
  { apply (bool_decide_unpack _). vm_compute. exact I. }
  split; [exact Hok|]. exact (graph_from_molecule_symmetric ethanol Hok).
Defined.

Lemma graph_from_molecule_self_loops_witness :
  molecule_ok ethanol
  ∧ ∃ g,
      graph_from_molecule ethanol = Some g
      ∧ ∀ src dst features,
          ((src, dst), features) ∈ zip (pair_indices g) (bond_features g) →
          (src = dst
           ↔ BondFeaturizer_encode bond_featurizer None = Some features)
          ∧ (src ≠ dst →
             ∃ bond,
               bond ∈ mol_bonds ethanol
               ∧ GetBondBetweenAtoms ethanol (Z.to_nat src) (Z.to_nat dst)
                 = Some bond
               ∧ BondFeaturizer_encode bond_featurizer (Some bond)
                 = Some features).
Proof.
  assert (Hok : molecule_ok ethanol).
  { apply (bool_decide_unpack _). vm_compute. exact I. }
  split; [exact Hok|]. exact (graph_from_molecule_self_loops ethanol Hok).
Defined.


Lemma molecules_to_states_witness :
  ∃ x_batch out states,
    mapM graph_from_molecule [ethanol; methane] = Some x_batch
    ∧ prepare_batch x_batch [true; false] = Some (out, [true; false])
    ∧ MessagePassing_call 0%Q Qplus Qmult molecule_layer (g_atom_features out)
        (g_bond_features out) (g_pair_indices out)
      = Some states
    ∧ length states = 4%nat.
Proof.
  destruct (molecules_to_states 0%Q Qplus Qmult molecule_layer
              [ethanol; methane] [true; false])
    as (x_batch & out & states & Hx & Hout & _ & _ & Hcall & Hlen).
  - apply Exists_cons_hd. discriminate.
  - apply (bool_decide_unpack _). vm_compute. exact I.
  - exact molecule_layer_built.
  - vm_compute. reflexivity.
  - vm_compute. reflexivity.
  - exists x_batch, out, states. split; [exact Hx|]. split; [exact Hout|].
    split; [exact Hcall|exact Hlen].
Defined.

Lemma partition_padding_on_batch_witness :
  PartitionPadding_call 0%Q Qplus Qnonzero 3 1
    [[1%Q]; [2%Q]; [3%Q]]
    (merged_membership [unit_pair_graph; unit_single_graph])
  = Some [[[1%Q]; [2%Q]]; [[3%Q]; [0%Q]]].
Proof.
  apply (partition_padding_on_batch 0%Q Qplus Qnonzero 3 1
           [unit_pair_graph; unit_single_graph] [[[1%Q]; [2%Q]]; [[3%Q]]]).
  - exact Qplus_zero_r.
  - reflexivity.
  - simpl. lia.
  - lia.
  - repeat constructor.
Defined.

Lemma partition_padding_drops_zero_sum_witness :
  ∃ out,
    PartitionPadding_call 0%Q Qplus Qnonzero 2 1
      [[1%Q]; [(-1)%Q]; [3%Q]]
      (merged_membership [unit_pair_graph; unit_single_graph]) = Some out
    ∧ (length out < 2)%nat.
Proof.
  apply (partition_padding_drops_zero_sum 0%Q Qplus Qnonzero 2 1
           [unit_pair_graph; unit_single_graph]
           [[[1%Q]; [(-1)%Q]]; [[3%Q]]] 0 [[1%Q]; [(-1)%Q]]).
  - exact Qplus_zero_r.
  - reflexivity.
  - simpl. lia.
  - repeat constructor.
  - reflexivity.
  - reflexivity.
Defined.

Lemma partition_padding_small_batch_size_witness :
  PartitionPadding_call 0%Q Qplus Qnonzero 1 1 [[1%Q]; [2%Q]; [3%Q]]
    (merged_membership [unit_pair_graph; unit_single_graph]) = None.
Proof.
  apply (partition_padding_small_batch_size 0%Q Qplus Qnonzero 1 1
           [unit_pair_graph; unit_single_graph] 1 unit_single_graph).
  - reflexivity.
  - discriminate.
  - lia.
Defined.

Lemma graphs_from_smiles_graphs_witness :
  graphs_from_smiles sample_molecule_from_smiles ["CCO"; "C"]%string
  = Some (ragged (molecule_graph <$> [ethanol; methane])).
Proof.
  apply (graphs_from_smiles_graphs sample_molecule_from_smiles
           ["CCO"; "C"]%string [ethanol; methane]).
  reflexivity.
Defined.

Lemma graphs_from_smiles_fails_witness :
  graphs_from_smiles sample_molecule_from_smiles ["CCO"; "c1cc"; "C"]%string
  = None.
Proof.
  apply (graphs_from_smiles_fails sample_molecule_from_smiles
           ["CCO"; "c1cc"; "C"]%string "c1cc"%string).
  - apply (bool_decide_unpack _). vm_compute. exact I.
  - reflexivity.
Defined.

Lemma split_indices_partition_witness :
  let '(train_index, valid_index, test_index) :=
    split_indices 4 5 [3; 0; 4; 1; 5; 2]%nat in
  train_index ++ valid_index ++ test_index = [3; 0; 4; 1; 5; 2]%nat.
Proof.
  apply (split_indices_partition 4 5 [3; 0; 4; 1; 5; 2]%nat). lia.
Defined.

Lemma MPNNDataset_batches_witness :
  ∃ out,
    MPNNDataset reverse
      (ragged [unit_pair_graph; unit_single_graph; unit_pair_graph])
      [true; false; true] 2 false = Some out
    ∧ length out = 2%nat
    ∧ concat out.*2 = [true; false; true].
Proof.
  destruct (MPNNDataset_batches reverse
              (ragged [unit_pair_graph; unit_single_graph; unit_pair_graph])
              [true; false; true] 2 false)
    as (out & Hout & Hlen & _ & _ & Hy & _).
  - lia.
  - reflexivity.
  - reflexivity.
  - reflexivity.
  - apply Exists_cons_hd. discriminate.
  - apply Exists_cons_hd. discriminate.
  - apply Exists_cons_hd. discriminate.
  - repeat constructor.
  - intros l. apply reverse_Permutation.
  - exists out. split; [exact Hout|]. split; [exact Hlen|].
    apply Hy. reflexivity.
Defined.


Lemma smiles_to_readout_witness :
  ∃ X out,
    graphs_from_smiles sample_molecule_from_smiles ["CCO"; "C"]%string = Some X
    ∧ MPNNDataset reverse X [true; false] 2 true = Some out
    ∧ Forall (λ b, ∃ x n,
                MPNNModel_readout 0%Q Qplus Qmult Qnonzero molecule_layer 2 b.1
                = Some x
                ∧ (length x ≤ length b.2)%nat
                ∧ Forall (λ m, length m = n) x) out.
Proof.
  apply (smiles_to_readout 0%Q Qplus Qmult Qnonzero molecule_layer reverse
           sample_molecule_from_smiles ["CCO"; "C"]%string [ethanol; methane]
           [true; false] 2 true).
  - discriminate.
  - reflexivity.
  - repeat constructor; discriminate.
  - apply (bool_decide_unpack _). vm_compute. exact I.
  - exact molecule_layer_built.
  - vm_compute. reflexivity.
  - vm_compute. reflexivity.
  - reflexivity.
  - lia.
  - intros l. apply reverse_Permutation.
  - exact Qplus_zero_r.
  - reflexivity.
Defined.

Lemma EdgeNetwork_call_shape_witness :
  ∃ out,
    EdgeNetwork_call 0%Q Qplus Qmult sample_network (atom_features unit_pair_graph)
      (bond_features unit_pair_graph) (pair_indices unit_pair_graph) = Some out
    ∧ length out = 2%nat
    ∧ Forall (λ row, length row = 1%nat) out.
Proof.
  apply (EdgeNetwork_call_shape 0%Q Qplus Qmult sample_network
           (atom_features unit_pair_graph) (bond_features unit_pair_graph)
           (pair_indices unit_pair_graph)).
  - apply sample_network_built.
  - repeat constructor.
  - repeat constructor.
  - apply graph_accepted_checked;
      apply (bool_decide_unpack _); vm_compute; exact I.
Defined.

Lemma MessagePassing_call_uncovered_witness :
  MessagePassing_call 0%Q Qplus Qmult sample_layer
    [[1%Q]; [2%Q]; [3%Q]] [[1%Q]; [1%Q]] [(0, 0); (1, 1)] = None.
Proof.
  apply (MessagePassing_call_uncovered 0%Q Qplus Qmult sample_layer).
  - discriminate.
  - vm_compute. intros H. discriminate H.
  - vm_compute. intros H. discriminate H.
  - discriminate.
Defined.
